(** * dbgen: values, template lexer and parser, compiler and evaluator

    A shallow embedding of the Go packages [constant], [template] and
    [dbgen] of gozssky/dbgen, followed by the properties proved about them.

    Conventions of the embedding.
    - A Go [string] or [[]byte] is a [list ascii] ([gostring]); [s[i]] and
      [s[i:j]] panic out of range, as in Go.
    - [int64] and [int] are [Z]; 64-bit wrap-around is written [wrap64].
      [*big.Int] is an unbounded [Z].  [float64] is the kernel's binary64.
    - A Go interface type is an inductive type with one extra constructor
      for the nil interface ([nilValue], [nilCompiled], [nilExpr]).
    - A call returns an [outcome]: a value, an [error], or a run-time panic.
      [OutOfFuel] only says that the bound given to an unbounded Go loop
      was too small. *)

From Stdlib Require Import ZArith List Bool Ascii String Lia.
From Stdlib Require Floats.PrimFloat Floats.SpecFloat Floats.FloatOps.
Import ListNotations.
Local Open Scope Z_scope.
#[local] Set Warnings "-register-all".

(* ================================================================== *)
(** * Outcomes of Go calls *)

Inductive outcome (E A : Type) : Type :=
| Ok (a : A)
| Err (e : E)
| Panic (msg : string)
| OutOfFuel.

Arguments Ok {E A} a.
Arguments Err {E A} e.
Arguments Panic {E A} msg%_string.
Arguments OutOfFuel {E A}.

Definition bind {E A B} (m : outcome E A) (f : A -> outcome E B) : outcome E B :=
  match m with
  | Ok a => f a
  | Err e => Err e
  | Panic msg => Panic msg
  | OutOfFuel => OutOfFuel
  end.

Declare Scope go_scope.
Delimit Scope go_scope with go.
Notation "x <- m ;; k" := (bind m (fun x => k))
  (at level 61, m at next level, right associativity) : go_scope.
Notation "' p <- m ;; k" := (bind m (fun x => match x with p => k end))
  (at level 61, p pattern, m at next level, right associativity) : go_scope.
Local Open Scope go_scope.

Definition nilDeref : string := "invalid memory address or nil pointer dereference".
Definition outOfRange : string := "index out of range".

(* ================================================================== *)
(** * Go strings *)

Definition gostring := list ascii.

Definition str (s : string) : gostring := list_ascii_of_string s.
Arguments str s%_string.

(** [int(s[i])]: the byte as an integer. *)
Definition chr (c : ascii) : Z := Z.of_N (N_of_ascii c).
Arguments chr c%_char.

Definition len {A} (s : list A) : Z := Z.of_nat (List.length s).

Definition gostring_eqb (a b : gostring) : bool :=
  if list_eq_dec ascii_dec a b then true else false.

(** [s[i]]. *)
Definition at_ {E A} (s : list A) (i : Z) : outcome E A :=
  if (0 <=? i) && (i <? len s) then
    match nth_error s (Z.to_nat i) with
    | Some c => Ok c
    | None => Panic outOfRange
    end
  else Panic outOfRange.

(** [s[lo:hi]]. *)
Definition slice {E A} (s : list A) (lo hi : Z) : outcome E (list A) :=
  if (0 <=? lo) && (lo <=? hi) && (hi <=? len s) then
    Ok (firstn (Z.to_nat (hi - lo)) (skipn (Z.to_nat lo) s))
  else Panic "slice bounds out of range".

Module strings.

Fixpoint HasPrefix (s prefix : gostring) {struct prefix} : bool :=
  match prefix, s with
  | [], _ => true
  | p :: prefix', c :: s' => Ascii.eqb c p && HasPrefix s' prefix'
  | _ :: _, [] => false
  end.

(** Offset of the first occurrence of [substr] in [s], counted from [off]. *)
Fixpoint Index_from (off : Z) (s substr : gostring) : Z :=
  if HasPrefix s substr then off
  else match s with
       | [] => -1
       | _ :: s' => Index_from (off + 1) s' substr
       end.

Definition Index (s substr : gostring) : Z := Index_from 0 s substr.

Fixpoint IndexByte_from (off : Z) (s : gostring) (c : ascii) : Z :=
  match s with
  | [] => -1
  | x :: s' => if Ascii.eqb x c then off else IndexByte_from (off + 1) s' c
  end.

Definition IndexByte (s : gostring) (c : ascii) : Z := IndexByte_from 0 s c.

Fixpoint LastIndexByte_from (off : Z) (s : gostring) (c : ascii) : Z :=
  match s with
  | [] => -1
  | x :: s' =>
      let r := LastIndexByte_from (off + 1) s' c in
      if 0 <=? r then r else if Ascii.eqb x c then off else -1
  end.

Definition LastIndexByte (s : gostring) (c : ascii) : Z := LastIndexByte_from 0 s c.

(** [strings.ReplaceAll s old new] for a non-empty [old]: non-overlapping
    occurrences are replaced from left to right.  [skip] counts the bytes
    of an occurrence still to be dropped. *)
Fixpoint ReplaceAll_go (skip : nat) (s old new : gostring) : gostring :=
  match s with
  | [] => []
  | c :: s' =>
      match skip with
      | S k => ReplaceAll_go k s' old new
      | O =>
          if HasPrefix s old
          then new ++ ReplaceAll_go (List.length old - 1) s' old new
          else c :: ReplaceAll_go O s' old new
      end
  end.

Definition ReplaceAll (s old new : gostring) : gostring := ReplaceAll_go O s old new.

Definition lowerByte (c : ascii) : ascii :=
  if (chr "A" <=? chr c) && (chr c <=? chr "Z")
  then ascii_of_N (N_of_ascii c + 32)
  else c.

(** [strings.ToLower] on its ASCII range: the letters A to Z are mapped, every
    other byte is kept.  The Unicode case mapping that Go applies to
    non-ASCII runes is not part of this model. *)
Definition ToLower (s : gostring) : gostring := map lowerByte s.

Fixpoint Join (elems : list gostring) (sep : gostring) : gostring :=
  match elems with
  | [] => []
  | [e] => e
  | e :: rest => e ++ sep ++ Join rest sep
  end.

End strings.

(* ================================================================== *)
(** * 64-bit integers and floats *)

Definition MinInt64 : Z := - 2 ^ 63.
Definition MaxInt64 : Z := 2 ^ 63 - 1.

Definition in_int64 (z : Z) : Prop := MinInt64 <= z <= MaxInt64.
Definition in_int64b (z : Z) : bool := (MinInt64 <=? z) && (z <=? MaxInt64).

(** Two's-complement wrap-around of a mathematical result to [int64]. *)
Definition wrap64 (z : Z) : Z := (z + 2 ^ 63) mod 2 ^ 64 - 2 ^ 63.

(** Go's [/] and [%] on [int64] (divisor non-zero): truncated, and
    [MinInt64 / -1] wraps. *)
Definition quot64 (a b : Z) : Z := wrap64 (Z.quot a b).
Definition rem64 (a b : Z) : Z := wrap64 (Z.rem a b).

Definition float64 := PrimFloat.float.

(** [float64(i)] and [big.Float.SetInt(i).Float64()]: round to nearest even. *)
Definition float64_of_Z (z : Z) : float64 :=
  FloatOps.SF2Prim (SpecFloat.binary_normalize FloatOps.prec FloatOps.emax z 0 false).

(** [int64(f)]: truncation toward zero.  Go leaves the result open when the
    value does not fit; the model gives what amd64 gives, [MinInt64]. *)
Definition int64_of_float (f : float64) : Z :=
  match FloatOps.Prim2SF f with
  | SpecFloat.S754_zero _ => 0
  | SpecFloat.S754_finite s m e =>
      let mag := if 0 <=? e then Zpos m * 2 ^ e else Zpos m / 2 ^ (- e) in
      let v := if s then - mag else mag in
      if in_int64b v then v else MinInt64
  | _ => MinInt64
  end.

(** [math.Mod]. *)
Definition math_Mod (x y : float64) : float64 :=
  match FloatOps.Prim2SF x, FloatOps.Prim2SF y with
  | SpecFloat.S754_nan, _ | _, SpecFloat.S754_nan => PrimFloat.nan
  | SpecFloat.S754_infinity _, _ => PrimFloat.nan
  | _, SpecFloat.S754_zero _ => PrimFloat.nan
  | _, SpecFloat.S754_infinity _ => x
  | SpecFloat.S754_zero _, _ => x
  | SpecFloat.S754_finite sx mx ex, SpecFloat.S754_finite _ my ey =>
      let e := Z.min ex ey in
      let r := Z.rem (Zpos mx * 2 ^ (ex - e)) (Zpos my * 2 ^ (ey - e)) in
      FloatOps.SF2Prim
        (SpecFloat.binary_normalize FloatOps.prec FloatOps.emax
           (if sx then - r else r) e sx)
  end.

(* ================================================================== *)
(** * Package [constant] *)

Module constant.

Inductive Kind :=
| KindNull
| KindBool
| KindBytes
| KindInt
| KindFloat
| KindTimestamp
| KindInterval
| KindArray.

Definition Kind_eqb (a b : Kind) : bool :=
  match a, b with
  | KindNull, KindNull | KindBool, KindBool | KindBytes, KindBytes
  | KindInt, KindInt | KindFloat, KindFloat | KindTimestamp, KindTimestamp
  | KindInterval, KindInterval | KindArray, KindArray => true
  | _, _ => false
  end.

(** The names the [stringer] directive generates, with the prefix trimmed. *)
Definition Kind_String (k : Kind) : string :=
  match k with
  | KindNull => "Null"
  | KindBool => "Bool"
  | KindBytes => "Bytes"
  | KindInt => "Int"
  | KindFloat => "Float"
  | KindTimestamp => "Timestamp"
  | KindInterval => "Interval"
  | KindArray => "Array"
  end.

(** [time.Time], as far as this package uses it: an instant in nanoseconds
    and the name of its location.  [Add] and [Compare] act on the instant. *)
Record Time := { instant : Z; location : gostring }.

Definition Time_Add (t : Time) (d : Z) : Time :=
  {| instant := instant t + d; location := location t |}.

(** The interface [Value]: its eight concrete types (the integer kind has
    two) and the nil interface. *)
Inductive Value :=
| nilValue
| nullVal
| boolVal (b : bool)
| bytesVal (b : gostring)
| intVal (val : Z)
| int64Val (i : Z)
| floatVal (f : float64)
| timestampVal (val : Time)
| intervalVal (val : Z)
| arrayVal (a : list Value).

Definition Null : Value := nullVal.

(** [v.Kind()]: a method call, which panics on the nil interface. *)
Definition Value_Kind {E} (v : Value) : outcome E Kind :=
  match v with
  | nilValue => Panic nilDeref
  | nullVal => Ok KindNull
  | boolVal _ => Ok KindBool
  | bytesVal _ => Ok KindBytes
  | intVal _ => Ok KindInt
  | int64Val _ => Ok KindInt
  | floatVal _ => Ok KindFloat
  | timestampVal _ => Ok KindTimestamp
  | intervalVal _ => Ok KindInterval
  | arrayVal _ => Ok KindArray
  end.

(** [v == Null]. *)
Definition isNull (v : Value) : bool :=
  match v with nullVal => true | _ => false end.

(** An argument of a formatted message. *)
Inductive fmtArg :=
| argInt (i : Z)
| argString (s : gostring)
| argKind (k : Kind)
| argValue (v : Value).

(** The errors of the three packages.  [errorString] is [errors.New];
    [fmtError] is [fmt.Errorf], kept as its format and its arguments. *)
Inductive error :=
| ConvertError (From : Value) (To : string)
| CompareError (Left Right : Value)
| BinaryOpError (Op : string) (Left Right : Value) (Cause : option error)
| UnaryOpError (Op : string) (v : Value) (Cause : option error)
| ErrDivideByZero
| NumError (Func : string) (Num : gostring) (Err : string)
| errorString (msg : string)
| fmtError (format : string) (args : list fmtArg).

Definition res := outcome error.

Definition MakeBool (b : bool) : Value := boolVal b.
Definition MakeBytes (b : gostring) : Value := bytesVal b.
Definition MakeInt64 (i : Z) : Value := int64Val i.

Definition MakeInt (i : Z) : Value :=
  if in_int64b i then int64Val i else intVal i.

Definition MakeFloat (f : float64) : Value := floatVal f.
Definition MakeTimestamp (t : Time) : Value := timestampVal t.
Definition MakeInterval (d : Z) : Value := intervalVal d.

(** [arrayVal{nil}] is a composite literal: a slice with one element, the nil
    interface. *)
Definition MakeArray (a : list Value) : Value :=
  if len a =? 0 then arrayVal [nilValue] else arrayVal a.

Definition AsBool (v : Value) : res bool :=
  match v with
  | boolVal b => Ok b
  | _ => Err (ConvertError v "bool")
  end.

Definition AsBytes (v : Value) : res gostring :=
  match v with
  | bytesVal b => Ok b
  | _ => Err (ConvertError v "[]byte")
  end.

Definition IsInt64 (v : Value) : bool :=
  match v with
  | intVal val => in_int64b val
  | int64Val _ => true
  | _ => false
  end.

Definition AsInt64 (v : Value) : res Z :=
  match v with
  | intVal val => if negb (in_int64b val) then Err (ConvertError v "int64") else Ok val
  | int64Val i => Ok i
  | _ => Err (ConvertError v "int64")
  end.

Definition AsInt (v : Value) : res Z :=
  match v with
  | intVal val => Ok val
  | int64Val i => Ok i
  | _ => Err (ConvertError v "*big.Int")
  end.

Definition AsFloat (v : Value) : res float64 :=
  match v with
  | floatVal f => Ok f
  | intVal val => Ok (float64_of_Z val)
  | int64Val i => Ok (float64_of_Z i)
  | _ => Err (ConvertError v "float64")
  end.

Definition AsTimestamp (v : Value) : res Time :=
  match v with
  | timestampVal t => Ok t
  | _ => Err (ConvertError v "time.Time")
  end.

Definition AsInterval (v : Value) : res Z :=
  match v with
  | intervalVal d => Ok d
  | _ => Err (ConvertError v "time.Duration")
  end.

Definition AsArray (v : Value) : res (list Value) :=
  match v with
  | arrayVal a => Ok a
  | _ => Err (ConvertError v "[]Value")
  end.

(** [numberCmp] at the integer types and at [float64]. *)
Definition numberCmp (a b : Z) : Z :=
  if a <? b then -1 else if a >? b then 1 else 0.

Definition numberCmpF (a b : float64) : Z :=
  if PrimFloat.ltb a b then -1 else if PrimFloat.ltb b a then 1 else 0.

Definition Sign (v : Value) : Z :=
  match v with
  | intVal val => Z.sgn val
  | int64Val i => numberCmp i 0
  | floatVal f => numberCmpF f PrimFloat.zero
  | intervalVal d => numberCmp d 0
  | _ => 1
  end.

(** [bytes.Compare]. *)
Fixpoint bytes_Compare (a b : gostring) : Z :=
  match a, b with
  | [], [] => 0
  | [], _ :: _ => -1
  | _ :: _, [] => 1
  | x :: a', y :: b' =>
      if chr x <? chr y then -1 else if chr y <? chr x then 1 else bytes_Compare a' b'
  end.

(** The deferred function of [Cmp]: any error that is not a [*CompareError]
    is replaced by one. *)
Definition deferCmp {A} (a b : Value) (r : res A) : res A :=
  match r with
  | Err (CompareError _ _) => r
  | Err _ => Err (CompareError a b)
  | _ => r
  end.

(** [Cmp a b] returns the ordering and [isNull]. *)
Fixpoint Cmp (a b : Value) {struct a} : res (Z * bool) :=
  if isNull a || isNull b then Ok (0, true) else
  deferCmp a b
    match a with
    | boolVal a' =>
        b' <- AsBool b ;;
        if Bool.eqb a' b' then Ok (0, false)
        else if negb a' && b' then Ok (-1, false) else Ok (1, false)
    | bytesVal a' =>
        b' <- AsBytes b ;;
        Ok (bytes_Compare a' b', false)
    | intVal a' =>
        k <- Value_Kind b ;;
        match k with
        | KindInt => b' <- AsInt b ;; Ok (Z.sgn (a' - b'), false)
        | KindFloat =>
            let a1 := float64_of_Z a' in
            b' <- AsFloat b ;; Ok (numberCmpF a1 b', false)
        | _ => Err (CompareError a b)
        end
    | int64Val a' =>
        fast <- (if IsInt64 b
                 then b' <- AsInt64 b ;; Ok (Some (numberCmp a' b', false))
                 else Ok None) ;;
        match fast with
        | Some r => Ok r
        | None =>
            k <- Value_Kind b ;;
            match k with
            | KindInt => b' <- AsInt b ;; Ok (Z.sgn (a' - b'), false)
            | KindFloat => b' <- AsFloat b ;; Ok (numberCmpF (float64_of_Z a') b', false)
            | _ => Err (CompareError a b)
            end
        end
    | floatVal a' =>
        b' <- AsFloat b ;; Ok (numberCmpF a' b', false)
    | timestampVal a' =>
        b' <- AsTimestamp b ;; Ok (numberCmp (instant a') (instant b'), false)
    | intervalVal a' =>
        b' <- AsInterval b ;; Ok (numberCmp a' b', false)
    | arrayVal a' =>
        b' <- AsArray b ;;
        (fix loop (xs ys : list Value) {struct xs} : res (Z * bool) :=
           match xs, ys with
           | x :: xs', y :: ys' =>
               match Cmp x y with
               | Ok (r, isNull) =>
                   if isNull then Ok (0, isNull)
                   else if negb (r =? 0) then Ok (r, false)
                   else loop xs' ys'
               | Err e => Err e
               | Panic msg => Panic msg
               | OutOfFuel => OutOfFuel
               end
           | _, _ => Ok (numberCmp (len a') (len b'), false)
           end) a' b'
    | _ => Err (CompareError a b)
    end.

Definition MakeBinaryOpError (op : string) (left right : Value) (cause : option error) : error :=
  BinaryOpError op left right cause.

(** The deferred function of the binary operations: an error that is not a
    [*BinaryOpError] becomes the cause of one. *)
Definition deferBinaryOp (op : string) (a b : Value) (r : res Value) : res Value :=
  match r with
  | Err (BinaryOpError _ _ _ _) => r
  | Err e => Err (MakeBinaryOpError op a b (Some e))
  | _ => r
  end.

Definition Add (a b : Value) : res Value :=
  if isNull a || isNull b then Ok Null else
  deferBinaryOp "add" a b
    match a with
    | intVal a' =>
        k <- Value_Kind b ;;
        match k with
        | KindInt => b' <- AsInt b ;; Ok (intVal (a' + b'))
        | KindFloat =>
            let a1 := float64_of_Z a' in
            b' <- AsFloat b ;; Ok (floatVal (PrimFloat.add a1 b'))
        | _ => Err (MakeBinaryOpError "add" a b None)
        end
    | int64Val a' =>
        fast <- (if IsInt64 b
                 then b' <- AsInt64 b ;;
                      let sum := wrap64 (a' + b') in
                      if Bool.eqb (sum >? a') (b' >? 0)
                      then Ok (Some (int64Val sum))
                      else Ok None (* Overflow. *)
                 else Ok None) ;;
        match fast with
        | Some r => Ok r
        | None =>
            k <- Value_Kind b ;;
            match k with
            | KindInt => b' <- AsInt b ;; Ok (intVal (a' + b'))
            | KindFloat =>
                b' <- AsFloat b ;; Ok (floatVal (PrimFloat.add (float64_of_Z a') b'))
            | _ => Err (MakeBinaryOpError "add" a b None)
            end
        end
    | floatVal a' =>
        b' <- AsFloat b ;; Ok (floatVal (PrimFloat.add a' b'))
    | timestampVal a' =>
        b' <- AsInterval b ;; Ok (timestampVal (Time_Add a' b'))
    | intervalVal a' =>
        match b with
        | timestampVal t => Ok (timestampVal (Time_Add t a'))
        | _ => b' <- AsInterval b ;; Ok (intervalVal (wrap64 (a' + b')))
        end
    | _ => Err (MakeBinaryOpError "add" a b None)
    end.

Definition Sub (a b : Value) : res Value :=
  if isNull a || isNull b then Ok Null else
  deferBinaryOp "sub" a b
    match a with
    | intVal a' =>
        k <- Value_Kind b ;;
        match k with
        | KindInt => b' <- AsInt b ;; Ok (intVal (a' - b'))
        | KindFloat =>
            let a1 := float64_of_Z a' in
            b' <- AsFloat b ;; Ok (floatVal (PrimFloat.sub a1 b'))
        | _ => Err (MakeBinaryOpError "sub" a b None)
        end
    | int64Val a' =>
        fast <- (if IsInt64 b
                 then b' <- AsInt64 b ;;
                      let sum := wrap64 (a' + b') in
                      if Bool.eqb (sum >? a') (b' <? 0)
                      then Ok (Some (int64Val sum))
                      else Ok None (* Overflow. *)
                 else Ok None) ;;
        match fast with
        | Some r => Ok r
        | None =>
            k <- Value_Kind b ;;
            match k with
            | KindInt => b' <- AsInt b ;; Ok (intVal (a' - b'))
            | KindFloat =>
                b' <- AsFloat b ;; Ok (floatVal (PrimFloat.sub (float64_of_Z a') b'))
            | _ => Err (MakeBinaryOpError "sub" a b None)
            end
        end
    | floatVal a' =>
        b' <- AsFloat b ;; Ok (floatVal (PrimFloat.sub a' b'))
    | timestampVal a' =>
        b' <- AsInterval b ;; Ok (timestampVal (Time_Add a' (wrap64 (- b'))))
    | intervalVal a' =>
        match b with
        | timestampVal t => Ok (timestampVal (Time_Add t (wrap64 (- a'))))
        | _ => b' <- AsInterval b ;; Ok (intervalVal (wrap64 (a' - b')))
        end
    | _ => Err (MakeBinaryOpError "sub" a b None)
    end.

Definition Mul (a b : Value) : res Value :=
  if isNull a || isNull b then Ok Null else
  deferBinaryOp "mul" a b
    match a with
    | intVal a' =>
        k <- Value_Kind b ;;
        match k with
        | KindInt => b' <- AsInt b ;; Ok (intVal (a' * b'))
        | KindFloat =>
            let a1 := float64_of_Z a' in
            b' <- AsFloat b ;; Ok (floatVal (PrimFloat.mul a1 b'))
        | KindInterval =>
            b' <- AsInterval b ;;
            let result := a' * b' in
            Ok (intervalVal (wrap64 result))
        | _ => Err (MakeBinaryOpError "mul" a b None)
        end
    | int64Val a' =>
        fast <- (if IsInt64 b
                 then b' <- AsInt64 b ;;
                      let result := wrap64 (a' * b') in
                      if (a' =? 0) || (b' =? 0) || (a' =? 1) || (b' =? 1)
                         || (quot64 result a' =? b')
                      then Ok (Some (int64Val result))
                      else Ok None (* Overflow. *)
                 else Ok None) ;;
        match fast with
        | Some r => Ok r
        | None =>
            k <- Value_Kind b ;;
            match k with
            | KindInt => b' <- AsInt b ;; Ok (intVal (a' * b'))
            | KindFloat =>
                b' <- AsFloat b ;; Ok (floatVal (PrimFloat.mul (float64_of_Z a') b'))
            | KindInterval =>
                b' <- AsInterval b ;; Ok (intervalVal (wrap64 (a' * b')))
            | _ => Err (MakeBinaryOpError "mul" a b None)
            end
        end
    | floatVal a' =>
        k <- Value_Kind b ;;
        if Kind_eqb k KindInterval
        then b' <- AsInterval b ;;
             Ok (intervalVal (int64_of_float (PrimFloat.mul a' (float64_of_Z b'))))
        else b' <- AsFloat b ;; Ok (floatVal (PrimFloat.mul a' b'))
    | intervalVal a' =>
        k <- Value_Kind b ;;
        match k with
        | KindInt =>
            if a' =? 0 then Ok (intervalVal 0)
            else
              fast <- (if IsInt64 b
                       then b' <- AsInt64 b ;;
                            let result := wrap64 (a' * b') in
                            if (b' =? 0) || (a' =? 1) || (b' =? 1)
                               || (quot64 result a' =? b')
                            then Ok (Some (intervalVal result))
                            else Ok None
                       else Ok None) ;;
              match fast with
              | Some r => Ok r
              | None => Err (MakeBinaryOpError "mul" a b None)
              end
        | KindFloat =>
            b' <- AsFloat b ;;
            Ok (intervalVal (int64_of_float (PrimFloat.mul (float64_of_Z a') b')))
        | _ => Err (MakeBinaryOpError "mul" a b None)
        end
    | _ => Err (MakeBinaryOpError "mul" a b None)
    end.

(** [big.Int.Div] and [big.Int.Mod]: Euclidean division (divisor non-zero). *)
Definition big_Div (x y : Z) : Z := if 0 <? y then x / y else - (x / (- y)).
Definition big_Mod (x y : Z) : Z := x mod (Z.abs y).

Definition isZeroF (f : float64) : bool := PrimFloat.eqb f PrimFloat.zero.

Definition Div (a b : Value) : res Value :=
  if isNull a || isNull b then Ok Null else
  deferBinaryOp "div" a b
    match a with
    | intVal a' =>
        k <- Value_Kind b ;;
        match k with
        | KindInt =>
            b' <- AsInt b ;;
            if in_int64b b' && (b' =? 0) then Err ErrDivideByZero
            else Ok (intVal (big_Div a' b'))
        | KindFloat =>
            let a1 := float64_of_Z a' in
            b' <- AsFloat b ;;
            if isZeroF b' then Err ErrDivideByZero
            else Ok (floatVal (PrimFloat.div a1 b'))
        | _ => Err (MakeBinaryOpError "div" a b None)
        end
    | int64Val a' =>
        if IsInt64 b
        then b' <- AsInt64 b ;;
             if b' =? 0 then Err ErrDivideByZero
             else Ok (int64Val (quot64 a' b'))
        else
          k <- Value_Kind b ;;
          match k with
          | KindInt => b' <- AsInt b ;; Ok (intVal (big_Div a' b'))
          | KindFloat =>
              b' <- AsFloat b ;; Ok (floatVal (PrimFloat.div (float64_of_Z a') b'))
          | _ => Err (MakeBinaryOpError "div" a b None)
          end
    | floatVal a' =>
        b' <- AsFloat b ;;
        if isZeroF b' then Err ErrDivideByZero
        else Ok (floatVal (PrimFloat.div a' b'))
    | _ => Err (MakeBinaryOpError "div" a b None)
    end.

Definition FloatDiv (a b : Value) : res Value :=
  if isNull a || isNull b then Ok Null else
  deferBinaryOp "float_div" a b
    (k <- Value_Kind a ;;
     match k with
     | KindInt | KindFloat =>
         a1 <- AsFloat a ;;
         b1 <- AsFloat b ;;
         if isZeroF b1 then Err ErrDivideByZero
         else Ok (floatVal (PrimFloat.div a1 b1))
     | KindInterval =>
         a1 <- AsInterval a ;;
         b1 <- AsFloat b ;;
         if isZeroF b1 then Err (errorString "divide by zero")
         else Ok (intervalVal (int64_of_float (PrimFloat.div (float64_of_Z a1) b1)))
     | _ => Err (MakeBinaryOpError "float_div" a b None)
     end).

Definition Mod (a b : Value) : res Value :=
  if isNull a || isNull b then Ok Null else
  deferBinaryOp "mod" a b
    match a with
    | intVal a' =>
        k <- Value_Kind b ;;
        match k with
        | KindInt =>
            b' <- AsInt b ;;
            if in_int64b b' && (b' =? 0) then Err ErrDivideByZero
            else Ok (intVal (big_Mod a' b'))
        | KindFloat =>
            let a1 := float64_of_Z a' in
            b' <- AsFloat b ;;
            if isZeroF b' then Err ErrDivideByZero
            else Ok (floatVal (math_Mod a1 b'))
        | _ => Err (MakeBinaryOpError "mod" a b None)
        end
    | int64Val a' =>
        if IsInt64 b
        then b' <- AsInt64 b ;;
             if b' =? 0 then Err ErrDivideByZero
             else Ok (int64Val (rem64 a' b'))
        else
          k <- Value_Kind b ;;
          match k with
          | KindInt => b' <- AsInt b ;; Ok (intVal (big_Mod a' b'))
          | KindFloat =>
              b' <- AsFloat b ;; Ok (floatVal (math_Mod (float64_of_Z a') b'))
          | _ => Err (MakeBinaryOpError "mod" a b None)
          end
    | floatVal a' =>
        b' <- AsFloat b ;;
        if isZeroF b' then Err ErrDivideByZero
        else Ok (floatVal (math_Mod a' b'))
    | _ => Err (MakeBinaryOpError "mod" a b None)
    end.

Definition MakeUnaryOpError (op : string) (val : Value) (cause : option error) : error :=
  UnaryOpError op val cause.

Definition Neg (a : Value) : res Value :=
  if isNull a then Ok Null else
  match a with
  | intVal a' => Ok (intVal (- a'))
  | int64Val a' =>
      if a' =? MinInt64 then Ok (intVal (MaxInt64 + 1))
      else Ok (int64Val (- a'))
  | floatVal a' => Ok (floatVal (PrimFloat.opp a'))
  | intervalVal a' => Ok (intervalVal (wrap64 (- a')))
  | _ => Err (MakeUnaryOpError "neg" a None)
  end.

(** ** Numeric literals: [strconv.ParseInt], [big.Int.SetString], [strconv.ParseFloat] *)

Definition isDecDigit (c : ascii) : bool := (chr "0" <=? chr c) && (chr c <=? chr "9").

Definition errSyntax : string := "invalid syntax".
Definition errRange : string := "value out of range".

(** The loop of [strconv.ParseUint(s, 10, 64)]. *)
Fixpoint ParseUint_loop (s0 s : gostring) (n : Z) : res Z :=
  match s with
  | [] => Ok n
  | c :: s' =>
      if negb (isDecDigit c) then Err (NumError "ParseUint" s0 errSyntax)
      else
        let d := chr c - chr "0" in
        if n >=? (2 ^ 64 - 1) / 10 + 1 then Err (NumError "ParseUint" s0 errRange)
        else
          let n1 := n * 10 + d in
          if n1 >? 2 ^ 64 - 1 then Err (NumError "ParseUint" s0 errRange)
          else ParseUint_loop s0 s' n1
  end.

Definition ParseUint (s : gostring) : res Z :=
  match s with
  | [] => Err (NumError "ParseUint" s errSyntax)
  | _ => ParseUint_loop s s 0
  end.

(** [strconv.ParseInt(s, 10, 64)]. *)
Definition ParseInt (s0 : gostring) : res Z :=
  match s0 with
  | [] => Err (NumError "ParseInt" s0 errSyntax)
  | c :: rest =>
      let neg := Ascii.eqb c "-" in
      let s := if Ascii.eqb c "+" || neg then rest else s0 in
      match ParseUint s with
      | Err (NumError _ _ e) =>
          if String.eqb e errRange
          then Err (NumError "ParseInt" s0 errRange)
          else Err (NumError "ParseInt" s0 e)
      | Ok un =>
          let cutoff := 2 ^ 63 in
          if negb neg && (un >=? cutoff) then Err (NumError "ParseInt" s0 errRange)
          else if neg && (un >? cutoff) then Err (NumError "ParseInt" s0 errRange)
          else Ok (wrap64 (if neg then - un else un))
      | r => r
      end
  end.

(** The digit value [nat.scan] gives a byte in bases up to 36; 63 stands for
    [MaxBase + 1]. *)
Definition digitVal (ch : ascii) : Z :=
  if (chr "0" <=? chr ch) && (chr ch <=? chr "9") then chr ch - chr "0"
  else if (chr "a" <=? chr ch) && (chr ch <=? chr "z") then chr ch - chr "a" + 10
  else if (chr "A" <=? chr ch) && (chr ch <=? chr "Z") then chr ch - chr "A" + 10
  else 63.

(** What [nat.scan] remembers of the previous byte. *)
Inductive prevChar := prevSep | prevDigit | prevOther.

(** The conversion loop of [nat.scan] in base [b] with [base == 0]; [None]
    when a byte is left unread or the scan reports an error. *)
Fixpoint scan_loop (s : gostring) (b : Z) (prev : prevChar) (invalSep : bool)
    (octalPrefix : bool) (count acc : Z) : option Z :=
  match s with
  | [] =>
      let sepErr :=
        invalSep || match prev with prevSep => true | _ => false end in
      if count =? 0 then
        if octalPrefix then (if sepErr then None else Some 0) else None
      else if sepErr then None else Some acc
  | ch :: s' =>
      if Ascii.eqb ch "_" then
        let invalSep' :=
          match prev with prevDigit => invalSep | _ => true end in
        scan_loop s' b prevSep invalSep' octalPrefix count acc
      else
        let d1 := digitVal ch in
        if d1 >=? b then None
        else scan_loop s' b prevDigit invalSep octalPrefix (count + 1) (acc * b + d1)
  end.

(** [nat.scan(r, 0, false)] followed by the check that all input was used. *)
Definition nat_scan0 (s : gostring) : option Z :=
  match s with
  | [] => None
  | ch :: s1 =>
      if Ascii.eqb ch "0" then
        match s1 with
        | [] => Some 0
        | ch1 :: s2 =>
            if Ascii.eqb ch1 "b" || Ascii.eqb ch1 "B" then
              scan_loop s2 2 prevDigit false false 0 0
            else if Ascii.eqb ch1 "o" || Ascii.eqb ch1 "O" then
              scan_loop s2 8 prevDigit false false 0 0
            else if Ascii.eqb ch1 "x" || Ascii.eqb ch1 "X" then
              scan_loop s2 16 prevDigit false false 0 0
            else scan_loop s1 8 prevDigit false true 0 0
        end
      else scan_loop s 10 prevOther false false 0 0
  end.

(** [new(big.Int).SetString(s, 0)]: the value, or [None] for [ok == false]. *)
Definition big_SetString0 (s : gostring) : option Z :=
  match s with
  | [] => None
  | ch :: rest =>
      let neg := Ascii.eqb ch "-" in
      let body := if neg || Ascii.eqb ch "+" then rest else s in
      match nat_scan0 body with
      | Some v => Some (if neg then - v else v)
      | None => None
      end
  end.

(** Decimal digits of a mantissa or exponent: the value and the digit count. *)
Fixpoint digits_go (s : gostring) (acc n : Z) : Z * Z * gostring :=
  match s with
  | c :: s' =>
      if isDecDigit c then digits_go s' (acc * 10 + (chr c - chr "0")) (n + 1)
      else (acc, n, s)
  | [] => (acc, n, s)
  end.

(** The binary64 nearest to [m * 10 ^ e], ties to even.  For a negative [e]
    the quotient is taken with 80 bits to spare and made odd when inexact,
    which keeps the final rounding correct. *)
Definition round_decimal (neg : bool) (m e : Z) : float64 :=
  let sf :=
    if m =? 0 then SpecFloat.S754_zero neg
    else if 0 <=? e then
      SpecFloat.binary_normalize FloatOps.prec FloatOps.emax
        ((if neg then -1 else 1) * (m * 10 ^ e)) 0 neg
    else
      let d := 10 ^ (- e) in
      let k := Z.log2 d + 80 in
      let q := (m * 2 ^ k) / d in
      let r := (m * 2 ^ k) mod d in
      let q' := if r =? 0 then q else Z.lor q 1 in
      SpecFloat.binary_normalize FloatOps.prec FloatOps.emax
        ((if neg then -1 else 1) * q') (- k) neg in
  FloatOps.SF2Prim sf.

(** [strconv.ParseFloat(s, 64)] on decimal literals: an optional sign,
    digits with an optional point, an optional exponent.  Hexadecimal
    floats, underscores, infinities and NaNs, which Go also reads and the
    lexer never produces, are syntax errors here. *)
Definition ParseFloat (s : gostring) : res float64 :=
  let syntax := Err (NumError "ParseFloat" s errSyntax) in
  let '(neg, s1) :=
    match s with
    | c :: rest =>
        if Ascii.eqb c "-" then (true, rest)
        else if Ascii.eqb c "+" then (false, rest) else (false, s)
    | [] => (false, s)
    end in
  let '(ip, ni, s2) := digits_go s1 0 0 in
  let '(m, nf, s3) :=
    match s2 with
    | c :: rest => if Ascii.eqb c "." then digits_go rest ip 0 else (ip, 0, s2)
    | [] => (ip, 0, s2)
    end in
  if ni + nf =? 0 then syntax
  else
    let finish (ex : Z) : res float64 :=
      let f := round_decimal neg m (ex - nf) in
      if PrimFloat.is_infinity f then Err (NumError "ParseFloat" s errRange)
      else Ok f in
    match s3 with
    | [] => finish 0
    | c :: rest =>
        if Ascii.eqb c "e" || Ascii.eqb c "E" then
          let '(eneg, s4) :=
            match rest with
            | c' :: rest' =>
                if Ascii.eqb c' "-" then (true, rest')
                else if Ascii.eqb c' "+" then (false, rest') else (false, rest)
            | [] => (false, rest)
            end in
          let '(ev, ne, s5) := digits_go s4 0 0 in
          if ne =? 0 then syntax
          else match s5 with
               | [] => finish (if eneg then - ev else ev)
               | _ => syntax
               end
        else syntax
    end.

(** [MakeNumberFromLiteral] makes a numeric value from a string literal:
    a decimal integer, a hexadecimal integer, or a floating-point number. *)
Definition MakeNumberFromLiteral (s : gostring) : res Value :=
  match ParseInt s with
  | Ok i => Ok (MakeInt64 i)
  | _ =>
      match big_SetString0 s with
      | Some bi => Ok (intVal bi)
      | None =>
          match ParseFloat s with
          | Ok f => Ok (MakeFloat f)
          | Err e => Err e
          | Panic msg => Panic msg
          | OutOfFuel => OutOfFuel
          end
      end
  end.

End constant.

(* ================================================================== *)
(** * Package [template]: names and expressions *)

Module template.

Import constant.

(** The double quote, which a string literal of this file cannot hold. *)
Definition dquote : ascii := Eval compute in ascii_of_nat 34.

Definition unescape (s : gostring) : gostring :=
  if len s <? 2 then s
  else
    match s with
    | c :: rest =>
        if Ascii.eqb c dquote || Ascii.eqb c "`" || Ascii.eqb c "'" then
          let quote := c in
          strings.ReplaceAll (removelast rest) [quote; quote] [quote]
        else if Ascii.eqb c "[" then removelast rest
        else s
    | [] => s
    end.

(** [Name] represents a name parsed from a template: the original name
    (field [O]) and the normalized name (field [N]). *)
Record Name := { Name_O : gostring; Name_N : gostring }.

Definition NewName (name : gostring) : Name :=
  {| Name_O := name; Name_N := strings.ToLower (unescape name) |}.

Definition Name_String (n : Name) : gostring := Name_O n.

(** [QName] is a schema-qualified name with quotation marks still intact. *)
Record QName := { Parts : list Name }.

Definition NewQName (names : list gostring) : QName :=
  {| Parts := map NewName names |}.

Definition QName_String (q : QName) : gostring :=
  strings.Join (map Name_String (Parts q)) (str ".").

Definition UniqueName (q : QName) : gostring :=
  strings.Join
    (map (fun p => strings.ReplaceAll (Name_N p) (str ".") (str "%2E")) (Parts q))
    (str ".").

Definition Equal (q other : QName) : bool :=
  gostring_eqb (UniqueName q) (UniqueName other).

Definition QName_Name (q : QName) (qualified : bool) : outcome error gostring :=
  if qualified then Ok (QName_String q)
  else p <- at_ (Parts q) (len (Parts q) - 1) ;; Ok (Name_String p).

Definition SchemaName (q : QName) : gostring :=
  if len (Parts q) <=? 1 then []
  else strings.Join (map Name_String (removelast (Parts q))) (str ".").

Inductive Op :=
| OpInvalid | OpAssign | OpLT | OpLE | OpGT | OpGE | OpEQ | OpNE | OpConcat
| OpAdd | OpSub | OpMul | OpFloatDiv | OpBitAnd | OpBitOr | OpBitXor | OpBitNot
| OpSemicolon | OpOr | OpAnd | OpNot | OpIs | OpIsNot.

Scheme Equality for Op.

Definition Op_String (op : Op) : string :=
  match op with
  | OpAssign => ":=" | OpLT => "<" | OpLE => "<=" | OpGT => ">" | OpGE => ">="
  | OpEQ => "=" | OpNE => "<>" | OpConcat => "||" | OpAdd => "+" | OpSub => "-"
  | OpMul => "*" | OpFloatDiv => "/" | OpBitAnd => "&" | OpBitOr => "|"
  | OpBitXor => "^" | OpBitNot => "~" | OpSemicolon => ";" | OpOr => "OR"
  | OpAnd => "AND" | OpNot => "NOT" | OpIs => "IS" | OpIsNot => "IS NOT"
  | OpInvalid => "invalid<0>"
  end.

Definition Prec (op : Op) : Z :=
  match op with
  | OpSemicolon => 1
  | OpAssign => 2
  | OpOr => 3
  | OpAnd => 4
  | OpNot => 5
  | OpLT | OpLE | OpGT | OpGE | OpEQ | OpNE | OpIs | OpIsNot => 6
  | OpBitOr | OpBitXor => 7
  | OpBitAnd => 8
  | OpAdd | OpSub | OpConcat => 9
  | OpMul | OpFloatDiv => 10
  | OpBitNot => 11
  | _ => 0
  end.

Definition IsRightAssoc (op : Op) : bool :=
  match op with
  | OpAssign => true
  | _ => false
  end.

Definition IsBinary (op : Op) : bool :=
  match op with
  | OpAssign | OpLT | OpLE | OpGT | OpGE | OpEQ | OpNE | OpConcat | OpAdd | OpSub
  | OpMul | OpFloatDiv | OpBitAnd | OpBitOr | OpBitXor | OpSemicolon | OpOr
  | OpAnd | OpIs | OpIsNot => true
  | _ => false
  end.

(** [IntervalUnit] is a [time.Duration]: nanoseconds. *)
Definition Microsecond : Z := 1000.
Definition Millisecond : Z := 1000 * Microsecond.
Definition Second : Z := 1000 * Millisecond.
Definition Minute : Z := 60 * Second.
Definition Hour : Z := 60 * Minute.

Definition IntervalUnitWeek : Z := 7 * 24 * Hour.
Definition IntervalUnitDay : Z := 24 * Hour.
Definition IntervalUnitHour : Z := Hour.
Definition IntervalUnitMinute : Z := Minute.
Definition IntervalUnitSecond : Z := Second.
Definition IntervalUnitMillisecond : Z := Millisecond.
Definition IntervalUnitMicrosecond : Z := Microsecond.

(** [StringUnit]; [StringUnitUnset] is the zero value. *)
Inductive StringUnit := StringUnitUnset | StringUnitCharacters | StringUnitOctets.

(** The interface [Expr]: its seventeen node types and the nil interface. *)
Inductive Expr :=
| nilExpr
| RowNum
| SubRowNum
| CurrentTimestamp
| Constant (v : Value)
| GetVariable (Name : gostring)
| SetVariable (Name : gostring) (Value : Expr)
| UnaryExpr (op : Op) (e : Expr)
| BinaryExpr (op : Op) (Left Right : Expr)
| ParenExpr (e : Expr)
| FuncExpr (Name : QName) (Args : list Expr)
| CaseValueWhen (Value : Expr) (Whens : list (Expr * Expr)) (Else : Expr)
| Timestamp (WithTimezone : bool) (Value : Expr)
| Interval (Unit : Z) (Value : Expr)
| Array (Elems : list Expr)
| Subscript (Base Index : Expr)
| Substring (Input From For : Expr) (Unit : StringUnit)
| Overlay (Input Placing From For : Expr) (Unit : StringUnit).

(** A [When] is the pair of its [Cond] and its [Then]. *)
Definition When := (Expr * Expr)%type.

Record Column := { Column_Name : Name; Column_Expr : Expr }.

Record Table := {
  Table_Name : QName;
  Content : gostring;
  Columns : list Column;
  Derived : list (Z * Expr)
}.

Record Template := {
  GlobalExprs : list Expr;
  Tables : list Table
}.

(* ------------------------------------------------------------------ *)
(** ** The lexer *)

Inductive tokenType :=
| tokenError | tokenEOF | tokenChar | tokenComment
| tokenIdent | tokenString | tokenNumber
| tokenLeftDelim | tokenRightDelim
| tokenLeftParen | tokenRightParen | tokenLeftBrack | tokenRightBrack
| tokenLeftBrace | tokenRightBrace | tokenComma | tokenPeriod | tokenAt
| tokenAssign | tokenLT | tokenLE | tokenEQ | tokenNE | tokenGT | tokenGE
| tokenConcat | tokenAdd | tokenSub | tokenMul | tokenFloatDiv
| tokenBitAnd | tokenBitOr | tokenBitXor | tokenBitNot | tokenSemicolon
| tokenCreate | tokenTable | tokenOr | tokenAnd | tokenNot | tokenIs
| tokenRowNum | tokenSubRowNum | tokenNull | tokenTrue | tokenFalse
| tokenCase | tokenWhen | tokenThen | tokenElse | tokenEnd
| tokenTimestamp | tokenInterval | tokenWeek | tokenDay | tokenHour
| tokenMinute | tokenSecond | tokenMillisecond | tokenMicrosecond
| tokenWith | tokenTime | tokenZone | tokenSubstring | tokenFrom | tokenFor
| tokenUsing | tokenCharacters | tokenOctets | tokenOverlay | tokenPlacing
| tokenCurrentTimestamp | tokenArray | tokenEach | tokenRow | tokenOf
| tokenGenerate | tokenRows | tokenX.

Scheme Equality for tokenType.

Record token := { typ : tokenType; pos : Z; val : gostring; line : Z; col : Z }.

Definition token_Op (t : token) : Op :=
  match typ t with
  | tokenAssign => OpAssign
  | tokenLT => OpLT
  | tokenLE => OpLE
  | tokenEQ => OpEQ
  | tokenNE => OpNE
  | tokenGT => OpGT
  | tokenGE => OpGE
  | tokenConcat => OpConcat
  | tokenAdd => OpAdd
  | tokenSub => OpSub
  | tokenMul => OpMul
  | tokenFloatDiv => OpFloatDiv
  | tokenBitAnd => OpBitAnd
  | tokenBitOr => OpBitOr
  | tokenBitXor => OpBitXor
  | tokenBitNot => OpBitNot
  | tokenSemicolon => OpSemicolon
  | tokenOr => OpOr
  | tokenAnd => OpAnd
  | tokenNot => OpNot
  | tokenIs => OpIs
  | _ => OpInvalid
  end.

Definition keywords_table : list (string * tokenType) :=
  [ ("create", tokenCreate); ("table", tokenTable); ("or", tokenOr);
    ("and", tokenAnd); ("not", tokenNot); ("is", tokenIs);
    ("rownum", tokenRowNum); ("subrownum", tokenSubRowNum);
    ("null", tokenNull); ("true", tokenTrue); ("false", tokenFalse);
    ("case", tokenCase); ("when", tokenWhen); ("then", tokenThen);
    ("else", tokenElse); ("end", tokenEnd); ("timestamp", tokenTimestamp);
    ("interval", tokenInterval); ("week", tokenWeek); ("day", tokenDay);
    ("hour", tokenHour); ("minute", tokenMinute); ("second", tokenSecond);
    ("millisecond", tokenMillisecond); ("microsecond", tokenMicrosecond);
    ("with", tokenWith); ("time", tokenTime); ("zone", tokenZone);
    ("substring", tokenSubstring); ("from", tokenFrom); ("for", tokenFor);
    ("using", tokenUsing); ("characters", tokenCharacters);
    ("octets", tokenOctets); ("overlay", tokenOverlay);
    ("placing", tokenPlacing); ("current_timestamp", tokenCurrentTimestamp);
    ("array", tokenArray); ("each", tokenEach); ("row", tokenRow);
    ("of", tokenOf); ("generate", tokenGenerate); ("rows", tokenRows);
    ("x", tokenX) ]%string.

(** [keywords[s]]. *)
Definition keywords (s : gostring) : option tokenType :=
  match find (fun kv => gostring_eqb (str (fst kv)) s) keywords_table with
  | Some kv => Some (snd kv)
  | None => None
  end.

Definition isIdent (t : token) : bool :=
  match keywords (strings.ToLower (val t)) with
  | Some _ => true
  | None => tokenType_beq (typ t) tokenIdent
  end.

Definition specialChars_table : list (ascii * tokenType) :=
  [ ("(", tokenLeftParen); (")", tokenRightParen); ("[", tokenLeftBrack);
    ("]", tokenRightBrack); ("{", tokenLeftBrace); ("}", tokenRightBrace);
    (";", tokenSemicolon); (",", tokenComma); ("<", tokenLT); (">", tokenGT);
    ("=", tokenEQ); ("&", tokenBitAnd); ("|", tokenBitOr); ("^", tokenBitXor);
    ("~", tokenBitNot); ("+", tokenAdd); ("-", tokenSub); ("*", tokenMul);
    ("/", tokenFloatDiv); (".", tokenPeriod); ("@", tokenAt) ]%char.

(** [specialChars[ch]]. *)
Definition specialChars (ch : Z) : option tokenType :=
  match find (fun kv => chr (fst kv) =? ch) specialChars_table with
  | Some kv => Some (snd kv)
  | None => None
  end.

Definition eof : Z := -1.
Definition newline : Z := 10.
Definition squote : Z := chr "'".

Definition rightComment : gostring := str "*/".
Definition leftDelim : gostring := str "{{".
Definition rightDelim : gostring := str "}}".
Definition leftCommentedDelim : gostring := str "/*{{".
Definition rightCommentedDelim : gostring := str "}}*/".

Record lexer := {
  in_ : gostring;
  lpos : Z;
  lline : Z;
  linePos : Z;
  start : Z;
  startLine : Z;
  startCol : Z;
  insideBlock : bool
}.

Definition newLexer (input : gostring) : lexer :=
  {| in_ := input; lpos := 0; lline := 1; linePos := -1;
     start := 0; startLine := 1; startCol := 1; insideBlock := false |}.

Definition set_pos (l : lexer) (p : Z) : lexer :=
  {| in_ := in_ l; lpos := p; lline := lline l; linePos := linePos l;
     start := start l; startLine := startLine l; startCol := startCol l;
     insideBlock := insideBlock l |}.

Definition set_insideBlock (l : lexer) (b : bool) : lexer :=
  {| in_ := in_ l; lpos := lpos l; lline := lline l; linePos := linePos l;
     start := start l; startLine := startLine l; startCol := startCol l;
     insideBlock := b |}.

(** [l.line++; l.linePos = l.pos]. *)
Definition bump_line (l : lexer) : lexer :=
  {| in_ := in_ l; lpos := lpos l; lline := lline l + 1; linePos := lpos l;
     start := start l; startLine := startLine l; startCol := startCol l;
     insideBlock := insideBlock l |}.

(** [l.start = l.pos; l.startLine = l.line; l.startCol = l.pos - l.linePos]. *)
Definition mark_start (l : lexer) : lexer :=
  {| in_ := in_ l; lpos := lpos l; lline := lline l; linePos := linePos l;
     start := lpos l; startLine := lline l; startCol := lpos l - linePos l;
     insideBlock := insideBlock l |}.

Definition peekN (l : lexer) (n : Z) : Z :=
  if lpos l + n >=? len (in_ l) then eof
  else match nth_error (in_ l) (Z.to_nat (lpos l + n)) with
       | Some c => chr c
       | None => eof
       end.

Definition peek (l : lexer) : Z := peekN l 0.

Definition next (l : lexer) : Z * lexer :=
  let ch := peek l in
  let l1 := if ch =? newline then bump_line l else l in
  let l2 := if lpos l1 <? len (in_ l1) then set_pos l1 (lpos l1 + 1) else l1 in
  (ch, l2).

Definition advance (n : Z) (l : lexer) : lexer :=
  Nat.iter (Z.to_nat n) (fun l' => snd (next l')) l.

Definition isSpace (ch : Z) : bool :=
  (ch =? chr " ") || (ch =? 9) || (ch =? 11) || (ch =? 12).

Definition isWhitespace (ch : Z) : bool :=
  (ch =? chr " ") || (ch =? 9) || (ch =? 13) || (ch =? 10) || (ch =? 11) || (ch =? 12).

Definition isDigit (ch : Z) : bool := (ch >=? chr "0") && (ch <=? chr "9").

Definition isHexDigit (ch : Z) : bool :=
  ((ch >=? chr "0") && (ch <=? chr "9"))
  || ((ch >=? chr "a") && (ch <=? chr "f"))
  || ((ch >=? chr "A") && (ch <=? chr "F")).

Definition isIdentStart (ch : Z) : bool :=
  ((ch >=? chr "A") && (ch <=? chr "Z"))
  || ((ch >=? chr "a") && (ch <=? chr "z"))
  || (ch =? chr "_")
  || ((ch >=? 128) && (ch <=? 255)).

Definition isIdentMiddle (ch : Z) : bool :=
  isIdentStart ch || ((ch >=? chr "0") && (ch <=? chr "9")).

(** The loops of the lexer consume one byte per iteration and stop at the end
    of the input, so the length of the input bounds them. *)
Definition bound (l : lexer) : nat := S (List.length (in_ l)).

Fixpoint accept_loop (fuel : nat) (pred : Z -> bool) (l : lexer) : lexer :=
  match fuel with
  | O => l
  | S f => if pred (peek l) then accept_loop f pred (snd (next l)) else l
  end.

Definition accept (pred : Z -> bool) (l : lexer) : lexer :=
  accept_loop (bound l) pred l.

Definition skipWhitespace (l : lexer) : lexer := accept isWhitespace l.

Section Lexing.

Context {E : Type}.

Definition emit (t : tokenType) (l : lexer) : outcome E (token * lexer) :=
  v <- slice (in_ l) (start l) (lpos l) ;;
  Ok ({| typ := t; pos := start l; val := v;
         line := startLine l; col := startCol l |},
      mark_start l).

(** [errorf] returns an error token and resets the lexer, so that it
    returns EOF the next time it is called. *)
Definition errorf (msg : string) (l : lexer) : outcome E (token * lexer) :=
  Ok ({| typ := tokenError; pos := start l; val := str msg;
         line := startLine l; col := startCol l |},
      newLexer []).

Definition lexChar (l : lexer) : outcome E (token * lexer) :=
  let '(ch, l1) := next l in
  match specialChars ch with
  | Some t => emit t l1
  | None => emit tokenChar l1
  end.

Definition lexTwoChars (t : tokenType) (l : lexer) : outcome E (token * lexer) :=
  emit t (advance 2 l).

(** [lexLeftDelim] scans a left delimiter, either [{{] or [/*{{]. *)
Definition lexLeftDelim (l : lexer) : outcome E (token * lexer) :=
  if peek l =? chr "/"
  then emit tokenLeftDelim
         (set_insideBlock (set_pos l (lpos l + len leftCommentedDelim)) true)
  else emit tokenLeftDelim (set_pos l (lpos l + len leftDelim)).

(** [lexRightDelim] scans a right delimiter: [}}*/] inside a commented
    block, [}}] otherwise. *)
Definition lexRightDelim (l : lexer) : outcome E (token * lexer) :=
  if insideBlock l
  then let l1 := set_insideBlock l false in
       emit tokenRightDelim (set_pos l1 (lpos l1 + len rightCommentedDelim))
  else emit tokenRightDelim (set_pos l (lpos l + len rightDelim)).

Fixpoint lineComment_loop (fuel : nat) (l : lexer) : outcome E (token * lexer) :=
  match fuel with
  | O => OutOfFuel
  | S f =>
      let '(ch, l1) := next l in
      if (ch =? eof) || (ch =? newline) then emit tokenComment l1
      else lineComment_loop f l1
  end.

(** [lexComment] scans a comment; the marker [--] or [/*] is known to be
    present. *)
Definition lexComment (l : lexer) : outcome E (token * lexer) :=
  if peek l =? chr "-" then
    lineComment_loop (bound l) (advance 2 l)
  else if peek l =? chr "/" then
    rest <- slice (in_ l) (lpos l) (len (in_ l)) ;;
    let rightCommentIdx := strings.Index rest rightComment in
    if rightCommentIdx =? -1 then errorf "unclosed comment" l
    else
      let leftAtDelim := strings.HasPrefix rest leftCommentedDelim in
      let rightDelimIdx := strings.Index rest rightCommentedDelim in
      if leftAtDelim && negb (rightDelimIdx =? -1)
         && (rightDelimIdx + 2 =? rightCommentIdx)
      then lexLeftDelim l
      else
        let commentLen := lpos l + rightCommentIdx + len rightComment - lpos l in
        emit tokenComment (advance commentLen l)
  else Panic "unreachable".

Fixpoint lexQuote_loop (fuel : nat) (ch0 : Z) (l : lexer) : outcome E (token * lexer) :=
  match fuel with
  | O => OutOfFuel
  | S f =>
      let '(ch, l1) := next l in
      if ch =? eof then errorf "unterminated quoted string" l1
      else if ch =? ch0 then
        if peek l1 =? ch0 then lexQuote_loop f ch0 (snd (next l1))
        else if (ch0 =? chr "`") || (ch0 =? chr dquote) then emit tokenIdent l1
        else if ch0 =? squote then emit tokenString l1
        else lexQuote_loop f ch0 l1
      else lexQuote_loop f ch0 l1
  end.

(** [lexQuote] scans a quoted string; the opening quote is known to be
    present. *)
Definition lexQuote (l : lexer) : outcome E (token * lexer) :=
  let '(ch0, l1) := next l in
  lexQuote_loop (bound l) ch0 l1.

(** [lexIdent] scans an unquoted identifier. *)
Definition lexIdent (l : lexer) : outcome E (token * lexer) :=
  let l1 := accept isIdentMiddle (snd (next l)) in
  word <- slice (in_ l1) (start l1) (lpos l1) ;;
  match keywords (strings.ToLower word) with
  | Some t => emit t l1
  | None => emit tokenIdent l1
  end.

Fixpoint digits_loop (fuel : nat) (l : lexer) : lexer :=
  match fuel with
  | O => l
  | S f => if isDigit (peek l) then digits_loop f (set_pos l (lpos l + 1)) else l
  end.

Definition lexNumber (l : lexer) : outcome E (token * lexer) :=
  let ch0 := peek l in
  let ch1 := peekN l 1 in
  if (ch0 =? chr "0") && ((ch1 =? chr "x") || (ch1 =? chr "X")) && isHexDigit (peekN l 2)
  then emit tokenNumber (accept isHexDigit (set_pos l (lpos l + 3)))
  else
    let l1 := digits_loop (bound l) l in
    let l2 := if peek l1 =? chr "."
              then accept isDigit (set_pos l1 (lpos l1 + 1)) else l1 in
    let ch0 := peek l2 in
    let ch1 := peekN l2 1 in
    let ch2 := peekN l2 2 in
    let l3 :=
      if (ch0 =? chr "e") || (ch0 =? chr "E") then
        let l' :=
          if isDigit ch1 then set_pos l2 (lpos l2 + 2)
          else if ((ch1 =? chr "+") || (ch1 =? chr "-")) && isDigit ch2
               then set_pos l2 (lpos l2 + 3)
               else l2 in
        accept isDigit l'
      else l2 in
    emit tokenNumber l3.

Definition lex (l0 : lexer) : outcome E (token * lexer) :=
  let l := mark_start (skipWhitespace l0) in
  let ch := peek l in
  if ch =? eof then emit tokenEOF l
  else if ch =? chr "-" then
    if peekN l 1 =? chr "-" then lexComment l else lexChar l
  else if ch =? chr "/" then
    if insideBlock l || negb (peekN l 1 =? chr "*") then lexChar l
    else lexComment l
  else if (ch =? chr "`") || (ch =? chr dquote) || (ch =? squote) then lexQuote l
  else if ch =? chr "{" then
    if peekN l 1 =? chr "{" then lexLeftDelim l else lexChar l
  else if ch =? chr "}" then
    if peekN l 1 =? chr "}" then lexRightDelim l else lexChar l
  else if ch =? chr "|" then
    if peekN l 1 =? chr "|" then lexTwoChars tokenConcat l else lexChar l
  else if ch =? chr "<" then
    if peekN l 1 =? chr "=" then lexTwoChars tokenLE l
    else if peekN l 1 =? chr ">" then lexTwoChars tokenNE l
    else lexChar l
  else if ch =? chr ">" then
    if peekN l 1 =? chr "=" then lexTwoChars tokenGE l else lexChar l
  else if ch =? chr "." then
    if isDigit (peekN l 1) then lexNumber l else lexChar l
  else if ch =? chr ":" then
    if peekN l 1 =? chr "=" then lexTwoChars tokenAssign l else lexChar l
  else if isDigit ch then lexNumber l
  else if isIdentStart ch then lexIdent l
  else lexChar l.

(** All tokens of an input, up to and including the first [EOF] or [Error]
    token: what the lexer test collects. *)
Fixpoint lexAll (fuel : nat) (l : lexer) : outcome E (list token) :=
  match fuel with
  | O => OutOfFuel
  | S f =>
      '(tok, l1) <- lex l ;;
      match typ tok with
      | tokenEOF | tokenError => Ok [tok]
      | _ => rest <- lexAll f l1 ;; Ok (tok :: rest)
      end
  end.

End Lexing.

(* ------------------------------------------------------------------ *)
(** ** The parser *)

(** What a syntax error says.  The Go code formats a message; the model keeps
    the format and its arguments. *)
Inductive expected :=
| expectedToken (t : tokenType)
| expectedText (what : string).

Inductive cause :=
| causeLexer (msg : gostring)
| causeExpected (what : expected) (found : token)
| causeUnexpected (found : token)
| causeUnbalanced
| causeDerivedMismatch (child : gostring) (table : gostring)
| causeNoParent (parent : gostring).

Record SyntaxError := {
  ErrLine : Z;
  ErrColumn : Z;
  ErrNear : gostring;
  ErrCause : cause
}.

Inductive perror :=
| SyntaxErr (e : SyntaxError)
| ValueErr (e : constant.error).

Definition pres (A : Type) := outcome perror A.

Definition zeroToken : token :=
  {| typ := tokenError; pos := 0; val := []; line := 0; col := 0 |}.

Record Parser := {
  lex_ : lexer;
  input : gostring;
  tok : token;
  tok1 : token
}.

Definition maxNearContentLength : Z := 10.

Definition perrorf {A} (c : cause) (p : Parser) : pres A :=
  near <- slice (input p) (pos (tok p)) (len (input p)) ;;
  let near := if len near >? maxNearContentLength
              then firstn (Z.to_nat maxNearContentLength) near else near in
  Err (SyntaxErr
         {| ErrLine := line (tok p); ErrColumn := col (tok p); ErrNear := near;
            ErrCause := if tokenType_beq (typ (tok p)) tokenError
                     then causeLexer (val (tok p)) else c |}).

Definition errorExpected {A} (what : expected) (p : Parser) : pres A :=
  perrorf (causeExpected what (tok p)) p.

Definition errorUnexpected {A} (p : Parser) : pres A :=
  perrorf (causeUnexpected (tok p)) p.

Fixpoint skipComments (fuel : nat) (t : token) (l : lexer) : pres (token * lexer) :=
  if tokenType_beq (typ t) tokenComment then
    match fuel with
    | 0%nat => OutOfFuel
    | S f => '(t', l') <- lex l ;; skipComments f t' l'
    end
  else Ok (t, l).

(** [p.next()]: comments are skipped. *)
Definition pnext (p : Parser) : pres Parser :=
  '(t, l) <- lex (lex_ p) ;;
  '(t, l) <- skipComments (bound (lex_ p)) t l ;;
  Ok {| lex_ := l; input := input p; tok := tok1 p; tok1 := t |}.

Definition init (input : gostring) : pres Parser :=
  p <- pnext {| lex_ := newLexer input; input := input;
                tok := zeroToken; tok1 := zeroToken |} ;;
  pnext p.

Definition expect (t : tokenType) (p : Parser) : pres Parser :=
  if negb (tokenType_beq (typ (tok p)) t) then errorExpected (expectedToken t) p
  else pnext p.

Definition parseQName (p : Parser) : pres (QName * Parser) :=
  let names := [val (tok p)] in
  if negb (isIdent (tok p)) then errorExpected (expectedText "identifier") p
  else
    p <- pnext p ;;
    (fix loop (i : nat) (names : list gostring) (p : Parser) : pres (QName * Parser) :=
       match i with
       | 0%nat => Ok (NewQName names, p)
       | S i' =>
           if negb (tokenType_beq (typ (tok p)) tokenPeriod) then Ok (NewQName names, p)
           else
             p <- pnext p ;;
             if negb (isIdent (tok p)) then errorExpected (expectedText "identifier") p
             else
               let names := names ++ [val (tok p)] in
               p <- pnext p ;;
               loop i' names p
       end) 2%nat names p.

(** [parseOp]: the operator at the current token, and whether [IS NOT] was
    recognized, in which case the returned [next] skips two tokens. *)
Definition parseOp (p : Parser) : Op * bool :=
  let op := token_Op (tok p) in
  if Op_beq op OpIs && Op_beq (token_Op (tok1 p)) OpNot
  then (OpIsNot, true) else (op, false).

Definition opNext (two : bool) (p : Parser) : pres Parser :=
  if two then p <- pnext p ;; pnext p else pnext p.

Definition isGetVariable (e : Expr) : option gostring :=
  match e with
  | GetVariable name => Some name
  | _ => None
  end.

Definition parseStringUnit (p : Parser) : pres (StringUnit * Parser) :=
  if tokenType_beq (typ (tok p)) tokenUsing then
    p <- pnext p ;;
    match typ (tok p) with
    | tokenOctets => p <- pnext p ;; Ok (StringUnitOctets, p)
    | tokenCharacters => p <- pnext p ;; Ok (StringUnitCharacters, p)
    | _ => errorExpected (expectedText "OCTETS or CHARACTERS") p
    end
  else Ok (StringUnitUnset, p).

(** The expression parser.  [fuel] bounds the depth of the recursion and the
    number of iterations of each loop. *)
Fixpoint parseStmt (fuel : nat) (p : Parser) {struct fuel} : pres (Expr * Parser) :=
  match fuel with
  | 0%nat => OutOfFuel
  | S f =>
      '(expr, p) <- parseExpr f p ;;
      parseStmt_loop f expr p
  end
with parseStmt_loop (fuel : nat) (expr : Expr) (p : Parser) {struct fuel}
    : pres (Expr * Parser) :=
  match fuel with
  | 0%nat => OutOfFuel
  | S f =>
      if negb (tokenType_beq (typ (tok p)) tokenSemicolon) then Ok (expr, p)
      else
        p <- pnext p ;;
        '(nextExpr, p) <- parseExpr f p ;;
        parseStmt_loop f (BinaryExpr OpSemicolon expr nextExpr) p
  end
with parseExpr (fuel : nat) (p : Parser) {struct fuel} : pres (Expr * Parser) :=
  match fuel with
  | 0%nat => OutOfFuel
  | S f => parseBinaryExpr f (Prec OpSemicolon) p
  end
with parseBinaryExpr (fuel : nat) (prec : Z) (p : Parser) {struct fuel}
    : pres (Expr * Parser) :=
  match fuel with
  | 0%nat => OutOfFuel
  | S f =>
      '(lhs, p) <- parseUnaryExpr f p ;;
      parseBinaryExpr_loop f prec lhs p
  end
with parseBinaryExpr_loop (fuel : nat) (prec : Z) (lhs : Expr) (p : Parser)
    {struct fuel} : pres (Expr * Parser) :=
  match fuel with
  | 0%nat => OutOfFuel
  | S f =>
      let '(op, two) := parseOp p in
      if IsBinary op
         && ((Prec op >? prec) || ((Prec op =? prec) && IsRightAssoc op))
      then
        p <- opNext two p ;;
        '(rhs, p) <- parseBinaryExpr f (Prec op) p ;;
        let lhs :=
          match isGetVariable lhs with
          | Some name =>
              if Op_beq op OpAssign then SetVariable name rhs
              else BinaryExpr op lhs rhs
          | None => BinaryExpr op lhs rhs
          end in
        parseBinaryExpr_loop f prec lhs p
      else Ok (lhs, p)
  end
with parseUnaryExpr (fuel : nat) (p : Parser) {struct fuel} : pres (Expr * Parser) :=
  match fuel with
  | 0%nat => OutOfFuel
  | S f =>
      let op := token_Op (tok p) in
      match op with
      | OpNot =>
          p <- pnext p ;;
          '(expr, p) <- parseBinaryExpr f (Prec op) p ;;
          Ok (UnaryExpr op expr, p)
      | OpAdd | OpSub | OpBitNot =>
          p <- pnext p ;;
          '(expr, p) <- parsePrimaryExpr f p ;;
          Ok (UnaryExpr op expr, p)
      | _ =>
          '(expr, p) <- parsePrimaryExpr f p ;;
          if negb (tokenType_beq (typ (tok p)) tokenLeftBrack) then Ok (expr, p)
          else
            p <- pnext p ;;
            '(index, p) <- parseExpr f p ;;
            p <- expect tokenRightBrack p ;;
            Ok (Subscript expr index, p)
      end
  end
with parsePrimaryExpr (fuel : nat) (p : Parser) {struct fuel} : pres (Expr * Parser) :=
  match fuel with
  | 0%nat => OutOfFuel
  | S f =>
      match typ (tok p) with
      | tokenRowNum => p <- pnext p ;; Ok (RowNum, p)
      | tokenSubRowNum => p <- pnext p ;; Ok (SubRowNum, p)
      | tokenNull => p <- pnext p ;; Ok (Constant Null, p)
      | tokenTrue => p <- pnext p ;; Ok (Constant (MakeBool true), p)
      | tokenFalse => p <- pnext p ;; Ok (Constant (MakeBool false), p)
      | tokenCurrentTimestamp => p <- pnext p ;; Ok (CurrentTimestamp, p)
      | tokenLeftParen =>
          p <- pnext p ;;
          '(expr, p) <- parseExpr f p ;;
          p <- expect tokenRightParen p ;;
          Ok (ParenExpr expr, p)
      | tokenString =>
          let expr := Constant (MakeBytes (unescape (val (tok p)))) in
          p <- pnext p ;; Ok (expr, p)
      | tokenNumber =>
          match MakeNumberFromLiteral (val (tok p)) with
          | Ok v => p <- pnext p ;; Ok (Constant v, p)
          | Err e => Err (ValueErr e)
          | Panic msg => Panic msg
          | OutOfFuel => OutOfFuel
          end
      | tokenCase => parseCaseValueWhen f p
      | tokenTimestamp =>
          p <- pnext p ;;
          '(withTz, p) <-
            (if tokenType_beq (typ (tok p)) tokenWith then
               p <- pnext p ;;
               p <- expect tokenTime p ;;
               p <- expect tokenZone p ;;
               Ok (true, p)
             else Ok (false, p)) ;;
          '(expr, p) <- parsePrimaryExpr f p ;;
          Ok (Timestamp withTz expr, p)
      | tokenInterval =>
          p <- pnext p ;;
          '(expr, p) <- parseExpr f p ;;
          match typ (tok p) with
          | tokenWeek => Ok (Interval IntervalUnitWeek expr, p)
          | tokenDay => Ok (Interval IntervalUnitDay expr, p)
          | tokenHour => Ok (Interval IntervalUnitHour expr, p)
          | tokenMinute => Ok (Interval IntervalUnitMinute expr, p)
          | tokenSecond => Ok (Interval IntervalUnitSecond expr, p)
          | tokenMillisecond => Ok (Interval IntervalUnitMillisecond expr, p)
          | tokenMicrosecond => Ok (Interval IntervalUnitMicrosecond expr, p)
          | _ => errorExpected (expectedText "interval unit") p
          end
      | tokenX =>
          p <- pnext p ;;
          '(expr, p) <- parsePrimaryExpr f p ;;
          Ok (FuncExpr (NewQName [str "hex"; str "decode"]) [expr], p)
      | tokenAt =>
          p <- pnext p ;;
          if negb (isIdent (tok p)) then errorExpected (expectedText "identifier") p
          else
            let name := unescape (val (tok p)) in
            p <- pnext p ;;
            Ok (GetVariable (unescape name), p)
      | tokenArray =>
          p <- pnext p ;;
          p <- expect tokenLeftBrack p ;;
          parseList_loop f tokenRightBrack [] p (fun elems => Array elems)
      | tokenSubstring => parseSubstring f p
      | tokenOverlay => parseOverlay f p
      | _ =>
          '(name, p) <- parseQName p ;;
          p <- expect tokenLeftParen p ;;
          parseList_loop f tokenRightParen [] p (fun args => FuncExpr name args)
      end
  end
with parseList_loop (fuel : nat) (close : tokenType) (elems : list Expr)
    (p : Parser) (build : list Expr -> Expr) {struct fuel} : pres (Expr * Parser) :=
  match fuel with
  | 0%nat => OutOfFuel
  | S f =>
      if tokenType_beq (typ (tok p)) close then
        p <- pnext p ;; Ok (build elems, p)
      else
        p <- (if len elems >? 0 then expect tokenComma p else Ok p) ;;
        '(expr, p) <- parseExpr f p ;;
        parseList_loop f close (elems ++ [expr]) p build
  end
with parseCaseValueWhen (fuel : nat) (p : Parser) {struct fuel} : pres (Expr * Parser) :=
  match fuel with
  | 0%nat => OutOfFuel
  | S f =>
      p <- expect tokenCase p ;;
      parseCase_loop f false nilExpr [] p
  end
with parseCase_loop (fuel : nat) (sawValueOrWhen : bool) (value : Expr)
    (whens : list When) (p : Parser) {struct fuel} : pres (Expr * Parser) :=
  match fuel with
  | 0%nat => OutOfFuel
  | S f =>
      match typ (tok p) with
      | tokenWhen =>
          p <- pnext p ;;
          '(cond, p) <- parseExpr f p ;;
          p <- expect tokenThen p ;;
          '(then_, p) <- parseStmt f p ;;
          parseCase_loop f true value (whens ++ [(cond, then_)]) p
      | tokenElse =>
          p <- pnext p ;;
          '(else_, p) <- parseStmt f p ;;
          p <- expect tokenEnd p ;;
          Ok (CaseValueWhen value whens else_, p)
      | tokenEnd =>
          p <- pnext p ;;
          Ok (CaseValueWhen value whens nilExpr, p)
      | _ =>
          if sawValueOrWhen
          then errorExpected (expectedText "WHEN, ELSE or END") p
          else
            '(value, p) <- parseExpr f p ;;
            parseCase_loop f true value whens p
      end
  end
with parseSubstring (fuel : nat) (p : Parser) {struct fuel} : pres (Expr * Parser) :=
  match fuel with
  | 0%nat => OutOfFuel
  | S f =>
      p <- expect tokenSubstring p ;;
      p <- expect tokenLeftParen p ;;
      '(input, p) <- parseExpr f p ;;
      '(from, p) <-
        (if tokenType_beq (typ (tok p)) tokenFrom
         then p <- pnext p ;; parseExpr f p else Ok (nilExpr, p)) ;;
      '(for_, p) <-
        (if tokenType_beq (typ (tok p)) tokenFor
         then p <- pnext p ;; parseExpr f p else Ok (nilExpr, p)) ;;
      '(unit, p) <- parseStringUnit p ;;
      p <- expect tokenRightParen p ;;
      Ok (Substring input from for_ unit, p)
  end
with parseOverlay (fuel : nat) (p : Parser) {struct fuel} : pres (Expr * Parser) :=
  match fuel with
  | 0%nat => OutOfFuel
  | S f =>
      p <- expect tokenOverlay p ;;
      p <- expect tokenLeftParen p ;;
      '(input, p) <- parseExpr f p ;;
      p <- expect tokenPlacing p ;;
      '(placing, p) <- parseExpr f p ;;
      p <- expect tokenFrom p ;;
      '(from, p) <- parseExpr f p ;;
      '(for_, p) <-
        (if tokenType_beq (typ (tok p)) tokenFor
         then p <- pnext p ;; parseExpr f p else Ok (nilExpr, p)) ;;
      '(unit, p) <- parseStringUnit p ;;
      p <- expect tokenRightParen p ;;
      Ok (Overlay input placing from for_ unit, p)
  end.

(** [ParseExpr] with the bound [fuel] on the parser's recursion. *)
Definition ParseExpr (fuel : nat) (input : gostring) : pres Expr :=
  p <- init input ;;
  '(e, _) <- parseExpr fuel p ;;
  Ok e.

(** [parseStmtBlock]: the statement of a block and the byte span of the
    block, delimiters included. *)
Definition parseStmtBlock (fuel : nat) (p : Parser) : pres (Expr * Z * Z * Parser) :=
  let start := pos (tok p) in
  let lDelim := val (tok p) in
  p <- expect tokenLeftDelim p ;;
  '(stmt, p) <- parseStmt fuel p ;;
  let rDelim := val (tok p) in
  if gostring_eqb lDelim leftDelim && negb (gostring_eqb rDelim rightDelim)
  then errorExpected (expectedText "}}") p
  else if gostring_eqb lDelim leftCommentedDelim
          && negb (gostring_eqb rDelim rightCommentedDelim)
  then errorExpected (expectedText "}}*/") p
  else
    let end_ := pos (tok p) + len (val (tok p)) in
    p <- expect tokenRightDelim p ;;
    Ok (stmt, start, end_, p).

Fixpoint parseStmtBlockList_loop (fuel : nat) (list_ : list Expr) (p : Parser)
    : pres (list Expr * Parser) :=
  match fuel with
  | 0%nat => OutOfFuel
  | S f =>
      if tokenType_beq (typ (tok p)) tokenLeftDelim then
        '(stmt, _, _, p) <- parseStmtBlock f p ;;
        parseStmtBlockList_loop f (list_ ++ [stmt]) p
      else Ok (list_, p)
  end.

Definition parseStmtBlockList (fuel : nat) (p : Parser) : pres (list Expr * Parser) :=
  parseStmtBlockList_loop fuel [] p.

(** [skipBalancedText] skips text enclosed by [()], [[]] or [{}]; nested
    balanced text is allowed. *)
Fixpoint skipBalancedText (fuel : nat) (closeTok : tokenType) (p : Parser)
    {struct fuel} : pres Parser :=
  match fuel with
  | 0%nat => OutOfFuel
  | S f => p <- pnext p ;; skipBalancedText_loop f closeTok p
  end
with skipBalancedText_loop (fuel : nat) (closeTok : tokenType) (p : Parser)
    {struct fuel} : pres Parser :=
  match fuel with
  | 0%nat => OutOfFuel
  | S f =>
      match typ (tok p) with
      | tokenEOF => perrorf causeUnbalanced p
      | tokenRightParen | tokenRightBrack | tokenRightBrace =>
          if negb (tokenType_beq (typ (tok p)) closeTok) then perrorf causeUnbalanced p
          else pnext p
      | tokenLeftParen =>
          p <- skipBalancedText f tokenRightParen p ;; skipBalancedText_loop f closeTok p
      | tokenLeftBrack =>
          p <- skipBalancedText f tokenRightBrack p ;; skipBalancedText_loop f closeTok p
      | tokenLeftBrace =>
          p <- skipBalancedText f tokenRightBrace p ;; skipBalancedText_loop f closeTok p
      | tokenError => errorUnexpected p
      | _ => p <- pnext p ;; skipBalancedText_loop f closeTok p
      end
  end.

Definition skipAnyBalancedText (fuel : nat) (p : Parser) : pres Parser :=
  match typ (tok p) with
  | tokenLeftParen => skipBalancedText fuel tokenRightParen p
  | tokenLeftBrack => skipBalancedText fuel tokenRightBrack p
  | tokenLeftBrace => skipBalancedText fuel tokenRightBrace p
  | _ => Ok p
  end.

(** [for i := lo; i < hi; i++ { if !pred(int(input[i])) { ok = false; break } }]:
    whether every byte of [input[lo:hi]] satisfies [pred]. *)
Fixpoint allBytes {E} (n : nat) (pred : Z -> bool) (input : gostring) (i : Z)
    : outcome E bool :=
  match n with
  | 0%nat => Ok true
  | S n' =>
      c <- at_ input i ;;
      if negb (pred (chr c)) then Ok false
      else allBytes n' pred input (i + 1)
  end.

Definition allBetween {E} (pred : Z -> bool) (input : gostring) (lo hi : Z)
    : outcome E bool :=
  allBytes (Z.to_nat (hi - lo)) pred input lo.

(** The loop of [mergeBlockSpans]; [merged] is kept with its last span
    apart. *)
Fixpoint mergeBlockSpans_loop {E} (input : gostring) (merged : list (Z * Z))
    (last : Z * Z) (spans : list (Z * Z)) : outcome E (list (Z * Z)) :=
  match spans with
  | [] => Ok (merged ++ [last])
  | span :: rest =>
      let prevEnd := snd last in
      let curStart := fst span in
      adjacent <- allBetween isWhitespace input prevEnd curStart ;;
      if adjacent then mergeBlockSpans_loop input merged (fst last, snd span) rest
      else mergeBlockSpans_loop input (merged ++ [last]) span rest
  end.

(** [mergeBlockSpans] merges adjacent block spans: two spans are adjacent if
    only whitespace separates them. *)
Definition mergeBlockSpans {E} (input : gostring) (blockSpans : list (Z * Z))
    : outcome E (list (Z * Z)) :=
  match blockSpans with
  | [] => Ok blockSpans
  | first :: rest => mergeBlockSpans_loop input [] first rest
  end.

Definition nl : ascii := Eval compute in ascii_of_nat 10.

Fixpoint extractTableContent_loop {E} (input : gostring) (buf : gostring)
    (start end_ : Z) (spans : list (Z * Z)) : outcome E gostring :=
  match spans with
  | [] =>
      tail <- slice input start end_ ;;
      Ok (buf ++ tail)
  | (l, r) :: rest =>
      before <- slice input start l ;;
      after <- slice input r end_ ;;
      let leftNewline := strings.LastIndexByte before nl in
      let rightNewLine := strings.IndexByte after nl in
      '(isEmptyLine, leftNewline, rightNewLine) <-
        (if negb (leftNewline =? -1) && negb (rightNewLine =? -1) then
           let leftNewline := start + leftNewline in
           let rightNewLine := r + rightNewLine in
           e1 <- allBetween isSpace input (leftNewline + 1) l ;;
           e2 <- (if e1 then allBetween isSpace input r rightNewLine else Ok false) ;;
           Ok (e2, leftNewline, rightNewLine)
         else Ok (false, leftNewline, rightNewLine)) ;;
      '(l, r, replace) <-
        (if isEmptyLine then Ok (leftNewline, rightNewLine + 1, nl)
         else
           l' <- (if l >? start
                  then c <- at_ input (l - 1) ;;
                       Ok (if isSpace (chr c) then l - 1 else l)
                  else Ok l) ;;
           r' <- (if r <? end_
                  then c <- at_ input r ;;
                       Ok (if isSpace (chr c) then r + 1 else r)
                  else Ok r) ;;
           Ok (l', r', " "%char)) ;;
      piece <- slice input start l ;;
      extractTableContent_loop input (buf ++ piece ++ [replace]) r end_ rest
  end.

(** [extractTableContent] extracts the table definition from the input,
    removing the [{{}}] and [/*{{}}*/] blocks. *)
Definition extractTableContent {E} (input : gostring) (start end_ : Z)
    (blockSpans : list (Z * Z)) : outcome E gostring :=
  spans <- mergeBlockSpans input blockSpans ;;
  extractTableContent_loop input [] start end_ spans.

Fixpoint elemLoop (fuel : nat) (colName : gostring) (columns : list Column)
    (blockSpans : list (Z * Z)) (p : Parser)
    : pres (list Column * list (Z * Z) * Parser) :=
  match fuel with
  | 0%nat => OutOfFuel
  | S f =>
      match typ (tok p) with
      | tokenIdent =>
          let colName := if gostring_eqb colName [] then val (tok p) else colName in
          p <- pnext p ;;
          elemLoop f colName columns blockSpans p
      | tokenLeftDelim =>
          '(stmt, blockStart, blockEnd, p) <- parseStmtBlock f p ;;
          elemLoop f []
            (columns ++ [{| Column_Name := NewName colName; Column_Expr := stmt |}])
            (blockSpans ++ [(blockStart, blockEnd)]) p
      | tokenRightParen => Ok (columns, blockSpans, p)
      | tokenRightBrack | tokenRightBrace | tokenRightDelim => errorUnexpected p
      | tokenLeftParen | tokenLeftBrack | tokenLeftBrace =>
          p <- skipAnyBalancedText f p ;;
          elemLoop f colName columns blockSpans p
      | tokenError | tokenEOF => errorUnexpected p
      | _ =>
          let colName :=
            if isIdent (tok p)
            then (if gostring_eqb colName [] then val (tok p) else colName)
            else colName in
          p <- pnext p ;;
          elemLoop f colName columns blockSpans p
      end
  end.

(** The table options up to the end of the statement; returns [tableEnd]. *)
Fixpoint optLoop (fuel : nat) (p : Parser) : pres (Z * Parser) :=
  match fuel with
  | 0%nat => OutOfFuel
  | S f =>
      match typ (tok p) with
      | tokenLeftParen | tokenLeftBrack | tokenLeftBrace =>
          p <- skipAnyBalancedText f p ;; optLoop f p
      | tokenSemicolon =>
          let tableEnd := pos (tok p) + len (val (tok p)) in
          p <- pnext p ;; Ok (tableEnd, p)
      | tokenEOF => Ok (pos (tok p), p)
      | tokenError => errorUnexpected p
      | _ => p <- pnext p ;; optLoop f p
      end
  end.

Definition parseSingleTable (fuel : nat) (p : Parser) : pres (Table * Parser) :=
  let tableStart := pos (tok p) in
  p <- expect tokenCreate p ;;
  p <- expect tokenTable p ;;
  '(qname, p) <- parseQName p ;;
  p <- expect tokenLeftParen p ;;
  '(columns, blockSpans, p) <- elemLoop fuel [] [] [] p ;;
  p <- expect tokenRightParen p ;;
  '(tableEnd, p) <- optLoop fuel p ;;
  content <- extractTableContent (input p) tableStart tableEnd blockSpans ;;
  Ok ({| Table_Name := qname; Content := content; Columns := columns; Derived := [] |}, p).

Fixpoint expectAll (ts : list tokenType) (p : Parser) : pres Parser :=
  match ts with
  | [] => Ok p
  | t :: ts' => p <- expect t p ;; expectAll ts' p
  end.

Definition parseDependencyDeriveBlock (fuel : nat) (p : Parser)
    : pres (QName * QName * Expr * Parser) :=
  let lDelim := val (tok p) in
  p <- expect tokenLeftDelim p ;;
  p <- expectAll [tokenFor; tokenEach; tokenRow; tokenOf] p ;;
  '(parent, p) <- parseQName p ;;
  p <- expect tokenGenerate p ;;
  '(expr, p) <- parseExpr fuel p ;;
  if negb (tokenType_beq (typ (tok p)) tokenRow)
     && negb (tokenType_beq (typ (tok p)) tokenRows)
  then errorExpected (expectedText "ROW or ROWS") p
  else
    p <- pnext p ;;
    p <- expect tokenOf p ;;
    '(child, p) <- parseQName p ;;
    let rDelim := val (tok p) in
    if gostring_eqb lDelim leftDelim && negb (gostring_eqb rDelim rightDelim)
    then errorExpected (expectedText "}}") p
    else if gostring_eqb lDelim leftCommentedDelim
            && negb (gostring_eqb rDelim rightCommentedDelim)
    then errorExpected (expectedText "}}*/") p
    else
      p <- expect tokenRightDelim p ;;
      Ok (parent, child, expr, p).

(** [parent.Derived = append(parent.Derived, ...)] on the first table whose
    name equals [parentName]; [None] when there is none. *)
Fixpoint addDerived (tables : list Table) (parentName : QName) (edge : Z * Expr)
    : option (list Table) :=
  match tables with
  | [] => None
  | t :: rest =>
      if Equal (Table_Name t) parentName then
        Some ({| Table_Name := Table_Name t; Content := Content t;
                 Columns := Columns t; Derived := Derived t ++ [edge] |} :: rest)
      else
        match addDerived rest parentName edge with
        | Some rest' => Some (t :: rest')
        | None => None
        end
  end.

Fixpoint parseTemplate_loop (fuel : nat) (globals : list Expr) (tables : list Table)
    (p : Parser) : pres Template :=
  match fuel with
  | 0%nat => OutOfFuel
  | S f =>
      if tokenType_beq (typ (tok p)) tokenEOF
      then Ok {| GlobalExprs := globals; Tables := tables |}
      else if negb (tokenType_beq (typ (tok p)) tokenLeftDelim)
      then errorUnexpected p
      else
        '(parentName, childName, count, p) <- parseDependencyDeriveBlock f p ;;
        '(table, p) <- parseSingleTable f p ;;
        if negb (Equal (Table_Name table) childName)
        then perrorf (causeDerivedMismatch (QName_String childName)
                        (UniqueName (Table_Name table))) p
        else
          let index := len tables in
          match addDerived tables parentName (index, count) with
          | None => perrorf (causeNoParent (QName_String parentName)) p
          | Some tables' => parseTemplate_loop f globals (tables' ++ [table]) p
          end
  end.

Definition parseTemplate (fuel : nat) (p : Parser) : pres Template :=
  '(stmts, p) <- parseStmtBlockList fuel p ;;
  '(table, p) <- parseSingleTable fuel p ;;
  parseTemplate_loop fuel stmts [table] p.

(** [Parse] with the bound [fuel] on the parser's recursion. *)
Definition Parse (fuel : nat) (input : gostring) : pres Template :=
  p <- init input ;;
  parseTemplate fuel p.

End template.

(* ================================================================== *)
(** * Package [dbgen]: functions, compiler and evaluator *)

Module dbgen.

Import constant.

(** [encoding/hex]. *)
Definition hexDigit (n : Z) : ascii :=
  ascii_of_N (Z.to_N (if n <? 10 then chr "0" + n else chr "a" + (n - 10))).

Fixpoint hex_Encode (src : gostring) : gostring :=
  match src with
  | [] => []
  | c :: rest => hexDigit (chr c / 16) :: hexDigit (chr c mod 16) :: hex_Encode rest
  end.

Definition fromHexChar (c : ascii) : option Z :=
  if (chr "0" <=? chr c) && (chr c <=? chr "9") then Some (chr c - chr "0")
  else if (chr "a" <=? chr c) && (chr c <=? chr "f") then Some (chr c - chr "a" + 10)
  else if (chr "A" <=? chr c) && (chr c <=? chr "F") then Some (chr c - chr "A" + 10)
  else None.

Definition hexInvalidByte (c : ascii) : error :=
  fmtError "encoding/hex: invalid byte: %#U" [argInt (chr c)].

Fixpoint hex_Decode (src : gostring) : res gostring :=
  match src with
  | [] => Ok []
  | [p] =>
      match fromHexChar p with
      | None => Err (hexInvalidByte p)
      | Some _ => Err (errorString "encoding/hex: odd length hex string")
      end
  | p :: q :: rest =>
      match fromHexChar p, fromHexChar q with
      | None, _ => Err (hexInvalidByte p)
      | _, None => Err (hexInvalidByte q)
      | Some a, Some b =>
          tail <- hex_Decode rest ;;
          Ok (ascii_of_N (Z.to_N (a * 16 + b)) :: tail)
      end
  end.

(** [Encoding] is an interface for encoding and decoding byte slices.  The
    model gives the bytes written to [dst] instead of writing them. *)
Record Encoding := {
  Encode : gostring -> gostring;
  Decode : gostring -> res gostring
}.

Definition HexEncoding : Encoding := {| Encode := hex_Encode; Decode := hex_Decode |}.

(** [time.Location], by its name. *)
Definition Location := gostring.

(** The implementations of the interface [Function].  The types [IsFunc],
    [LogicalAndFunc], [LogicalOrFunc] and [LastFunc] declare no [NumArgs], so
    they are no [Function] and are in no table. *)
Inductive Function :=
| ArrayFunc
| SubscriptFunc
| GenerateSeriesFunc
| EncodeFunc (enc : Encoding)
| DecodeFunc (enc : Encoding)
| PanicFunc
| NegFunc
| CompareFunc (LT EQ GT : bool)
| IsNotFunc
| NotFunc
| BitNotFunc
| BitwiseFunc (Op : template.Op)
| ArithFunc (Op : Value -> Value -> res Value)
| GreatestFunc
| LeastFunc
| RoundFunc
| CoalesceFunc
| RandRangeFunc
| RandRangeInclusiveFunc
| RandUniformFunc
| RandUniformInclusiveFunc
| RandZipfFunc
| RandLogNormalFunc
| RandBoolFunc
| RandFiniteF32Func
| RandFiniteF64Func
| RandU31TimestampFunc
| RandUuidFunc
| RandRegexFunc
| RandShuffleFunc
| SubstringFunc (Unit : template.StringUnit)
| CharLengthFunc
| OctetLengthFunc
| OverlayFunc (Unit : template.StringUnit)
| ConcatFunc
| TimestampFunc
| TimestampWithTimeZoneFunc.

(** [NumArgs] returns the number of arguments the function accepts, -1 for a
    variable number. *)
Definition NumArgs (fn : Function) : Z :=
  match fn with
  | ArrayFunc | GenerateSeriesFunc | PanicFunc | GreatestFunc | LeastFunc
  | CoalesceFunc | SubstringFunc _ | OverlayFunc _ => -1
  | RandBoolFunc | RandFiniteF32Func | RandFiniteF64Func | RandU31TimestampFunc
  | RandUuidFunc => 0
  | EncodeFunc _ | DecodeFunc _ | NegFunc | IsNotFunc | NotFunc | BitNotFunc
  | RoundFunc | RandRegexFunc | RandShuffleFunc | CharLengthFunc | OctetLengthFunc
  | TimestampFunc | TimestampWithTimeZoneFunc => 1
  | SubscriptFunc | CompareFunc _ _ _ | BitwiseFunc _ | ArithFunc _
  | RandRangeFunc | RandRangeInclusiveFunc | RandUniformFunc
  | RandUniformInclusiveFunc | RandZipfFunc | RandLogNormalFunc | ConcatFunc => 2
  end.

(** The interface [Compiled]: its node types and the nil interface. *)
Inductive Compiled :=
| nilCompiled
| RowNum
| SubRowNum
| Constant (Value : Value)
| RawFunction (Fn : Function) (Args : list Compiled)
| GetVariable (Index : Z)
| SetVariable (Index : Z) (Value : Compiled)
| CaseValueWhen (Value : Compiled) (Whens : list (Compiled * Compiled)) (Else : Compiled)
| RandRegex (Regex : gostring)
| RandUniformU64
| RandUniformI64
| RandUniformF64
| RandZipf
| RandLogNormal
| RandBool
| RandFinite32
| RandFinite64
| RandU31Timestamp
| RandShuffle
| RandUuid.

(** A [When] is the pair of its [Cond] and its [Then]. *)
Definition When := (Compiled * Compiled)%type.

(** [IsConstant] returns true if the compiled expression is a constant. *)
Definition IsConstant (compiled : Compiled) : bool :=
  match compiled with
  | Constant _ => true
  | _ => false
  end.

(** [CompileContext] is the environment information shared by all
    compilations. *)
Record CompileContext := {
  TimeZone : Location;
  CurrentTimestamp : Time;
  LoadLocation : gostring -> res Location;
  Variables : list (gostring * Value);
  tzCache : list (gostring * Location)
}.

(** [NewCompileContext]; the clock and [time.LoadLocation] are given. *)
Definition NewCompileContext (now : Time) (load : gostring -> res Location)
    : CompileContext :=
  {| TimeZone := str "UTC"; CurrentTimestamp := now; LoadLocation := load;
     Variables := []; tzCache := [] |}.

Definition set_Variables (ctx : CompileContext) (vs : list (gostring * Value))
    : CompileContext :=
  {| TimeZone := TimeZone ctx; CurrentTimestamp := CurrentTimestamp ctx;
     LoadLocation := LoadLocation ctx; Variables := vs; tzCache := tzCache ctx |}.

Definition set_tzCache (ctx : CompileContext) (c : list (gostring * Location))
    : CompileContext :=
  {| TimeZone := TimeZone ctx; CurrentTimestamp := CurrentTimestamp ctx;
     LoadLocation := LoadLocation ctx; Variables := Variables ctx; tzCache := c |}.

(** [State] is the mutable state used during evaluation.  [CompileCtx] is a
    pointer, nil when [None]; no implemented node reads [Rng]. *)
Record State := {
  State_RowNum : Z;
  State_SubRowNum : Z;
  Rng : Z;
  CompileCtx : option CompileContext
}.

Definition set_CompileCtx (s : State) (ctx : option CompileContext) : State :=
  {| State_RowNum := State_RowNum s; State_SubRowNum := State_SubRowNum s;
     Rng := Rng s; CompileCtx := ctx |}.

Definition Arguments := list Value.

(** ** The functions *)

(** [ArrayFunc] constructs an array. *)
Definition ArrayFunc_Compile (args : Arguments) : res Compiled :=
  Ok (Constant (MakeArray args)).

(** [SubscriptFunc] subscripts an array. *)
Definition SubscriptFunc_Compile (args : Arguments) : res Compiled :=
  a0 <- at_ args 0 ;;
  base <- AsArray a0 ;;
  a1 <- at_ args 1 ;;
  k <- Value_Kind a1 ;;
  if negb (Kind_eqb k KindInt)
  then Err (fmtError "subscript must be an integer, got %s" [argKind k])
  else if negb (IsInt64 a1) then Ok (Constant Null)
  else
    index <- AsInt64 a1 ;;
    if (index <=? 0) || (index >? len base) then Ok (Constant Null)
    else v <- at_ base (index - 1) ;; Ok (Constant v).

(** The loop of [generate_series].  The Go loop has no bound; [fuel] bounds
    the number of iterations of the model. *)
Fixpoint GenerateSeries_loop (fuel : nat) (result : list Value) (value stop step : Value)
    (stepSign : Z) : res (list Value) :=
  match fuel with
  | 0%nat => OutOfFuel
  | S f =>
      '(cmp, isNull) <- Cmp value stop ;;
      if isNull || (cmp =? stepSign) then Ok result
      else
        let result := result ++ [value] in
        value <- Add value step ;;
        GenerateSeries_loop f result value stop step stepSign
  end.

(** [GenerateSeriesFunc] implements the [generate_series] SQL function. *)
Definition GenerateSeriesFunc_Compile (fuel : nat) (args : Arguments) : res Compiled :=
  if len args <? 2
  then Err (fmtError "generate_series requires at least 2 arguments, got %d"
              [argInt (len args)])
  else if len args >? 3
  then Err (fmtError "generate_series requires at most 3 arguments, got %d"
              [argInt (len args)])
  else
    start <- at_ args 0 ;;
    stop <- at_ args 1 ;;
    '(step, stepSign) <-
      (if len args =? 3 then
         step <- at_ args 2 ;;
         let stepSign := Sign step in
         if stepSign =? 0
         then Err (fmtError "generate_series step cannot be zero" [])
         else Ok (step, stepSign)
       else Ok (MakeInt64 1, 1)) ;;
    result <- GenerateSeries_loop fuel [] start stop step stepSign ;;
    Ok (Constant (MakeArray result)).

(** [EncodeFunc] implements the [encode.*] SQL functions. *)
Definition EncodeFunc_Compile (enc : Encoding) (args : Arguments) : res Compiled :=
  a0 <- at_ args 0 ;;
  src <- AsBytes a0 ;;
  Ok (Constant (MakeBytes (Encode enc src))).

(** [DecodeFunc] implements the [decode.*] SQL functions. *)
Definition DecodeFunc_Compile (dec : Encoding) (args : Arguments) : res Compiled :=
  a0 <- at_ args 0 ;;
  src <- AsBytes a0 ;;
  dst <- Decode dec src ;;
  Ok (Constant (MakeBytes dst)).

Fixpoint panicArgs (i : Z) (args : Arguments) : list fmtArg :=
  match args with
  | [] => []
  | arg :: rest => argInt i :: argValue arg :: panicArgs (i + 1) rest
  end.

Definition PanicFunc_Compile (args : Arguments) : res Compiled :=
  Err (fmtError "runtime panic: %d. %s" (panicArgs 0 args)).

Definition NegFunc_Compile (args : Arguments) : res Compiled :=
  a0 <- at_ args 0 ;;
  result <- Neg a0 ;;
  Ok (Constant result).

(** [CompareFunc] implements the value comparisons. *)
Definition CompareFunc_Compile (LT EQ GT : bool) (args : Arguments) : res Compiled :=
  a0 <- at_ args 0 ;;
  a1 <- at_ args 1 ;;
  '(cmp, isNull) <- Cmp a0 a1 ;;
  if isNull then Ok (Constant Null)
  else if cmp =? -1 then Ok (Constant (MakeBool LT))
  else if cmp =? 0 then Ok (Constant (MakeBool EQ))
  else Ok (Constant (MakeBool GT)).

(** Bitwise operations on [int64] (two's complement) and on [*big.Int]. *)
Definition bitwise (op : template.Op) (x y : Z) : option Z :=
  match op with
  | template.OpBitAnd => Some (Z.land x y)
  | template.OpBitOr => Some (Z.lor x y)
  | template.OpBitXor => Some (Z.lxor x y)
  | _ => None
  end.

(** [BitwiseFunc] implements the bitwise SQL functions. *)
Definition BitwiseFunc_Compile (op : template.Op) (args : Arguments) : res Compiled :=
  a0 <- at_ args 0 ;;
  a1 <- at_ args 1 ;;
  if isNull a0 || isNull a1 then Ok (Constant Null)
  else if IsInt64 a0 && IsInt64 a1 then
    let x := match AsInt64 a0 with Ok x => x | _ => 0 end in
    let y := match AsInt64 a1 with Ok y => y | _ => 0 end in
    match bitwise op x y with
    | Some r => Ok (Constant (MakeInt64 r))
    | None => Err (fmtError "unknown bitwise operator: %v"
                     [argString (str (template.Op_String op))])
    end
  else
    x <- AsInt a0 ;;
    y <- AsInt a1 ;;
    match bitwise op x y with
    | Some r => Ok (Constant (MakeInt r))
    | None => Err (fmtError "unknown bitwise operator: %v"
                     [argString (str (template.Op_String op))])
    end.

(** [ArithFunc] implements the arithmetic SQL functions. *)
Definition ArithFunc_Compile (Op : Value -> Value -> res Value) (args : Arguments)
    : res Compiled :=
  a0 <- at_ args 0 ;;
  a1 <- at_ args 1 ;;
  result <- Op a0 a1 ;;
  Ok (Constant result).

Definition unimplemented {A} : res A := Panic "unimplemented".

Definition timestampFormat : gostring := str "2006-01-02 15:04:05.999".

Section Library.

(** Functions of the Go library that the compiler calls and this development
    does not look into. *)
Variable Base64Encoding : Encoding.
Variable time_ParseInLocation : gostring -> gostring -> Location -> res Time.
Variable bytes_IndexFunc_IsLetter : gostring -> Z.
Variable strings_TrimSpace : gostring -> gostring.

Definition ParseTimeZone (ctx : CompileContext) (tz : gostring)
    : res (Location * CompileContext) :=
  match find (fun kv => gostring_eqb (fst kv) tz) (tzCache ctx) with
  | Some kv => Ok (snd kv, ctx)
  | None =>
      loc <- LoadLocation ctx tz ;;
      Ok (loc, set_tzCache ctx ((tz, loc) :: tzCache ctx))
  end.

(** [TimestampFunc] implements the [timestamp] SQL function. *)
Definition TimestampFunc_Compile (ctx : option CompileContext) (args : Arguments)
    : res (Compiled * option CompileContext) :=
  a0 <- at_ args 0 ;;
  input <- AsBytes a0 ;;
  match ctx with
  | None => Panic nilDeref
  | Some c =>
      t <- time_ParseInLocation timestampFormat input (TimeZone c) ;;
      Ok (Constant (MakeTimestamp t), ctx)
  end.

(** [TimestampWithTimeZoneFunc] implements the [timestamp with time zone] SQL
    function. *)
Definition TimestampWithTimeZoneFunc_Compile (ctx : option CompileContext)
    (args : Arguments) : res (Compiled * option CompileContext) :=
  a0 <- at_ args 0 ;;
  input <- AsBytes a0 ;;
  match ctx with
  | None => Panic nilDeref
  | Some c =>
      let tz := TimeZone c in
      let tzIdx := bytes_IndexFunc_IsLetter input in
      '(tz, input, c) <-
        (if negb (tzIdx =? -1) then
           name <- slice input tzIdx (len input) ;;
           '(tz, c) <- ParseTimeZone c name ;;
           input <- slice input 0 tzIdx ;;
           Ok (tz, input, c)
         else Ok (tz, input, c)) ;;
      t <- time_ParseInLocation timestampFormat (strings_TrimSpace input) tz ;;
      Ok (Constant (MakeTimestamp t), Some c)
  end.

(** [fn.Compile(ctx, args)]: compiles or evaluates the function.  [fuel]
    bounds the loop of [generate_series]. *)
Definition Function_Compile (fuel : nat) (fn : Function) (ctx : option CompileContext)
    (args : Arguments) : res (Compiled * option CompileContext) :=
  let pure (r : res Compiled) := c <- r ;; Ok (c, ctx) in
  match fn with
  | ArrayFunc => pure (ArrayFunc_Compile args)
  | SubscriptFunc => pure (SubscriptFunc_Compile args)
  | GenerateSeriesFunc => pure (GenerateSeriesFunc_Compile fuel args)
  | EncodeFunc enc => pure (EncodeFunc_Compile enc args)
  | DecodeFunc enc => pure (DecodeFunc_Compile enc args)
  | PanicFunc => pure (PanicFunc_Compile args)
  | NegFunc => pure (NegFunc_Compile args)
  | CompareFunc LT EQ GT => pure (CompareFunc_Compile LT EQ GT args)
  | BitwiseFunc op => pure (BitwiseFunc_Compile op args)
  | ArithFunc op => pure (ArithFunc_Compile op args)
  | TimestampFunc => TimestampFunc_Compile ctx args
  | TimestampWithTimeZoneFunc => TimestampWithTimeZoneFunc_Compile ctx args
  | _ => unimplemented
  end.

Definition GenericFuncs_table : list (string * Function) :=
  [ ("generate_series", GenerateSeriesFunc);
    ("encode.hex", EncodeFunc HexEncoding);
    ("encode.base64", EncodeFunc Base64Encoding);
    ("decode.hex", DecodeFunc HexEncoding);
    ("decode.base64", DecodeFunc Base64Encoding);
    ("debug.panic", PanicFunc);
    ("least", LeastFunc);
    ("greatest", GreatestFunc);
    ("round", RoundFunc);
    ("div", ArithFunc Div);
    ("mod", ArithFunc Mod);
    ("coalesce", CoalesceFunc);
    ("rand.range", RandRangeFunc);
    ("rand.range_inclusive", RandRangeInclusiveFunc);
    ("rand.uniform", RandUniformFunc);
    ("rand.uniform_inclusive", RandUniformInclusiveFunc);
    ("rand.zipf", RandZipfFunc);
    ("rand.log_normal", RandLogNormalFunc);
    ("rand.bool", RandBoolFunc);
    ("rand.finite_f32", RandFiniteF32Func);
    ("rand.finite_f64", RandFiniteF64Func);
    ("rand.u31_timestamp", RandU31TimestampFunc);
    ("rand.uuid", RandUuidFunc);
    ("rand.regex", RandRegexFunc);
    ("rand.shuffle", RandShuffleFunc);
    ("char_length", CharLengthFunc);
    ("octet_length", OctetLengthFunc) ]%string.

(** [GenericFuncs[name]]. *)
Definition GenericFuncs (name : gostring) : option Function :=
  match find (fun kv => gostring_eqb (str (fst kv)) name) GenericFuncs_table with
  | Some kv => Some (snd kv)
  | None => None
  end.

(** [UnaryFuncs[op]]. *)
Definition UnaryFuncs (op : template.Op) : option Function :=
  match op with
  | template.OpSub => Some NegFunc
  | template.OpNot => Some NotFunc
  | template.OpIsNot => Some IsNotFunc
  | template.OpBitNot => Some BitNotFunc
  | _ => None
  end.

(** [BinaryFuncs[op]]. *)
Definition BinaryFuncs (op : template.Op) : option Function :=
  match op with
  | template.OpLT => Some (CompareFunc true false false)
  | template.OpLE => Some (CompareFunc true true false)
  | template.OpEQ => Some (CompareFunc false true false)
  | template.OpNE => Some (CompareFunc true false true)
  | template.OpGT => Some (CompareFunc false false true)
  | template.OpGE => Some (CompareFunc false true true)
  | template.OpBitAnd => Some (BitwiseFunc template.OpBitAnd)
  | template.OpBitOr => Some (BitwiseFunc template.OpBitOr)
  | template.OpBitXor => Some (BitwiseFunc template.OpBitXor)
  | template.OpAdd => Some (ArithFunc Add)
  | template.OpSub => Some (ArithFunc Sub)
  | template.OpMul => Some (ArithFunc Mul)
  | template.OpFloatDiv => Some (ArithFunc FloatDiv)
  | template.OpConcat => Some ConcatFunc
  | _ => None
  end.

(** ** The evaluator *)

(** [state.CompileCtx.Variables[i]]. *)
Definition variables_of (state : option State) : res (State * CompileContext) :=
  match state with
  | None => Panic nilDeref
  | Some s =>
      match CompileCtx s with
      | None => Panic nilDeref
      | Some ctx => Ok (s, ctx)
      end
  end.

(** [vs[i].B = value]. *)
Definition set_B (vs : list (gostring * Value)) (i : Z) (value : Value)
    : res (list (gostring * Value)) :=
  slot <- at_ vs i ;;
  Ok (firstn (Z.to_nat i) vs ++ (fst slot, value) :: skipn (S (Z.to_nat i)) vs).

(** The argument loop of [RawFunction.Eval]. *)
Fixpoint evalArgs (ev : Compiled -> option State -> res (Value * option State))
    (args : list Compiled) (acc : list Value) (state : option State)
    : res (list Value * option State) :=
  match args with
  | [] => Ok (acc, state)
  | arg :: rest =>
      '(value, state) <- ev arg state ;;
      evalArgs ev rest (acc ++ [value]) state
  end.

(** [c.Eval(state)] evaluates a compiled expression and updates the state.
    [fuel] bounds the depth of the evaluation; [state] is a pointer, nil when
    [None]. *)
Fixpoint Eval (fuel : nat) (c : Compiled) (state : option State)
    : res (Value * option State) :=
  match fuel with
  | 0%nat => OutOfFuel
  | S f =>
      match c with
      | nilCompiled => Panic nilDeref
      | RowNum =>
          match state with
          | None => Panic nilDeref
          | Some s => Ok (MakeInt64 (State_RowNum s), state)
          end
      | SubRowNum =>
          match state with
          | None => Panic nilDeref
          | Some s => Ok (MakeInt64 (State_SubRowNum s), state)
          end
      | Constant v => Ok (v, state)
      | RawFunction fn args =>
          '(vals, state) <- evalArgs (Eval f) args [] state ;;
          match state with
          | None => Panic nilDeref
          | Some s =>
              '(c', ctx) <- Function_Compile f fn (CompileCtx s) vals ;;
              Eval f c' (Some (set_CompileCtx s ctx))
          end
      | GetVariable index =>
          '(_, ctx) <- variables_of state ;;
          slot <- at_ (Variables ctx) index ;;
          Ok (snd slot, state)
      | SetVariable index child =>
          '(value, state) <- Eval f child state ;;
          '(s, ctx) <- variables_of state ;;
          vs <- set_B (Variables ctx) index value ;;
          Ok (value, Some (set_CompileCtx s (Some (set_Variables ctx vs))))
      | CaseValueWhen _ _ _ => unimplemented
      | RandRegex _ | RandUniformU64 | RandUniformI64 | RandUniformF64 | RandZipf
      | RandLogNormal | RandBool | RandFinite32 | RandFinite64 | RandU31Timestamp
      | RandShuffle | RandUuid => unimplemented
      end
  end.

(** [Row] represents a row of compiled values. *)
Definition Row := list Compiled.

Definition Row_Eval (fuel : nat) (r : Row) (state : option State)
    : res (list Value * option State) :=
  evalArgs (Eval fuel) r [] state.

(** ** The compiler *)

(** [lo.FindIndexOf(ctx.Variables, ...)] followed by the append of a new slot
    holding NULL when the name is absent. *)
Fixpoint findIndexOf (vs : list (gostring * Value)) (name : gostring) (i : Z) : Z :=
  match vs with
  | [] => -1
  | v :: rest => if gostring_eqb (fst v) name then i else findIndexOf rest name (i + 1)
  end.

Definition lookupVariable (ctx : CompileContext) (name : gostring)
    : Z * CompileContext :=
  let index := findIndexOf (Variables ctx) name 0 in
  if index =? -1
  then (len (Variables ctx), set_Variables ctx (Variables ctx ++ [(name, Null)]))
  else (index, ctx).

Definition constantValue (c : Compiled) : res Value :=
  match c with
  | Constant v => Ok v
  | nilCompiled => Panic "interface conversion: interface is nil, not *dbgen.Constant"
  | _ => Panic "interface conversion: Compiled is not *dbgen.Constant"
  end.

Fixpoint constArgs_loop (compiledArgs : list Compiled) : res (list Value) :=
  match compiledArgs with
  | [] => Ok []
  | arg :: rest =>
      v <- constantValue arg ;;
      vs <- constArgs_loop rest ;;
      Ok (v :: vs)
  end.

Definition isConstWhen (w : When) : bool :=
  IsConstant (fst w) && IsConstant (snd w).

(** [CompileExpr], [compileRawFunction] and [compileCaseValueWhen].  [fuel]
    bounds the depth of the recursion. *)
Fixpoint CompileExpr (fuel : nat) (expr : template.Expr) (ctx : CompileContext)
    {struct fuel} : res (Compiled * CompileContext) :=
  match fuel with
  | 0%nat => OutOfFuel
  | S f =>
      match expr with
      | template.RowNum => Ok (RowNum, ctx)
      | template.SubRowNum => Ok (SubRowNum, ctx)
      | template.CurrentTimestamp =>
          Ok (Constant (MakeTimestamp (CurrentTimestamp ctx)), ctx)
      | template.Constant v => Ok (Constant v, ctx)
      | template.GetVariable name =>
          let '(index, ctx) := lookupVariable ctx name in
          Ok (GetVariable index, ctx)
      | template.SetVariable name _ =>
          let '(index, ctx) := lookupVariable ctx name in
          Ok (SetVariable index nilCompiled, ctx)
      | template.UnaryExpr op e =>
          match UnaryFuncs op with
          | None => Err (fmtError "unknown unary operator: %s"
                           [argString (str (template.Op_String op))])
          | Some fn => compileRawFunction f fn [e] ctx
          end
      | template.BinaryExpr op l r =>
          match BinaryFuncs op with
          | None => Err (fmtError "unknown binary operator: %s"
                           [argString (str (template.Op_String op))])
          | Some fn => compileRawFunction f fn [l; r] ctx
          end
      | template.ParenExpr e => CompileExpr f e ctx
      | template.FuncExpr name args =>
          match GenericFuncs (template.UniqueName name) with
          | None => Err (fmtError "unknown function: %s"
                           [argString (template.QName_String name)])
          | Some fn =>
              if (NumArgs fn >=? 0) && negb (len args =? NumArgs fn)
              then Err (fmtError
                          "wrong number of arguments for function %s: expected %d, got %d"
                          [argString (template.QName_String name);
                           argInt (NumArgs fn); argInt (len args)])
              else compileRawFunction f fn args ctx
          end
      | template.CaseValueWhen value whens else_ =>
          compileCaseValueWhen f value whens else_ ctx
      | template.Timestamp withTimezone value =>
          let fn := if withTimezone then TimestampWithTimeZoneFunc else TimestampFunc in
          compileRawFunction f fn [value] ctx
      | template.Interval unit value =>
          match BinaryFuncs template.OpMul with
          | None => Panic nilDeref
          | Some fn =>
              compileRawFunction f fn
                [value; template.Constant (MakeInterval unit)] ctx
          end
      | template.Array elems => compileRawFunction f ArrayFunc elems ctx
      | template.Subscript base index =>
          compileRawFunction f SubscriptFunc [base; index] ctx
      | template.Substring input from for_ unit =>
          compileRawFunction f (SubstringFunc unit) [input; from; for_] ctx
      | template.Overlay input placing from for_ unit =>
          compileRawFunction f (OverlayFunc unit) [input; placing; from; for_] ctx
      | template.nilExpr =>
          Err (fmtError "unknown expression: %T" [argString (str "<nil>")])
      end
  end
with compileArgs (fuel : nat) (args : list template.Expr) (compiledArgs : list Compiled)
    (isConst : bool) (ctx : CompileContext) {struct fuel}
    : res (list Compiled * bool * CompileContext) :=
  match fuel with
  | 0%nat => OutOfFuel
  | S f =>
      match args with
      | [] => Ok (compiledArgs, isConst, ctx)
      | template.nilExpr :: rest =>
          compileArgs f rest (compiledArgs ++ [Constant Null]) isConst ctx
      | arg :: rest =>
          '(compiled, ctx) <- CompileExpr f arg ctx ;;
          compileArgs f rest (compiledArgs ++ [compiled])
            (isConst && IsConstant compiled) ctx
      end
  end
with compileRawFunction (fuel : nat) (fn : Function) (args : list template.Expr)
    (ctx : CompileContext) {struct fuel} : res (Compiled * CompileContext) :=
  match fuel with
  | 0%nat => OutOfFuel
  | S f =>
      '(compiledArgs, isConst, ctx) <- compileArgs f args [] true ctx ;;
      if isConst then
        constArgs <- constArgs_loop compiledArgs ;;
        '(compiled, ctx') <- Function_Compile f fn (Some ctx) constArgs ;;
        match ctx' with
        | Some ctx => Ok (compiled, ctx)
        | None => Panic nilDeref
        end
      else Ok (RawFunction fn compiledArgs, ctx)
  end
with compileWhens (fuel : nat) (whens : list template.When) (acc : list When)
    (ctx : CompileContext) {struct fuel} : res (list When * CompileContext) :=
  match fuel with
  | 0%nat => OutOfFuel
  | S f =>
      match whens with
      | [] => Ok (acc, ctx)
      | (cond, then_) :: rest =>
          '(cond, ctx) <- CompileExpr f cond ctx ;;
          '(then_, ctx) <- CompileExpr f then_ ctx ;;
          compileWhens f rest (acc ++ [(cond, then_)]) ctx
      end
  end
with compileCaseValueWhen (fuel : nat) (value : template.Expr)
    (whens : list template.When) (else_ : template.Expr) (ctx : CompileContext)
    {struct fuel} : res (Compiled * CompileContext) :=
  match fuel with
  | 0%nat => OutOfFuel
  | S f =>
      '(value, ctx) <-
        match value with
        | template.nilExpr => Ok (Constant Null, ctx)
        | _ => CompileExpr f value ctx
        end ;;
      '(whens, ctx) <- compileWhens f whens [] ctx ;;
      '(else_, ctx) <-
        match else_ with
        | template.nilExpr => Ok (Constant Null, ctx)
        | _ => CompileExpr f else_ ctx
        end ;;
      let compiled := CaseValueWhen value whens else_ in
      if IsConstant value && forallb isConstWhen whens && IsConstant else_ then
        '(value, _) <- Eval f compiled None ;;
        Ok (Constant value, ctx)
      else Ok (compiled, ctx)
  end.

Fixpoint CompileRow_loop (fuel : nat) (exprs : list template.Expr) (row : Row)
    (ctx : CompileContext) : res (Row * CompileContext) :=
  match exprs with
  | [] => Ok (row, ctx)
  | expr :: rest =>
      '(compiled, ctx) <- CompileExpr fuel expr ctx ;;
      CompileRow_loop fuel rest (row ++ [compiled]) ctx
  end.

Definition CompileRow (fuel : nat) (exprs : list template.Expr) (ctx : CompileContext)
    : res (Row * CompileContext) :=
  CompileRow_loop fuel exprs [] ctx.

Record Table := {
  Table_Name : template.QName;
  Content : gostring;
  Columns : list template.Name;
  Table_Row : Row;
  Derived : list (Z * Compiled)
}.

Record Template := {
  GlobalExprs : Row;
  Tables : list Table
}.

Fixpoint compileDerived (fuel : nat) (ds : list (Z * template.Expr))
    (acc : list (Z * Compiled)) (ctx : CompileContext)
    : res (list (Z * Compiled) * CompileContext) :=
  match ds with
  | [] => Ok (acc, ctx)
  | (index, count) :: rest =>
      '(compiled, ctx) <- CompileExpr fuel count ctx ;;
      compileDerived fuel rest (acc ++ [(index, compiled)]) ctx
  end.

Definition CompileTable (fuel : nat) (t : template.Table) (ctx : CompileContext)
    : res (Table * CompileContext) :=
  let exprs := map template.Column_Expr (template.Columns t) in
  '(row, ctx) <- CompileRow fuel exprs ctx ;;
  '(derived, ctx) <- compileDerived fuel (template.Derived t) [] ctx ;;
  Ok ({| Table_Name := template.Table_Name t;
         Content := template.Content t;
         Columns := map template.Column_Name (template.Columns t);
         Table_Row := row;
         Derived := derived |}, ctx).

Fixpoint CompileTables (fuel : nat) (ts : list template.Table) (acc : list Table)
    (ctx : CompileContext) : res (list Table * CompileContext) :=
  match ts with
  | [] => Ok (acc, ctx)
  | t :: rest =>
      '(table, ctx) <- CompileTable fuel t ctx ;;
      CompileTables fuel rest (acc ++ [table]) ctx
  end.

Definition CompileTemplate (fuel : nat) (t : template.Template) (ctx : CompileContext)
    : res (Template * CompileContext) :=
  '(row, ctx) <- CompileRow fuel (template.GlobalExprs t) ctx ;;
  '(tables, ctx) <- CompileTables fuel (template.Tables t) [] ctx ;;
  Ok ({| GlobalExprs := row; Tables := tables |}, ctx).

End Library.

End dbgen.

(* ================================================================== *)
(** * Properties *)

Import constant.

(** ** Integer arithmetic *)

Lemma wrap64_small z : in_int64 z -> wrap64 z = z.
Proof.
  unfold in_int64, wrap64, MinInt64, MaxInt64. intros H.
  rewrite Z.mod_small by lia. lia.
Qed.

Lemma wrap64_range z : in_int64 (wrap64 z).
Proof.
  unfold in_int64, wrap64, MinInt64, MaxInt64.
  pose proof (Z.mod_pos_bound (z + 2 ^ 63) (2 ^ 64) ltac:(lia)). lia.
Qed.

Lemma wrap64_above z : 2 ^ 63 <= z < 2 ^ 64 + 2 ^ 63 -> wrap64 z = z - 2 ^ 64.
Proof.
  unfold wrap64. intros H.
  replace (z + 2 ^ 63) with ((z - 2 ^ 64 + 2 ^ 63) + 1 * 2 ^ 64) by lia.
  rewrite Z.mod_add by lia. rewrite Z.mod_small by lia. lia.
Qed.

Lemma wrap64_below z : - 2 ^ 64 - 2 ^ 63 <= z < - 2 ^ 63 -> wrap64 z = z + 2 ^ 64.
Proof.
  unfold wrap64. intros H.
  replace (z + 2 ^ 63) with ((z + 2 ^ 64 + 2 ^ 63) + (-1) * 2 ^ 64) by lia.
  rewrite Z.mod_add by lia. rewrite Z.mod_small by lia. lia.
Qed.

Lemma in_int64b_true z : in_int64b z = true <-> in_int64 z.
Proof. unfold in_int64b, in_int64. lia. Qed.

Lemma in_int64b_false z : in_int64b z = false <-> ~ in_int64 z.
Proof. unfold in_int64b, in_int64. lia. Qed.

(** The fast path of [Add] is exact: on 64-bit operands [Add] returns the
    mathematical sum, in the 64-bit form whenever the sum fits. *)
Lemma Add_int64_exact a b :
  in_int64 a -> in_int64 b ->
  Add (int64Val a) (int64Val b) = Ok (MakeInt (a + b)).
Proof.
  intros Ha Hb. unfold Add, MakeInt. cbn.
  assert (Hr : in_int64 (a + b) \/ 2 ^ 63 <= a + b < 2 ^ 64 + 2 ^ 63
               \/ - 2 ^ 64 - 2 ^ 63 <= a + b < - 2 ^ 63)
    by (unfold in_int64, MinInt64, MaxInt64 in *; lia).
  destruct Hr as [Hr | [Hr | Hr]].
  - rewrite (wrap64_small _ Hr).
    replace (in_int64b (a + b)) with true by (symmetry; now apply in_int64b_true).
    replace (Bool.eqb (a + b >? a) (b >? 0)) with true; [reflexivity|].
    destruct (a + b >? a) eqn:E1, (b >? 0) eqn:E2; cbn; try reflexivity; lia.
  - rewrite (wrap64_above _ Hr).
    replace (in_int64b (a + b)) with false
      by (symmetry; apply in_int64b_false; unfold in_int64, MaxInt64; lia).
    replace (Bool.eqb (a + b - 2 ^ 64 >? a) (b >? 0)) with false; [reflexivity|].
    unfold in_int64, MinInt64, MaxInt64 in *.
    destruct (a + b - 2 ^ 64 >? a) eqn:E1, (b >? 0) eqn:E2; cbn; try reflexivity; lia.
  - rewrite (wrap64_below _ Hr).
    replace (in_int64b (a + b)) with false
      by (symmetry; apply in_int64b_false; unfold in_int64, MinInt64; lia).
    replace (Bool.eqb (a + b + 2 ^ 64 >? a) (b >? 0)) with false; [reflexivity|].
    unfold in_int64, MinInt64, MaxInt64 in *.
    destruct (a + b + 2 ^ 64 >? a) eqn:E1, (b >? 0) eqn:E2; cbn; try reflexivity; lia.
Qed.

(** C1 (evaluation at the failing inputs).  [Sub] tests the wrapped sum
    [a + b] where the difference is meant: [MaxInt64 - 1] comes out as
    [MinInt64], [MinInt64 - (-1)] as [MaxInt64], and [5 - 3] as the big
    integer 2 instead of the 64-bit 2.  [Mul] does not treat [-1] specially:
    [(-1) * MinInt64] comes out as [MinInt64] instead of the big integer
    [2^63]. *)
Theorem arith_fast_path_defects :
  Sub (int64Val MaxInt64) (int64Val 1) = Ok (int64Val MinInt64)
  /\ Sub (int64Val MinInt64) (int64Val (-1)) = Ok (int64Val MaxInt64)
  /\ Sub (int64Val 5) (int64Val 3) = Ok (intVal 2)
  /\ MakeInt (5 - 3) = int64Val 2
  /\ Mul (int64Val (-1)) (int64Val MinInt64) = Ok (int64Val MinInt64)
  /\ MakeInt (-1 * MinInt64) = intVal (2 ^ 63).
Proof. repeat split; vm_compute; reflexivity. Qed.

(** ** The compiler and the evaluator *)

Section CompilerProperties.

Variable Base64Encoding : dbgen.Encoding.
Variable time_ParseInLocation : gostring -> gostring -> dbgen.Location -> res Time.
Variable bytes_IndexFunc_IsLetter : gostring -> Z.
Variable strings_TrimSpace : gostring -> gostring.

Local Abbreviation CompileExpr :=
  (dbgen.CompileExpr Base64Encoding time_ParseInLocation bytes_IndexFunc_IsLetter
     strings_TrimSpace).
Local Abbreviation compileWhens :=
  (dbgen.compileWhens Base64Encoding time_ParseInLocation bytes_IndexFunc_IsLetter
     strings_TrimSpace).
Local Abbreviation compileCaseValueWhen :=
  (dbgen.compileCaseValueWhen Base64Encoding time_ParseInLocation
     bytes_IndexFunc_IsLetter strings_TrimSpace).
Local Abbreviation Eval :=
  (dbgen.Eval time_ParseInLocation bytes_IndexFunc_IsLetter strings_TrimSpace).

(** What [SetVariable.Eval] does on a node that has a child: it evaluates
    the child, stores the value in the slot and returns it. *)
Lemma SetVariable_Eval fuel index child state :
  Eval (S fuel) (dbgen.SetVariable index child) state =
  ('(value, state) <- Eval fuel child state ;;
   '(s, ctx) <- dbgen.variables_of state ;;
   vs <- dbgen.set_B (dbgen.Variables ctx) index value ;;
   Ok (value, Some (dbgen.set_CompileCtx s (Some (dbgen.set_Variables ctx vs))))).
Proof. reflexivity. Qed.

(** C2 (evaluation at the failing input).  [@x := 1] parses to a
    [SetVariable] with its value expression, but [CompileExpr] builds
    [&SetVariable{Index: index}] for every [SetVariable]: the child is never
    compiled and the node's [Value] stays the nil interface.  Evaluating the
    node calls [Eval] on that nil interface and panics, whatever the state. *)
Theorem SetVariable_compiled_without_child :
  template.ParseExpr 20 (str "@x := 1")
    = Ok (template.SetVariable (str "x") (template.Constant (int64Val 1)))
  /\ (forall fuel name e ctx,
        CompileExpr (S fuel) (template.SetVariable name e) ctx
        = Ok (dbgen.SetVariable (fst (dbgen.lookupVariable ctx name)) dbgen.nilCompiled,
              snd (dbgen.lookupVariable ctx name)))
  /\ (forall fuel index state,
        Eval (S (S fuel)) (dbgen.SetVariable index dbgen.nilCompiled) state
        = Panic nilDeref).
Proof.
  split; [vm_compute; reflexivity|]. split.
  - intros fuel name e ctx. cbn.
    destruct (dbgen.lookupVariable ctx name); reflexivity.
  - intros fuel index state. reflexivity.
Qed.

Lemma CompileExpr_Constant f v ctx :
  CompileExpr (S f) (template.Constant v) ctx = Ok (dbgen.Constant v, ctx).
Proof. reflexivity. Qed.

Lemma CompileExpr_CaseValueWhen f value whens else_ ctx :
  CompileExpr (S f) (template.CaseValueWhen value whens else_) ctx
  = compileCaseValueWhen f value whens else_ ctx.
Proof. reflexivity. Qed.

Lemma compileWhens_nil f acc ctx : compileWhens (S f) [] acc ctx = Ok (acc, ctx).
Proof. reflexivity. Qed.

Lemma compileWhens_cons f cond then_ rest acc ctx :
  compileWhens (S f) ((cond, then_) :: rest) acc ctx
  = ('(cond, ctx) <- CompileExpr f cond ctx ;;
     '(then_, ctx) <- CompileExpr f then_ ctx ;;
     compileWhens f rest (acc ++ [(cond, then_)]) ctx).
Proof. reflexivity. Qed.

Lemma compileCaseValueWhen_S f value whens else_ ctx :
  compileCaseValueWhen (S f) value whens else_ ctx
  = ('(value, ctx) <-
       match value with
       | template.nilExpr => Ok (dbgen.Constant Null, ctx)
       | _ => CompileExpr f value ctx
       end ;;
     '(whens, ctx) <- compileWhens f whens [] ctx ;;
     '(else_, ctx) <-
       match else_ with
       | template.nilExpr => Ok (dbgen.Constant Null, ctx)
       | _ => CompileExpr f else_ ctx
       end ;;
     let compiled := dbgen.CaseValueWhen value whens else_ in
     if dbgen.IsConstant value && forallb dbgen.isConstWhen whens
        && dbgen.IsConstant else_
     then '(value, _) <- Eval f compiled None ;; Ok (dbgen.Constant value, ctx)
     else Ok (compiled, ctx)).
Proof. reflexivity. Qed.

Definition constWhen (w : Value * Value) : template.When :=
  (template.Constant (fst w), template.Constant (snd w)).

Definition compiledConstWhen (w : Value * Value) : dbgen.When :=
  (dbgen.Constant (fst w), dbgen.Constant (snd w)).

Lemma compileWhens_constants ws : forall n acc ctx,
  compileWhens (S (S (n + List.length ws))) (map constWhen ws) acc ctx
  = Ok (acc ++ map compiledConstWhen ws, ctx).
Proof.
  induction ws as [|w ws IH]; intros n acc ctx.
  - rewrite compileWhens_nil. cbn. now rewrite app_nil_r.
  - destruct w as [c t]. cbn [map List.length].
    unfold constWhen at 1, compiledConstWhen at 1. cbn [fst snd].
    rewrite compileWhens_cons.
    replace (S (n + S (List.length ws)))%nat
      with (S (S (n + List.length ws)))%nat by lia.
    rewrite CompileExpr_Constant. cbn [bind].
    rewrite CompileExpr_Constant. cbn [bind].
    rewrite IH. rewrite <- app_assoc. reflexivity.
Qed.

Lemma forallb_isConstWhen ws :
  forallb dbgen.isConstWhen (map compiledConstWhen ws) = true.
Proof. induction ws as [|w ws IH]; cbn; auto. Qed.

(** C3 (evaluation at the failing input).  The CASE expression of the
    scenario parses, and all its sub-expressions are constants; the compiler
    then folds it by calling [CaseValueWhen.Eval], which is
    [panic("unimplemented")].  So the compilation of this expression, and of
    every CASE whose value, conditions, results and else-branch are
    constants, panics instead of returning a [Constant]. *)
Theorem constant_case_compile_panics :
  template.ParseExpr 30 (str "case 2 when 1 then 'a' when 2 then 'b' else 'c' end")
    = Ok (template.CaseValueWhen (template.Constant (int64Val 2))
            [ (template.Constant (int64Val 1), template.Constant (bytesVal (str "a")));
              (template.Constant (int64Val 2), template.Constant (bytesVal (str "b"))) ]
            (template.Constant (bytesVal (str "c"))))
  /\ (forall n ctx,
        CompileExpr (6 + n)
          (template.CaseValueWhen (template.Constant (int64Val 2))
             [ (template.Constant (int64Val 1), template.Constant (bytesVal (str "a")));
               (template.Constant (int64Val 2), template.Constant (bytesVal (str "b"))) ]
             (template.Constant (bytesVal (str "c")))) ctx
        = Panic "unimplemented")
  /\ (forall n value ws else_ ctx,
        CompileExpr (S (S (S (S (n + List.length ws)))))
          (template.CaseValueWhen (template.Constant value) (map constWhen ws)
             (template.Constant else_)) ctx
        = Panic "unimplemented").
Proof.
  assert (G : forall n value ws else_ ctx,
        CompileExpr (S (S (S (S (n + List.length ws)))))
          (template.CaseValueWhen (template.Constant value) (map constWhen ws)
             (template.Constant else_)) ctx
        = Panic "unimplemented").
  { intros n value ws else_ ctx.
    rewrite CompileExpr_CaseValueWhen, compileCaseValueWhen_S.
    rewrite CompileExpr_Constant. cbn [bind].
    rewrite compileWhens_constants. cbn [bind app].
    rewrite CompileExpr_Constant. cbn [bind].
    rewrite forallb_isConstWhen. reflexivity. }
  split; [vm_compute; reflexivity|]. split; [|exact G].
  intros n ctx.
  replace (6 + n)%nat with (S (S (S (S (n + 2)))))%nat by lia.
  exact (G n (int64Val 2)
           [(int64Val 1, bytesVal (str "a")); (int64Val 2, bytesVal (str "b"))]
           (bytesVal (str "c")) ctx).
Qed.

End CompilerProperties.

(** ** Numeric literals *)

(** [MakeInt] stores a big integer in the 64-bit form exactly when it fits. *)
Lemma MakeInt_normalizes i :
  (in_int64 i -> MakeInt i = int64Val i) /\ (~ in_int64 i -> MakeInt i = intVal i).
Proof.
  unfold MakeInt. split; intros H.
  - now rewrite (proj2 (in_int64b_true i) H).
  - now rewrite (proj2 (in_int64b_false i) H).
Qed.

(** The three parsers are tried in order and the first success wins. *)
Lemma MakeNumberFromLiteral_order s :
  MakeNumberFromLiteral s =
  match ParseInt s with
  | Ok i => Ok (int64Val i)
  | _ =>
      match big_SetString0 s with
      | Some bi => Ok (intVal bi)
      | None => f <- ParseFloat s ;; Ok (floatVal f)
      end
  end.
Proof.
  unfold MakeNumberFromLiteral, MakeInt64, MakeFloat.
  destruct (ParseInt s); try reflexivity;
    destruct (big_SetString0 s); try reflexivity;
    destruct (ParseFloat s); reflexivity.
Qed.

(** C7 (evaluation at the failing input).  The literal [0x10] is no decimal
    integer, so the base-0 parser reads it, and its result is wrapped as
    [intVal{bi}] without going through [MakeInt]: the value 16, which fits in
    64 bits, is stored in the big form, unlike [MakeInt 16] and unlike the
    decimal literal [16].  The parser produces this constant for the token
    [0x10].  [Cmp] still finds the two forms equal. *)
Theorem hex_literal_stored_in_big_form :
  MakeNumberFromLiteral (str "0x10") = Ok (intVal 16)
  /\ MakeNumberFromLiteral (str "16") = Ok (int64Val 16)
  /\ MakeInt 16 = int64Val 16
  /\ template.ParseExpr 10 (str "0x10") = Ok (template.Constant (intVal 16))
  /\ Cmp (intVal 16) (int64Val 16) = Ok (0, false).
Proof. repeat split; vm_compute; reflexivity. Qed.

(** ** Arrays *)

Lemma MakeArray_nonempty a : a <> [] -> MakeArray a = arrayVal a.
Proof.
  intros Ha. destruct a as [|x a]; [congruence|]. unfold MakeArray, len.
  destruct (Z.of_nat (List.length (x :: a)) =? 0) eqn:E; [|reflexivity].
  apply Z.eqb_eq in E. cbn [List.length] in E. lia.
Qed.

(** C9 (evaluation at the failing input).  [MakeArray] of no element is
    written [arrayVal{nil}]: the single element of the array is Go's nil
    interface where the null value is meant.  The array is not the
    single-null array that [ARRAY] makes of one NULL argument; its element is
    not [Null] and has no kind (the call panics); the subscript 1 hands the
    nil interface on as a constant; the array does not compare with itself,
    and comparing an integer array with it panics.  [ARRAY] on zero arguments
    compiles to this constant. *)
Theorem MakeArray_empty_holds_nil_interface :
  MakeArray [] = arrayVal [nilValue]
  /\ MakeArray [] <> arrayVal [Null]
  /\ MakeArray [Null] = arrayVal [Null]
  /\ isNull nilValue = false
  /\ Value_Kind (E:=error) nilValue = Panic nilDeref
  /\ dbgen.ArrayFunc_Compile [] = Ok (dbgen.Constant (arrayVal [nilValue]))
  /\ dbgen.ArrayFunc_Compile [Null] = Ok (dbgen.Constant (arrayVal [Null]))
  /\ dbgen.SubscriptFunc_Compile [MakeArray []; int64Val 1]
     = Ok (dbgen.Constant nilValue)
  /\ Cmp (MakeArray []) (MakeArray []) = Err (CompareError nilValue nilValue)
  /\ Cmp (arrayVal [int64Val 1]) (MakeArray []) = Panic nilDeref.
Proof.
  repeat split; try (vm_compute; reflexivity). discriminate.
Qed.

(** ** Subscripts *)

(** The index [n] of an integer value that fits in 64 bits. *)
Definition int64Index (i : Value) (n : Z) : Prop :=
  i = int64Val n \/ (i = intVal n /\ in_int64 n).

(** C10.  Subscripting is 1-based and total over integer indices: the
    [n]-th element for [1 <= n <= len a]; NULL for [n <= 0], for
    [n > len a], and for a big integer that does not fit in 64 bits; an
    error "subscript must be an integer" when the index has another kind; a
    conversion error when the base is not an array. *)
Theorem Subscript_spec :
  (forall a i n, int64Index i n -> 1 <= n <= len a ->
     exists v, nth_error a (Z.to_nat (n - 1)) = Some v
               /\ dbgen.SubscriptFunc_Compile [arrayVal a; i] = Ok (dbgen.Constant v))
  /\ (forall a i n, int64Index i n -> n <= 0 \/ n > len a ->
        dbgen.SubscriptFunc_Compile [arrayVal a; i] = Ok (dbgen.Constant Null))
  /\ (forall a n, ~ in_int64 n ->
        dbgen.SubscriptFunc_Compile [arrayVal a; intVal n] = Ok (dbgen.Constant Null))
  /\ (forall a i k, Value_Kind (E:=error) i = Ok k -> k <> KindInt ->
        dbgen.SubscriptFunc_Compile [arrayVal a; i]
        = Err (fmtError "subscript must be an integer, got %s" [argKind k]))
  /\ (forall b i, (forall a, b <> arrayVal a) ->
        dbgen.SubscriptFunc_Compile [b; i] = Err (ConvertError b "[]Value")).
Proof.
  assert (E0 : forall (x y : Value), at_ (E:=error) [x; y] 0 = Ok x) by reflexivity.
  assert (E1 : forall (x y : Value), at_ (E:=error) [x; y] 1 = Ok y) by reflexivity.
  repeat split.
  - intros a i n Hi Hn.
    assert (Hlt : (Z.to_nat (n - 1) < List.length a)%nat) by (unfold len in Hn; lia).
    destruct (nth_error a (Z.to_nat (n - 1))) as [v|] eqn:Ev;
      [|apply nth_error_None in Ev; lia].
    exists v. split; [reflexivity|].
    assert (Hat : at_ (E:=error) a (n - 1) = Ok v).
    { unfold at_. rewrite Ev.
      destruct ((0 <=? n - 1) && (n - 1 <? len a)) eqn:E; [reflexivity|lia]. }
    assert (Hc : (n <=? 0) || (n >? len a) = false) by lia.
    unfold dbgen.SubscriptFunc_Compile. rewrite E0, E1. cbn [bind AsArray].
    destruct Hi as [-> | [-> Hr]]; cbn [Value_Kind bind Kind_eqb negb IsInt64 AsInt64].
    + rewrite Hc, Hat. reflexivity.
    + rewrite (proj2 (in_int64b_true n) Hr). cbn [negb bind].
      rewrite Hc, Hat. reflexivity.
  - intros a i n Hi Hn.
    assert (Hc : (n <=? 0) || (n >? len a) = true) by lia.
    unfold dbgen.SubscriptFunc_Compile. rewrite E0, E1. cbn [bind AsArray].
    destruct Hi as [-> | [-> Hr]]; cbn [Value_Kind bind Kind_eqb negb IsInt64 AsInt64].
    + rewrite Hc. reflexivity.
    + rewrite (proj2 (in_int64b_true n) Hr). cbn [negb bind].
      rewrite Hc. reflexivity.
  - intros a n Hn. unfold dbgen.SubscriptFunc_Compile. rewrite E0, E1.
    cbn [bind AsArray Value_Kind Kind_eqb negb IsInt64].
    rewrite (proj2 (in_int64b_false n) Hn). reflexivity.
  - intros a i k Hk Hne. unfold dbgen.SubscriptFunc_Compile. rewrite E0, E1.
    cbn [bind AsArray]. rewrite Hk. cbn [bind].
    destruct k; try congruence; reflexivity.
  - intros b i Hb. unfold dbgen.SubscriptFunc_Compile. rewrite E0. cbn [bind].
    destruct b; try reflexivity. exfalso. now apply (Hb a).
Qed.

Lemma Subscript_spec_witness :
  dbgen.SubscriptFunc_Compile
    [arrayVal [bytesVal (str "a"); bytesVal (str "b")]; int64Val 3]
  = Ok (dbgen.Constant Null).
Proof.
  apply (proj1 (proj2 Subscript_spec)) with (n := 3).
  - left. reflexivity.
  - right. vm_compute. reflexivity.
Defined.

(** ** Qualified names *)

Lemma gostring_eqb_eq a b : gostring_eqb a b = true <-> a = b.
Proof.
  unfold gostring_eqb. destruct (list_eq_dec ascii_dec a b); split; congruence.
Qed.

(** The ways a name can be written in a template.  [quoteWith] is how the
    source itself quotes a name ([backQuote], [singleQuote]): the quote is
    doubled inside. *)
Inductive quoting := Bare | BackQuoted | DoubleQuoted | SingleQuoted | Bracketed.

Definition quoteWith (q : ascii) (s : gostring) : gostring :=
  [q] ++ strings.ReplaceAll s [q] [q; q] ++ [q].

Definition written (w : quoting * gostring) : gostring :=
  match fst w with
  | Bare => snd w
  | BackQuoted => quoteWith "`" (snd w)
  | DoubleQuoted => quoteWith template.dquote (snd w)
  | SingleQuoted => quoteWith "'" (snd w)
  | Bracketed => str "[" ++ snd w ++ str "]"
  end.

(** A bare name is read as it stands unless it begins like a quoted one. *)
Definition bare_ok (s : gostring) : Prop :=
  match s with
  | c :: _ :: _ =>
      c <> template.dquote /\ c <> "`"%char /\ c <> "'"%char /\ c <> "["%char
  | _ => True
  end.

Definition writable (w : quoting * gostring) : Prop :=
  match fst w with
  | Bare => bare_ok (snd w)
  | _ => True
  end.

Lemma ReplaceAll_double_cons q c s :
  strings.ReplaceAll (c :: s) [q] [q; q]
  = (if Ascii.eqb c q then [q; q] else [c]) ++ strings.ReplaceAll s [q] [q; q].
Proof.
  unfold strings.ReplaceAll. cbn. destruct (Ascii.eqb c q); reflexivity.
Qed.

Lemma ReplaceAll_undouble q s :
  strings.ReplaceAll (strings.ReplaceAll s [q] [q; q]) [q; q] [q] = s.
Proof.
  induction s as [|c s IH]; [reflexivity|].
  rewrite ReplaceAll_double_cons. destruct (Ascii.eqb c q) eqn:E.
  - apply Ascii.eqb_eq in E. subst c. unfold strings.ReplaceAll in *.
    cbn. rewrite Ascii.eqb_refl. cbn.
    destruct (strings.ReplaceAll_go 0 s [q] [q; q]) eqn:R; cbn in *.
    + now rewrite <- IH.
    + now rewrite IH.
  - unfold strings.ReplaceAll in *. cbn. rewrite E. cbn. now rewrite IH.
Qed.

Lemma removelast_snoc {A} (s : list A) (x : A) : removelast (s ++ [x]) = s.
Proof. now rewrite removelast_app, app_nil_r by discriminate. Qed.

Lemma len_quoted (q q' : ascii) (body : gostring) :
  (len (q :: body ++ [q']) <? 2) = false.
Proof.
  apply Z.ltb_ge. unfold len. cbn [List.length]. rewrite length_app.
  cbn [List.length]. lia.
Qed.

Lemma unescape_quoteWith q s :
  q = template.dquote \/ q = "`"%char \/ q = "'"%char ->
  template.unescape (quoteWith q s) = s.
Proof.
  intros Hq. unfold quoteWith, template.unescape.
  cbn [app]. rewrite len_quoted. rewrite removelast_snoc.
  replace (Ascii.eqb q template.dquote || Ascii.eqb q "`" || Ascii.eqb q "'")
    with true.
  - apply ReplaceAll_undouble.
  - destruct Hq as [-> | [-> | ->]]; reflexivity.
Qed.

Lemma unescape_bracketed s : template.unescape (str "[" ++ s ++ str "]") = s.
Proof.
  unfold template.unescape. cbn [str list_ascii_of_string app].
  rewrite len_quoted. cbn. apply removelast_snoc.
Qed.

Lemma unescape_bare s : bare_ok s -> template.unescape s = s.
Proof.
  unfold template.unescape, bare_ok. destruct s as [|c [|d s]]; try reflexivity.
  intros (H1 & H2 & H3 & H4).
  replace (len (c :: d :: s) <? 2) with false
    by (symmetry; apply Z.ltb_ge; unfold len; cbn [List.length]; lia).
  apply Ascii.eqb_neq in H1, H2, H3, H4. now rewrite H1, H2, H3, H4.
Qed.

Lemma unescape_written w : writable w -> template.unescape (written w) = snd w.
Proof.
  destruct w as [st s]. unfold writable, written. cbn [fst snd].
  destruct st; intros H.
  - now apply unescape_bare.
  - apply unescape_quoteWith. auto.
  - apply unescape_quoteWith. auto.
  - apply unescape_quoteWith. auto.
  - apply unescape_bracketed.
Qed.

(** Two writings of one name: any quoting, any letter case. *)
Definition same_name (w1 w2 : quoting * gostring) : Prop :=
  writable w1 /\ writable w2 /\ strings.ToLower (snd w1) = strings.ToLower (snd w2).

Lemma NewName_written w1 w2 :
  same_name w1 w2 ->
  template.Name_N (template.NewName (written w1))
  = template.Name_N (template.NewName (written w2)).
Proof.
  intros (H1 & H2 & H). cbn. now rewrite !unescape_written.
Qed.

(** C8.  [Equal] holds exactly when the unique names are the same string;
    the unique name is the normalized parts with every [.] replaced by
    [%2E], joined with [.]; the normalized part is the lower-cased,
    unquoted name.  Hence [Equal] is an equivalence relation, and two
    qualified names whose parts differ only in the quoting and in the case
    of letters are equal. *)
Theorem QName_Equal_spec :
  (forall q p, template.Equal q p = true <-> template.UniqueName q = template.UniqueName p)
  /\ (forall q,
        template.UniqueName q
        = strings.Join
            (map (fun part => strings.ReplaceAll (template.Name_N part) (str ".") (str "%2E"))
                 (template.Parts q))
            (str "."))
  /\ (forall name,
        template.Name_N (template.NewName name)
        = strings.ToLower (template.unescape name))
  /\ (forall w, writable w -> template.unescape (written w) = snd w)
  /\ (forall q, template.Equal q q = true)
  /\ (forall q p, template.Equal q p = true -> template.Equal p q = true)
  /\ (forall q p r, template.Equal q p = true -> template.Equal p r = true ->
                    template.Equal q r = true)
  /\ (forall ws1 ws2, Forall2 same_name ws1 ws2 ->
        template.Equal (template.NewQName (map written ws1))
                       (template.NewQName (map written ws2)) = true).
Proof.
  assert (Hiff : forall q p,
    template.Equal q p = true <-> template.UniqueName q = template.UniqueName p)
    by (intros q p; apply gostring_eqb_eq).
  repeat split; try reflexivity.
  - apply Hiff.
  - apply Hiff.
  - apply unescape_written.
  - intros q. now apply Hiff.
  - intros q p H. apply Hiff. symmetry. now apply Hiff.
  - intros q p r H1 H2. apply Hiff. transitivity (template.UniqueName p); now apply Hiff.
  - intros ws1 ws2 H. apply Hiff. unfold template.UniqueName, template.NewQName.
    cbn [template.Parts]. f_equal.
    induction H as [|w1 w2 ws1 ws2 Hw Hws IH]; [reflexivity|].
    cbn [map]. rewrite IH. f_equal. f_equal. now apply NewName_written.
Qed.

Lemma QName_Equal_spec_witness :
  template.Equal
    (template.NewQName [str "`My``DB`"; str "[Schema]"; str "t.x"])
    (template.NewQName
       [written (DoubleQuoted, str "my`db"); written (Bare, str "SCHEMA");
        written (SingleQuoted, str "T.X")])
  = true.
Proof.
  apply (proj2 (proj2 (proj2 (proj2 (proj2 (proj2 (proj2 QName_Equal_spec)))))))
    with (ws1 := [(BackQuoted, str "My`DB"); (Bracketed, str "Schema"); (Bare, str "t.x")])
         (ws2 := [(DoubleQuoted, str "my`db"); (Bare, str "SCHEMA"); (SingleQuoted, str "T.X")]).
  repeat constructor; try reflexivity; cbn; repeat split; discriminate.
Defined.

(** The scenario of the specification and two rows of the test table. *)
Lemma UniqueName_examples :
  template.UniqueName
    (template.NewQName
       [ [template.dquote] ++ str "d" ++ [template.dquote; template.dquote]
           ++ str "b" ++ [template.dquote];
         str "[schema]"; str "`ta``ble`" ])
  = str "d" ++ [template.dquote] ++ str "b.schema.ta`ble"
  /\ template.UniqueName (template.NewQName [str "'d.b'"; str "`sch-ema`"; str "'tab/le'"])
     = str "d%2Eb.sch-ema.tab/le"
  /\ template.UniqueName (template.NewQName [str "db"; str "SCHEMA"; str "table"])
     = str "db.schema.table".
Proof. repeat split; vm_compute; reflexivity. Qed.

(** ** generate_series *)

(** Integer values: a 64-bit one holds an [int64]. *)
Definition wfInt (v : Value) : Prop :=
  match v with
  | int64Val i => in_int64 i
  | intVal _ => True
  | _ => False
  end.

Definition intOf (v : Value) : Z :=
  match v with
  | int64Val i | intVal i => i
  | _ => 0
  end.

Lemma numberCmp_sgn a b : numberCmp a b = Z.sgn (a - b).
Proof.
  unfold numberCmp. destruct (a <? b) eqn:E1; [|destruct (a >? b) eqn:E2]; lia.
Qed.

Lemma Cmp_int a b :
  wfInt a -> wfInt b -> Cmp a b = Ok (Z.sgn (intOf a - intOf b), false).
Proof.
  destruct a as [| | | |a|a| | | |]; cbn [wfInt]; try contradiction;
    destruct b as [| | | |b|b| | | |]; cbn [wfInt]; try contradiction;
    intros Ha Hb; cbn.
  - reflexivity.
  - reflexivity.
  - destruct (in_int64b b); cbn; now rewrite ?numberCmp_sgn.
  - now rewrite numberCmp_sgn.
Qed.

Lemma Sign_int v : wfInt v -> Sign v = Z.sgn (intOf v).
Proof.
  destruct v; cbn; try contradiction; intros _; [reflexivity|].
  rewrite numberCmp_sgn. f_equal. lia.
Qed.

(** [Add] on integer values is the exact sum. *)
Lemma Add_int a b :
  wfInt a -> wfInt b ->
  exists c, Add a b = Ok c /\ wfInt c /\ intOf c = intOf a + intOf b.
Proof.
  destruct a as [| | | |a|a| | | |]; cbn [wfInt]; try contradiction;
    destruct b as [| | | |b|b| | | |]; cbn [wfInt]; try contradiction;
    intros Ha Hb.
  - eexists. split; [reflexivity|]. split; [exact I|reflexivity].
  - eexists. split; [reflexivity|]. split; [exact I|reflexivity].
  - destruct (in_int64b b) eqn:Eb.
    + assert (Hsame : Add (int64Val a) (intVal b) = Add (int64Val a) (int64Val b))
        by (unfold Add; cbn; rewrite Eb; cbn;
            destruct (Bool.eqb (wrap64 (a + b) >? a) (b >? 0)); reflexivity).
      apply in_int64b_true in Eb. rewrite Hsame.
      exists (MakeInt (a + b)). split; [now apply Add_int64_exact|].
      unfold MakeInt. destruct (in_int64b (a + b)) eqn:E; cbn; [|auto].
      apply in_int64b_true in E. auto.
    + eexists. unfold Add. cbn. rewrite Eb. cbn.
      split; [reflexivity|]. split; [exact I|reflexivity].
  - exists (MakeInt (a + b)). split; [now apply Add_int64_exact|].
    unfold MakeInt. destruct (in_int64b (a + b)) eqn:E; cbn; [|auto].
    apply in_int64b_true in E. auto.
Qed.

Lemma GenerateSeries_loop_S f acc v stop step s :
  dbgen.GenerateSeries_loop (S f) acc v stop step s
  = ('(cmp, isNull) <- Cmp v stop ;;
     if isNull || (cmp =? s) then Ok acc
     else v' <- Add v step ;;
          dbgen.GenerateSeries_loop f (acc ++ [v]) v' stop step s).
Proof. reflexivity. Qed.

(** [x] is strictly past [stop] in the direction of [step]. *)
Definition past (step stop x : Z) : Prop :=
  (0 < step /\ stop < x) \/ (step < 0 /\ x < stop).

Lemma past_sgn step stop x :
  step <> 0 -> (Z.sgn (x - stop) = Z.sgn step <-> past step stop x).
Proof. unfold past. lia. Qed.

(** The terms [x, x + step, ...] of a series, [n] of them. *)
Definition terms (x step : Z) (n : nat) : list Z :=
  map (fun k => x + Z.of_nat k * step) (seq 0 n).

Lemma terms_S x step n : terms x step (S n) = x :: terms (x + step) step n.
Proof.
  unfold terms. cbn [seq map]. f_equal; [lia|].
  rewrite <- seq_shift, map_map. apply map_ext. intros k. lia.
Qed.

Lemma GenerateSeries_loop_int stop step :
  wfInt stop -> wfInt step -> intOf step <> 0 ->
  forall (k : nat) v acc,
    wfInt v ->
    (intOf stop - intOf v) * Z.sgn (intOf step) < Z.of_nat k ->
    exists vs,
      (forall fuel, (List.length vs < fuel)%nat ->
         dbgen.GenerateSeries_loop fuel acc v stop step (Z.sgn (intOf step))
         = Ok (acc ++ vs))
      /\ Forall wfInt vs
      /\ map intOf vs = terms (intOf v) (intOf step) (List.length vs)
      /\ (forall x, In x (map intOf vs) -> ~ past (intOf step) (intOf stop) x)
      /\ past (intOf step) (intOf stop)
              (intOf v + Z.of_nat (List.length vs) * intOf step).
Proof.
  intros Hstop Hstep Hnz. induction k as [|k IH]; intros v acc Hv Hd.
  - (* the bound says that [v] is already past [stop] *)
    exists []. assert (Hp : past (intOf step) (intOf stop) (intOf v))
      by (unfold past; nia).
    repeat split; cbn [List.length map].
    + intros [|f] Hf; [lia|]. rewrite GenerateSeries_loop_S, Cmp_int by assumption.
      cbn [bind]. rewrite (proj2 (Z.eqb_eq _ _) (proj2 (past_sgn _ _ _ Hnz) Hp)).
      now rewrite app_nil_r.
    + constructor.
    + intros x [].
    + now rewrite Z.add_0_r.
  - destruct (Z.eqb_spec (Z.sgn (intOf v - intOf stop)) (Z.sgn (intOf step))) as [E|E].
    + exists []. assert (Hp : past (intOf step) (intOf stop) (intOf v))
        by (now apply past_sgn).
      repeat split; cbn [List.length map].
      * intros [|f] Hf; [lia|]. rewrite GenerateSeries_loop_S, Cmp_int by assumption.
        cbn [bind]. rewrite (proj2 (Z.eqb_eq _ _) E). now rewrite app_nil_r.
      * constructor.
      * intros x [].
      * now rewrite Z.add_0_r.
    + assert (Hnp : ~ past (intOf step) (intOf stop) (intOf v))
        by (intros Hp; apply E; now apply past_sgn).
      destruct (Add_int v step Hv Hstep) as (v' & Hadd & Hv' & Hsum).
      destruct (IH v' (acc ++ [v]) Hv') as (vs & Hrun & Hwf & Hmap & Hin & Hlast).
      { rewrite Hsum. unfold past in Hnp. nia. }
      exists (v :: vs). cbn [List.length map]. repeat split.
      * intros [|f] Hf; [lia|]. rewrite GenerateSeries_loop_S, Cmp_int by assumption.
        cbn [bind]. rewrite (proj2 (Z.eqb_neq _ _) E). cbn [orb].
        rewrite Hadd. cbn [bind]. rewrite Hrun by lia.
        now rewrite <- app_assoc.
      * now constructor.
      * rewrite terms_S, Hmap, Hsum. reflexivity.
      * intros x [<- | Hx]; [exact Hnp | now apply Hin].
      * rewrite Hsum in Hlast.
        replace (intOf v + Z.of_nat (S (List.length vs)) * intOf step)
          with (intOf v + intOf step + Z.of_nat (List.length vs) * intOf step) by lia.
        exact Hlast.
Qed.

Lemma GenerateSeriesFunc_Compile_3 fuel start stop step :
  dbgen.GenerateSeriesFunc_Compile fuel [start; stop; step]
  = if Sign step =? 0
    then Err (fmtError "generate_series step cannot be zero" [])
    else result <- dbgen.GenerateSeries_loop fuel [] start stop step (Sign step) ;;
         Ok (dbgen.Constant (MakeArray result)).
Proof.
  unfold dbgen.GenerateSeriesFunc_Compile.
  change (len [start; stop; step]) with 3.
  change (at_ (E:=error) [start; stop; step] 0) with (Ok (E:=error) start).
  change (at_ (E:=error) [start; stop; step] 1) with (Ok (E:=error) stop).
  change (at_ (E:=error) [start; stop; step] 2) with (Ok (E:=error) step).
  change (3 <? 2) with false. change (3 >? 3) with false. change (3 =? 3) with true.
  cbn [bind]. destruct (Sign step =? 0); reflexivity.
Qed.

(** C6 (evaluation at the failing input).  [generate_series(5, 1, 1)] has
    no value: the start is already past the stop.  The result is not the
    array of no value: it goes through [MakeArray], which makes of the empty
    list a one-element array that holds the nil interface, an element without
    a kind.  The same happens in the other direction, and with the default
    step.  On the example of the specification the code is right, and a step
    of zero is refused as the specification says. *)
Theorem generate_series_of_no_value :
  dbgen.GenerateSeriesFunc_Compile 10 [int64Val 5; int64Val 1; int64Val 1]
    = Ok (dbgen.Constant (arrayVal [nilValue]))
  /\ dbgen.GenerateSeriesFunc_Compile 10 [int64Val 5; int64Val 1; int64Val 1]
     <> Ok (dbgen.Constant (arrayVal []))
  /\ Value_Kind (E:=error) nilValue = Panic nilDeref
  /\ dbgen.GenerateSeriesFunc_Compile 10 [int64Val 1; int64Val 5; int64Val (-1)]
     = Ok (dbgen.Constant (arrayVal [nilValue]))
  /\ dbgen.GenerateSeriesFunc_Compile 10 [int64Val 5; int64Val 1]
     = Ok (dbgen.Constant (arrayVal [nilValue]))
  /\ dbgen.GenerateSeriesFunc_Compile 10 [int64Val 1; int64Val 5; int64Val 2]
     = Ok (dbgen.Constant (arrayVal [int64Val 1; int64Val 3; int64Val 5]))
  /\ dbgen.GenerateSeriesFunc_Compile 10 [int64Val 1; int64Val 5; int64Val 0]
     = Err (fmtError "generate_series step cannot be zero" []).
Proof.
  repeat split; try (vm_compute; reflexivity). vm_compute. discriminate.
Qed.

(** [generate_series] on integers, as the code computes it.  For integers
    [start], [stop] and [step <> 0], in the 64-bit or in the big form, and
    with the fuel the loop needs, the call returns [MakeArray] of the values
    [start + k * step], [k = 0, 1, ...], as long as they are not strictly
    past [stop] in the direction of [step] ([stop] itself included when it is
    reached): the array of these values when there is at least one, and the
    one-element array of [MakeArray []] when [start] is already past [stop].
    A step whose sign is zero is refused with "generate_series step cannot
    be zero", whatever the other arguments. *)
Theorem generate_series_of_integers :
  (forall start stop step,
     wfInt start -> wfInt stop -> wfInt step -> intOf step <> 0 ->
     exists vs,
       (forall fuel, (List.length vs < fuel)%nat ->
          dbgen.GenerateSeriesFunc_Compile fuel [start; stop; step]
          = Ok (dbgen.Constant (MakeArray vs)))
       /\ Forall wfInt vs
       /\ map intOf vs = terms (intOf start) (intOf step) (List.length vs)
       /\ (forall x, In x (map intOf vs) -> ~ past (intOf step) (intOf stop) x)
       /\ past (intOf step) (intOf stop)
               (intOf start + Z.of_nat (List.length vs) * intOf step)
       /\ (vs <> [] -> MakeArray vs = arrayVal vs)
       /\ (vs = [] -> MakeArray vs = arrayVal [nilValue]))
  /\ (forall fuel start stop step,
        Sign step = 0 ->
        dbgen.GenerateSeriesFunc_Compile fuel [start; stop; step]
        = Err (fmtError "generate_series step cannot be zero" []))
  /\ dbgen.GenerateSeriesFunc_Compile 4 [int64Val 1; int64Val 5; int64Val 2]
     = Ok (dbgen.Constant (arrayVal [int64Val 1; int64Val 3; int64Val 5])).
Proof.
  split; [|split].
  - intros start stop step Hstart Hstop Hstep Hnz.
    destruct (GenerateSeries_loop_int stop step Hstop Hstep Hnz
                (Z.to_nat (Z.abs (intOf stop - intOf start) + 1)) start [] Hstart)
      as (vs & Hrun & Hwf & Hmap & Hin & Hlast).
    { pose proof (Z.sgn_spec (intOf step)). nia. }
    exists vs. repeat split; try assumption.
    + intros fuel Hf. rewrite GenerateSeriesFunc_Compile_3, (Sign_int _ Hstep).
      destruct (Z.eqb_spec (Z.sgn (intOf step)) 0) as [E|E]; [lia|].
      rewrite (Hrun fuel Hf). reflexivity.
    + apply MakeArray_nonempty.
    + intros ->. reflexivity.
  - intros fuel start stop step Hs. rewrite GenerateSeriesFunc_Compile_3, Hs.
    reflexivity.
  - vm_compute. reflexivity.
Qed.

Lemma generate_series_of_integers_witness :
  exists vs,
    (forall fuel, (List.length vs < fuel)%nat ->
       dbgen.GenerateSeriesFunc_Compile fuel [int64Val 1; intVal 7; int64Val 3]
       = Ok (dbgen.Constant (MakeArray vs)))
    /\ map intOf vs = terms 1 3 (List.length vs).
Proof.
  destruct (proj1 generate_series_of_integers (int64Val 1) (intVal 7) (int64Val 3))
    as (vs & H1 & _ & H3 & _).
  - unfold wfInt, in_int64, MinInt64, MaxInt64. lia.
  - exact I.
  - unfold wfInt, in_int64, MinInt64, MaxInt64. lia.
  - discriminate.
  - exists vs. split; assumption.
Defined.

(** ** Searching in strings *)







(** ** The lexer: comments and commented blocks *)

Import template.

Lemma nth_error_skipn_add {A} (s : list A) (p n : nat) :
  nth_error (skipn p s) n = nth_error s (p + n).
Proof.
  revert s. induction p as [|p IH]; intros s; [reflexivity|].
  destruct s as [|x s]; [now destruct n | apply IH].
Qed.

Lemma peekN_at l n c :
  0 <= lpos l -> 0 <= n ->
  nth_error (skipn (Z.to_nat (lpos l)) (in_ l)) (Z.to_nat n) = Some c ->
  peekN l n = chr c.
Proof.
  intros Hp Hn H. unfold peekN. rewrite nth_error_skipn_add in H.
  replace (Z.to_nat (lpos l + n)) with (Z.to_nat (lpos l) + Z.to_nat n)%nat by lia.
  assert (Hlt : (Z.to_nat (lpos l) + Z.to_nat n < List.length (in_ l))%nat)
    by (apply nth_error_Some; congruence).
  rewrite H. destruct (lpos l + n >=? len (in_ l)) eqn:E; [|reflexivity].
  unfold len in E. lia.
Qed.

Lemma slice_ok {E A} (s : list A) lo hi :
  0 <= lo -> lo <= hi -> hi <= len s ->
  slice (E:=E) s lo hi = Ok (firstn (Z.to_nat (hi - lo)) (skipn (Z.to_nat lo) s)).
Proof.
  intros H1 H2 H3. unfold slice.
  destruct ((0 <=? lo) && (lo <=? hi) && (hi <=? len s)) eqn:E0; [reflexivity|lia].
Qed.



(** [next] and [advance] move the position and nothing else but the line
    count. *)
Lemma next_fields l :
  lpos (snd (next l)) = (if lpos l <? len (in_ l) then lpos l + 1 else lpos l)
  /\ in_ (snd (next l)) = in_ l /\ start (snd (next l)) = start l
  /\ startLine (snd (next l)) = startLine l /\ startCol (snd (next l)) = startCol l
  /\ insideBlock (snd (next l)) = insideBlock l.
Proof.
  unfold next. destruct (peek l =? newline); cbn;
    destruct (lpos l <? len (in_ l)); cbn; repeat split; reflexivity.
Qed.







Lemma firstn_prefix (p t : gostring) : firstn (Z.to_nat (len p)) (p ++ t) = p.
Proof.
  unfold len. rewrite Nat2Z.id. rewrite firstn_app, Nat.sub_diag, firstn_all.
  cbn. apply app_nil_r.
Qed.




(** The search for the closing [*/] starts at the opener itself: in [/*/]
    the [*] of the opener closes the comment. *)
Remark comment_closed_by_its_opener :
  lexAll (E:=unit) 10 (newLexer (str "/*/ x */"))
  = Ok [ {| typ := tokenComment; pos := 0; val := str "/*/"; line := 1; col := 1 |};
         {| typ := tokenX; pos := 4; val := str "x"; line := 1; col := 5 |};
         {| typ := tokenMul; pos := 6; val := str "*"; line := 1; col := 7 |};
         {| typ := tokenFloatDiv; pos := 7; val := str "/"; line := 1; col := 8 |};
         {| typ := tokenEOF; pos := 8; val := []; line := 1; col := 9 |} ].
Proof. vm_compute. reflexivity. Qed.

(** ** The content of a table *)

(** [s[lo:hi]] when it is in range. *)
Definition sub (s : gostring) (lo hi : Z) : gostring :=
  firstn (Z.to_nat (hi - lo)) (skipn (Z.to_nat lo) s).

(** No two adjacent bytes of [s] are both [c]. *)
Fixpoint noDouble (c : ascii) (s : gostring) : bool :=
  match s with
  | a :: (b :: _) as t => negb (Ascii.eqb a c && Ascii.eqb b c) && noDouble c t
  | _ => true
  end.








Lemma noDouble_single c x : noDouble c [x] = true.
Proof. reflexivity. Qed.




Lemma len_sub (s : gostring) lo hi :
  0 <= lo -> lo <= hi -> hi <= len s -> len (sub s lo hi) = hi - lo.
Proof.
  intros H0 H1 H2. unfold sub, len in *. rewrite length_firstn, length_skipn. lia.
Qed.

Lemma slice_sub {E} (s : gostring) lo hi :
  0 <= lo -> lo <= hi -> hi <= len s -> slice (E:=E) s lo hi = Ok (sub s lo hi).
Proof. apply slice_ok. Qed.


Lemma skipn_nth_cons {A} (n : nat) : forall (s : list A) c,
  nth_error s n = Some c -> skipn n s = c :: skipn (S n) s.
Proof.
  induction n as [|n IH]; intros [|x s] c H; try discriminate.
  - now injection H as ->.
  - cbn [nth_error] in H. change (skipn (S n) (x :: s)) with (skipn n s).
    now rewrite (IH s c H).
Qed.

(** Whether every byte of [input[lo:hi]] satisfies [pred] (the empty range
    when [hi <= lo]). *)
Definition allIn (pred : Z -> bool) (input : gostring) (lo hi : Z) : bool :=
  forallb (fun c => pred (chr c)) (sub input lo hi).

Lemma allBytes_spec {E} pred input : forall n i,
  0 <= i -> i + Z.of_nat n <= len input ->
  allBytes (E:=E) n pred input i
  = Ok (forallb (fun c => pred (chr c)) (firstn n (skipn (Z.to_nat i) input))).
Proof.
  induction n as [|n IH]; intros i H0 H1; [reflexivity|].
  cbn [allBytes]. unfold at_.
  destruct ((0 <=? i) && (i <? len input)) eqn:Eb; [|lia].
  destruct (nth_error input (Z.to_nat i)) as [c|] eqn:En.
  - cbn [bind]. rewrite (skipn_nth_cons _ _ _ En). cbn [firstn forallb].
    destruct (pred (chr c)); cbn [negb andb]; [|reflexivity].
    rewrite IH by lia. replace (Z.to_nat (i + 1)) with (S (Z.to_nat i)) by lia.
    reflexivity.
  - apply nth_error_None in En. unfold len in H1. lia.
Qed.

Lemma allBetween_ok {E} pred input lo hi :
  0 <= lo -> hi <= len input ->
  allBetween (E:=E) pred input lo hi = Ok (allIn pred input lo hi).
Proof.
  intros H0 H1. unfold allBetween, allIn, sub.
  destruct (Z.le_gt_cases lo hi) as [Hle|Hgt].
  - apply allBytes_spec; lia.
  - replace (Z.to_nat (hi - lo)) with 0%nat by lia. reflexivity.
Qed.

Lemma forallb_firstn {A} (f : A -> bool) n : forall s,
  forallb f s = true -> forallb f (firstn n s) = true.
Proof.
  induction n as [|n IH]; intros [|x s] H; try reflexivity.
  cbn [firstn forallb] in *. apply andb_true_iff in H. destruct H as (H1 & H2).
  now rewrite H1, IH.
Qed.

Lemma allIn_empty pred input lo hi : hi <= lo -> allIn pred input lo hi = true.
Proof.
  intros H. unfold allIn, sub. now replace (Z.to_nat (hi - lo)) with 0%nat by lia.
Qed.

Lemma allIn_shorter pred input lo hi hi' :
  hi' <= hi -> allIn pred input lo hi = true -> allIn pred input lo hi' = true.
Proof.
  intros H Ha. unfold allIn, sub in *.
  replace (Z.to_nat (hi' - lo)) with (Nat.min (Z.to_nat (hi' - lo)) (Z.to_nat (hi - lo))) by lia.
  rewrite <- firstn_firstn. now apply forallb_firstn.
Qed.

Lemma allIn_weaken (p q : Z -> bool) input lo hi :
  (forall c, p c = true -> q c = true) ->
  allIn p input lo hi = true -> allIn q input lo hi = true.
Proof.
  intros Hpq. unfold allIn. generalize (sub input lo hi) as s.
  induction s as [|x s IH]; [reflexivity|]. cbn [forallb]. intros H.
  apply andb_true_iff in H. destruct H as (H1 & H2). now rewrite (Hpq _ H1), IH.
Qed.

Lemma isSpace_isWhitespace c : isSpace c = true -> isWhitespace c = true.
Proof.
  unfold isSpace, isWhitespace. intros H.
  repeat (apply orb_true_iff in H; destruct H as [H|H]); rewrite H;
    rewrite ?orb_true_r; reflexivity.
Qed.

(** A span that is separated from [r] by something else than whitespace
    starts after any run of spaces that starts at [r]. *)
Lemma next_span_after input r m l2 :
  allIn isSpace input r m = true -> allIn isWhitespace input r l2 = false -> m < l2.
Proof.
  intros Hs Hw. destruct (Z.lt_ge_cases m l2) as [H|H]; [exact H|].
  apply (allIn_shorter _ _ _ _ l2 H) in Hs.
  apply (allIn_weaken _ _ _ _ _ isSpace_isWhitespace) in Hs. congruence.
Qed.

Lemma IndexByte_from_range s c : forall off,
  strings.IndexByte_from off s c = -1
  \/ off <= strings.IndexByte_from off s c < off + len s.
Proof.
  induction s as [|x s IH]; intros off; cbn [strings.IndexByte_from]; [now left|].
  destruct (Ascii.eqb x c).
  - right. unfold len. cbn [List.length]. lia.
  - destruct (IH (off + 1)) as [H|H]; [now left|].
    right. unfold len in *. cbn [List.length]. lia.
Qed.

Lemma LastIndexByte_from_range s c : forall off,
  strings.LastIndexByte_from off s c = -1
  \/ off <= strings.LastIndexByte_from off s c < off + len s.
Proof.
  induction s as [|x s IH]; intros off; cbn [strings.LastIndexByte_from]; [now left|].
  cbv zeta. destruct (0 <=? strings.LastIndexByte_from (off + 1) s c) eqn:Er.
  - destruct (IH (off + 1)) as [H|H]; [lia|].
    right. unfold len in *. cbn [List.length]. lia.
  - destruct (Ascii.eqb x c); [|now left].
    right. unfold len. cbn [List.length]. lia.
Qed.

(** The spans lie in order between [lo] and [hi]. *)
Fixpoint ordered (lo hi : Z) (spans : list (Z * Z)) : bool :=
  match spans with
  | [] => lo <=? hi
  | (l, r) :: rest => (lo <=? l) && (l <=? r) && ordered r hi rest
  end.


(** Something else than whitespace stands between two consecutive spans. *)
Fixpoint separated (input : gostring) (spans : list (Z * Z)) : bool :=
  match spans with
  | (_, r1) :: rest =>
      match rest with
      | (l2, _) :: _ => negb (allIn isWhitespace input r1 l2)
      | [] => true
      end && separated input rest
  | [] => true
  end.

(** What the loop of [mergeBlockSpans] appends to [merged]. *)
Fixpoint merge (input : gostring) (last : Z * Z) (spans : list (Z * Z)) : list (Z * Z) :=
  match spans with
  | [] => [last]
  | span :: rest =>
      if allIn isWhitespace input (snd last) (fst span)
      then merge input (fst last, snd span) rest
      else last :: merge input span rest
  end.

Lemma ordered_le hi spans : forall lo, ordered lo hi spans = true -> lo <= hi.
Proof.
  induction spans as [|[l r] rest IH]; intros lo H; cbn [ordered] in H; [lia|].
  apply andb_true_iff in H. destruct H as (H1 & H2).
  apply IH in H2. lia.
Qed.

Lemma ordered_cons lo hi l r rest :
  ordered lo hi ((l, r) :: rest) = true
  <-> lo <= l /\ l <= r /\ ordered r hi rest = true.
Proof. cbn [ordered]. rewrite !andb_true_iff, !Z.leb_le. tauto. Qed.

Lemma mergeBlockSpans_loop_spec {E} input hi : forall spans merged last lo,
  0 <= lo -> hi <= len input -> ordered lo hi (last :: spans) = true ->
  mergeBlockSpans_loop (E:=E) input merged last spans
  = Ok (merged ++ merge input last spans).
Proof.
  induction spans as [|[l2 r2] rest IH]; intros merged [l1 r1] lo H0 H1 Ho;
    [reflexivity|].
  apply ordered_cons in Ho. destruct Ho as (Ha & Hb & Ho).
  pose proof (proj1 (ordered_cons _ _ _ _ _) Ho) as (Hc & Hd & Ho').
  pose proof (ordered_le _ _ _ Ho') as He.
  cbn [mergeBlockSpans_loop merge fst snd]. rewrite allBetween_ok by lia. cbn [bind].
  destruct (allIn isWhitespace input r1 l2).
  - apply (IH _ _ lo); [lia | lia |]. apply ordered_cons. repeat split; [lia | lia | exact Ho'].
  - rewrite (IH _ _ r1); [| lia | lia | exact Ho].
    now rewrite <- app_assoc.
Qed.

Lemma merge_head input spans : forall l1 r1,
  exists r t, merge input (l1, r1) spans = (l1, r) :: t.
Proof.
  induction spans as [|[l2 r2] rest IH]; intros l1 r1; cbn [merge fst snd].
  - now exists r1, [].
  - destruct (allIn isWhitespace input r1 l2); [apply IH|].
    now exists r1, (merge input (l2, r2) rest).
Qed.

Lemma merge_ordered input hi spans : forall last lo,
  ordered lo hi (last :: spans) = true -> ordered lo hi (merge input last spans) = true.
Proof.
  induction spans as [|[l2 r2] rest IH]; intros [l1 r1] lo Ho; [exact Ho|].
  cbn [merge fst snd].
  pose proof (proj1 (ordered_cons _ _ _ _ _) Ho) as (Ha & Hb & Ho1).
  pose proof (proj1 (ordered_cons _ _ _ _ _) Ho1) as (Hc & Hd & Ho2).
  destruct (allIn isWhitespace input r1 l2).
  - apply IH. apply ordered_cons. repeat split; [lia | lia | exact Ho2].
  - apply ordered_cons. repeat split; [lia | lia |]. apply IH, Ho1.
Qed.


Lemma merge_separated input spans : forall last,
  separated input (merge input last spans) = true.
Proof.
  induction spans as [|[l2 r2] rest IH]; intros [l1 r1]; [reflexivity|].
  cbn [merge fst snd]. destruct (allIn isWhitespace input r1 l2) eqn:Ea; [apply IH|].
  pose proof (IH (l2, r2)) as Hs.
  destruct (merge_head input rest l2 r2) as (r & t & Em). rewrite Em in *.
  cbn [separated] in *. rewrite Ea. cbn [negb andb]. exact Hs.
Qed.

(** The position after a span may move right as long as it stays before the
    next span. *)
Lemma ordered_advance hi r r' rest :
  0 <= r -> r <= r' -> r' <= hi ->
  (forall l2 r2 t, rest = (l2, r2) :: t -> r' <= l2) ->
  ordered r hi rest = true -> ordered r' hi rest = true.
Proof.
  intros H0 H1 H2 Hn Ho. destruct rest as [|[l2 r2] t]; cbn [ordered] in *; [lia|].
  specialize (Hn l2 r2 t eq_refl).
  apply andb_true_iff in Ho. destruct Ho as (Ho1 & Ho2). rewrite Ho2.
  apply andb_true_iff in Ho1. destruct Ho1 as (Ho1 & Ho3). rewrite Ho3.
  rewrite andb_true_r. lia.
Qed.






(** The parser on that statement: the content is the statement without its
    block. *)
Remark Content_example :
  option_map (map template.Content)
    (match template.Parse 100 (str "CREATE TABLE t (a INT {{ rownum }});") with
     | Ok t => Some (template.Tables t)
     | _ => None
     end)
  = Some [str "CREATE TABLE t (a INT );"].
Proof. vm_compute. reflexivity. Qed.

(* ================================================================== *)
(** * Further properties *)

(** ** Integer values in their two representations *)

(** The six comparison operators as they read on integers. *)
Definition compareOp (op : template.Op) (a b : Z) : option bool :=
  match op with
  | template.OpLT => Some (a <? b)
  | template.OpLE => Some (a <=? b)
  | template.OpEQ => Some (a =? b)
  | template.OpNE => Some (negb (a =? b))
  | template.OpGT => Some (a >? b)
  | template.OpGE => Some (a >=? b)
  | _ => None
  end.

(** [Cmp] orders integer values by their value, whatever the representation
    of either side, and the function that [BinaryFuncs] gives each of the six
    comparison operators returns the boolean of the comparison of the two
    integers. *)
Theorem comparison_of_integers a b :
  wfInt a -> wfInt b ->
  Cmp a b = Ok (Z.sgn (intOf a - intOf b), false)
  /\ forall op r, compareOp op (intOf a) (intOf b) = Some r ->
       exists LT EQ GT,
         dbgen.BinaryFuncs op = Some (dbgen.CompareFunc LT EQ GT)
         /\ dbgen.CompareFunc_Compile LT EQ GT [a; b]
            = Ok (dbgen.Constant (boolVal r)).
Proof.
  intros Ha Hb. pose proof (Cmp_int a b Ha Hb) as Hc. split; [exact Hc|].
  intros op r Hop.
  assert (Hgo : forall LT EQ GT,
             dbgen.CompareFunc_Compile LT EQ GT [a; b]
             = Ok (dbgen.Constant
                     (boolVal (if intOf a <? intOf b then LT
                               else if intOf a =? intOf b then EQ else GT)))).
  { intros LT EQ GT. unfold dbgen.CompareFunc_Compile.
    change (at_ (E:=error) [a; b] 0) with (Ok (E:=error) a).
    change (at_ (E:=error) [a; b] 1) with (Ok (E:=error) b).
    cbn [bind]. rewrite Hc. cbn [bind].
    destruct (intOf a <? intOf b) eqn:E1.
    - replace (Z.sgn (intOf a - intOf b)) with (-1) by lia. reflexivity.
    - destruct (intOf a =? intOf b) eqn:E2.
      + replace (Z.sgn (intOf a - intOf b)) with 0 by lia. reflexivity.
      + replace (Z.sgn (intOf a - intOf b)) with 1 by lia. reflexivity. }
  destruct op; cbn [compareOp] in Hop; try discriminate; injection Hop as <-;
    do 3 eexists; (split; [reflexivity|]); rewrite Hgo;
    do 3 f_equal;
    destruct (intOf a <? intOf b) eqn:E1; destruct (intOf a =? intOf b) eqn:E2;
    lia.
Qed.

Lemma comparison_of_integers_witness :
  Cmp (int64Val 3) (intVal 18446744073709551616) = Ok (-1, false)
  /\ dbgen.CompareFunc_Compile true true false [int64Val 3; intVal 18446744073709551616]
     = Ok (dbgen.Constant (boolVal true)).
Proof.
  destruct (comparison_of_integers (int64Val 3) (intVal 18446744073709551616))
    as (Hc & Hop).
  - cbn. unfold in_int64, MinInt64, MaxInt64. lia.
  - exact I.
  - split; [exact Hc|].
    destruct (Hop template.OpLE true eq_refl) as (LT & EQ & GT & Hf & Hr).
    injection Hf as <- <- <-. exact Hr.
Defined.

(** [Neg] is exact on every integer value: the negation of [MinInt64] leaves
    the 64-bit form instead of wrapping.  A value plus its negation compares
    equal to zero. *)
Theorem Neg_of_integers v :
  wfInt v ->
  exists n s,
    Neg v = Ok n /\ wfInt n /\ intOf n = - intOf v
    /\ Add v n = Ok s /\ Cmp s (int64Val 0) = Ok (0, false).
Proof.
  intros Hv.
  assert (Hn : exists n, Neg v = Ok n /\ wfInt n /\ intOf n = - intOf v).
  { destruct v as [| | | |a|a| | | |]; cbn [wfInt] in Hv; try contradiction.
    - eexists. split; [reflexivity|]. split; [exact I|reflexivity].
    - unfold Neg. cbn [isNull]. destruct (a =? MinInt64) eqn:E.
      + eexists. split; [reflexivity|]. split; [exact I|].
        cbn [intOf]. unfold MinInt64, MaxInt64 in *. lia.
      + eexists. split; [reflexivity|]. split; [|reflexivity].
        cbn [wfInt]. unfold in_int64, MinInt64, MaxInt64 in *. lia. }
  destruct Hn as (n & En & Wn & In).
  destruct (Add_int v n Hv Wn) as (s & Es & Ws & Is).
  exists n, s. repeat split; try assumption.
  rewrite (Cmp_int s (int64Val 0)); [| exact Ws | cbn; unfold in_int64, MinInt64, MaxInt64; lia].
  cbn [intOf]. do 2 f_equal. lia.
Qed.

Lemma Neg_of_integers_witness :
  exists n s,
    Neg (int64Val MinInt64) = Ok n /\ wfInt n /\ intOf n = - intOf (int64Val MinInt64)
    /\ Add (int64Val MinInt64) n = Ok s /\ Cmp s (int64Val 0) = Ok (0, false).
Proof.
  apply (Neg_of_integers (int64Val MinInt64)).
  cbn. unfold in_int64, MinInt64, MaxInt64. lia.
Defined.

(** ** Division *)

(** On two 64-bit integers [Div] truncates toward zero and [Mod] takes the
    sign of the dividend, as Go's [/] and [%] do; both results stay in the
    64-bit form.  The one quotient that does not fit, [MinInt64 / -1], wraps
    to [MinInt64]. *)
Theorem Div_Mod_of_int64 a b :
  in_int64 a -> in_int64 b -> b <> 0 ->
  exists q r,
    Div (int64Val a) (int64Val b) = Ok (int64Val q)
    /\ Mod (int64Val a) (int64Val b) = Ok (int64Val r)
    /\ in_int64 q /\ in_int64 r
    /\ Z.abs r < Z.abs b /\ 0 <= r * a
    /\ (a = MinInt64 /\ b = -1 -> q = MinInt64 /\ r = 0)
    /\ (~ (a = MinInt64 /\ b = -1) -> a = b * q + r).
Proof.
  intros Ha Hb Hnz.
  exists (quot64 a b), (rem64 a b).
  assert (Eb : (b =? 0) = false) by lia.
  pose proof (Z.quot_rem' a b) as Hqr.
  pose proof (Z.rem_bound_abs a b Hnz) as Hrb.
  pose proof (Z.rem_sign_mul a b Hnz) as Hrs.
  assert (Hr : in_int64 (Z.rem a b))
    by (unfold in_int64, MinInt64, MaxInt64 in *; lia).
  split; [unfold Div; cbn; rewrite Eb; reflexivity|].
  split; [unfold Mod; cbn; rewrite Eb; reflexivity|].
  unfold quot64, rem64. rewrite (wrap64_small _ Hr).
  split; [apply wrap64_range|]. split; [exact Hr|].
  split; [exact Hrb|]. split; [lia|]. split.
  - intros (-> & ->). split; reflexivity.
  - intros Hne. rewrite wrap64_small; [exact Hqr|].
    unfold in_int64, MinInt64, MaxInt64 in *.
    assert (Hq : Z.abs (Z.quot a b) <= Z.abs a).
    { destruct (Z.eq_dec a 0) as [->|Ha0]; [rewrite Z.quot_0_l by assumption; lia|].
      rewrite <- (Z.quot_abs a b) by assumption.
      apply Z.quot_le_upper_bound; [lia|]. nia. }
    destruct (Z.eq_dec b (-1)) as [->|Hb1].
    + lia.
    + destruct (Z.eq_dec b 1) as [->|Hb2]; [lia|].
      assert (Hq2 : 2 * Z.abs (Z.quot a b) <= Z.abs a) by nia.
      lia.
Qed.

Lemma Div_Mod_of_int64_witness :
  exists q r,
    Div (int64Val (-7)) (int64Val 2) = Ok (int64Val q)
    /\ Mod (int64Val (-7)) (int64Val 2) = Ok (int64Val r)
    /\ in_int64 q /\ in_int64 r
    /\ Z.abs r < Z.abs 2 /\ 0 <= r * (-7)
    /\ (-7 = MinInt64 /\ 2 = -1 -> q = MinInt64 /\ r = 0)
    /\ (~ (-7 = MinInt64 /\ 2 = -1) -> -7 = 2 * q + r).
Proof.
  apply (Div_Mod_of_int64 (-7) 2); unfold in_int64, MinInt64, MaxInt64; lia.
Defined.

(** On a dividend in the big form [Div] and [Mod] are Euclidean, as
    [big.Int.Div] and [big.Int.Mod] are: the remainder is never negative.
    The results are in the big form, also when they fit in 64 bits. *)
Theorem Div_Mod_of_big a b :
  wfInt b -> intOf b <> 0 ->
  exists q r,
    Div (intVal a) b = Ok (intVal q)
    /\ Mod (intVal a) b = Ok (intVal r)
    /\ a = intOf b * q + r /\ 0 <= r < Z.abs (intOf b).
Proof.
  intros Hb Hnz. exists (big_Div a (intOf b)), (big_Mod a (intOf b)).
  assert (Hz : forall y, y <> 0 -> in_int64b y && (y =? 0) = false)
    by (intros y Hy; replace (y =? 0) with false by lia; apply andb_false_r).
  assert (He : forall y, y <> 0 ->
             a = y * big_Div a y + big_Mod a y /\ 0 <= big_Mod a y < Z.abs y).
  { intros y Hy. unfold big_Div, big_Mod.
    pose proof (Z.mod_pos_bound a (Z.abs y) ltac:(lia)) as Hm.
    split; [|exact Hm].
    destruct (0 <? y) eqn:Ey.
    - rewrite Z.abs_eq by lia. apply Z.div_mod. lia.
    - rewrite Z.abs_neq by lia. pose proof (Z.div_mod a (- y) ltac:(lia)). lia. }
  destruct b as [| | | |b|b| | | |]; cbn [wfInt] in Hb; try contradiction;
    cbn [intOf] in *.
  - split; [unfold Div; cbn; rewrite (Hz b Hnz); reflexivity|].
    split; [unfold Mod; cbn; rewrite (Hz b Hnz); reflexivity|].
    exact (He b Hnz).
  - split; [unfold Div; cbn; rewrite (Hz b Hnz); reflexivity|].
    split; [unfold Mod; cbn; rewrite (Hz b Hnz); reflexivity|].
    exact (He b Hnz).
Qed.

Lemma Div_Mod_of_big_witness :
  exists q r,
    Div (intVal (-7)) (int64Val 2) = Ok (intVal q)
    /\ Mod (intVal (-7)) (int64Val 2) = Ok (intVal r)
    /\ -7 = 2 * q + r /\ 0 <= r < Z.abs 2.
Proof.
  apply (Div_Mod_of_big (-7) (int64Val 2)).
  - cbn. unfold in_int64, MinInt64, MaxInt64. lia.
  - cbn. lia.
Defined.

(** Dividing an integer by an integer zero fails, in every representation of
    either side and for [Div], [Mod] and [FloatDiv] alike: the error is a
    [BinaryOpError] that names the operation and the two operands, with
    [ErrDivideByZero] as its cause. *)
Theorem integer_division_by_zero a b :
  wfInt a -> wfInt b -> intOf b = 0 ->
  Div a b = Err (BinaryOpError "div" a b (Some ErrDivideByZero))
  /\ Mod a b = Err (BinaryOpError "mod" a b (Some ErrDivideByZero))
  /\ FloatDiv a b = Err (BinaryOpError "float_div" a b (Some ErrDivideByZero)).
Proof.
  intros Ha Hb Hz.
  destruct a as [| | | |a|a| | | |]; cbn [wfInt] in Ha; try contradiction;
    destruct b as [| | | |b|b| | | |]; cbn [wfInt] in Hb; try contradiction;
    cbn [intOf] in Hz; subst b; repeat split; reflexivity.
Qed.

Lemma integer_division_by_zero_witness :
  Div (int64Val 1) (intVal 0)
  = Err (BinaryOpError "div" (int64Val 1) (intVal 0) (Some ErrDivideByZero)).
Proof.
  apply (integer_division_by_zero (int64Val 1) (intVal 0)).
  - cbn. unfold in_int64, MinInt64, MaxInt64. lia.
  - exact I.
  - reflexivity.
Defined.

(** ** Bitwise operations *)

Lemma in_int64_shiftr z : in_int64 z <-> Z.shiftr z 63 = 0 \/ Z.shiftr z 63 = -1.
Proof.
  rewrite Z.shiftr_div_pow2 by lia. unfold in_int64, MinInt64, MaxInt64.
  pose proof (Z.div_mod z (2 ^ 63) ltac:(lia)).
  pose proof (Z.mod_pos_bound z (2 ^ 63) ltac:(lia)). lia.
Qed.

Lemma bitwise_in_int64 op x y r :
  in_int64 x -> in_int64 y -> dbgen.bitwise op x y = Some r -> in_int64 r.
Proof.
  intros Hx Hy Hr. apply in_int64_shiftr in Hx, Hy. apply in_int64_shiftr.
  destruct op; cbn [dbgen.bitwise] in Hr; try discriminate; injection Hr as <-;
    rewrite ?Z.shiftr_land, ?Z.shiftr_lor, ?Z.shiftr_lxor;
    destruct Hx as [-> | ->], Hy as [-> | ->]; cbn; auto.
Qed.

(** The bitwise functions [&], [|] and [^] see an integer by its value: on
    every two integer values, in the 64-bit or in the big form, the result is
    the two's-complement operation on the values, stored in the 64-bit form
    whenever it fits. *)
Theorem Bitwise_of_integers op a b r :
  wfInt a -> wfInt b -> dbgen.bitwise op (intOf a) (intOf b) = Some r ->
  dbgen.BinaryFuncs op = Some (dbgen.BitwiseFunc op)
  /\ dbgen.BitwiseFunc_Compile op [a; b] = Ok (dbgen.Constant (MakeInt r)).
Proof.
  intros Ha Hb Hr. split.
  - destruct op; cbn [dbgen.bitwise] in Hr; try discriminate; reflexivity.
  - unfold dbgen.BitwiseFunc_Compile.
    change (at_ (E:=error) [a; b] 0) with (Ok (E:=error) a).
    change (at_ (E:=error) [a; b] 1) with (Ok (E:=error) b).
    cbn [bind].
    assert (Hfast : in_int64 (intOf a) -> in_int64 (intOf b) -> MakeInt64 r = MakeInt r).
    { intros Hx Hy. unfold MakeInt, MakeInt64.
      now rewrite (proj2 (in_int64b_true r) (bitwise_in_int64 op _ _ r Hx Hy Hr)). }
    destruct a as [| | | |a|a| | | |]; cbn [wfInt] in Ha; try contradiction;
      destruct b as [| | | |b|b| | | |]; cbn [wfInt] in Hb; try contradiction;
      cbn [intOf isNull orb IsInt64 andb AsInt64 AsInt bind negb] in *.
    + destruct (in_int64b a) eqn:Ea; destruct (in_int64b b) eqn:Eb;
        cbn [andb negb bind]; rewrite Hr; try reflexivity.
      rewrite Hfast; [reflexivity | now apply in_int64b_true | now apply in_int64b_true].
    + destruct (in_int64b a) eqn:Ea; cbn [andb negb bind]; rewrite Hr; try reflexivity.
      rewrite Hfast; [reflexivity | now apply in_int64b_true | exact Hb].
    + destruct (in_int64b b) eqn:Eb; cbn [andb negb bind]; rewrite Hr; try reflexivity.
      rewrite Hfast; [reflexivity | exact Ha | now apply in_int64b_true].
    + rewrite Hr. rewrite Hfast; [reflexivity | exact Ha | exact Hb].
Qed.

Lemma Bitwise_of_integers_witness :
  dbgen.BinaryFuncs template.OpBitXor = Some (dbgen.BitwiseFunc template.OpBitXor)
  /\ dbgen.BitwiseFunc_Compile template.OpBitXor [intVal 18446744073709551616; intVal 18446744073709551617]
     = Ok (dbgen.Constant (MakeInt 1)).
Proof.
  apply (Bitwise_of_integers template.OpBitXor (intVal 18446744073709551616)
           (intVal 18446744073709551617) 1); [exact I | exact I | reflexivity].
Defined.

(** ** Hexadecimal encoding *)

Lemma hex_byte_round_trip c :
  dbgen.fromHexChar (dbgen.hexDigit (chr c / 16)) = Some (chr c / 16)
  /\ dbgen.fromHexChar (dbgen.hexDigit (chr c mod 16)) = Some (chr c mod 16)
  /\ ascii_of_N (Z.to_N (chr c / 16 * 16 + chr c mod 16)) = c.
Proof.
  destruct c as [[] [] [] [] [] [] [] []]; vm_compute; repeat split; reflexivity.
Qed.

(** [decode.hex] undoes [encode.hex] on every byte string; the encoding is
    twice as long as the input. *)
Theorem hex_encode_decode s :
  dbgen.EncodeFunc_Compile dbgen.HexEncoding [bytesVal s]
    = Ok (dbgen.Constant (bytesVal (dbgen.hex_Encode s)))
  /\ dbgen.DecodeFunc_Compile dbgen.HexEncoding [bytesVal (dbgen.hex_Encode s)]
     = Ok (dbgen.Constant (bytesVal s))
  /\ len (dbgen.hex_Encode s) = 2 * len s.
Proof.
  split; [reflexivity|]. split.
  - unfold dbgen.DecodeFunc_Compile.
    change (at_ (E:=error) [bytesVal (dbgen.hex_Encode s)] 0)
      with (Ok (E:=error) (bytesVal (dbgen.hex_Encode s))).
    cbn [bind AsBytes dbgen.Decode dbgen.HexEncoding].
    assert (Hd : dbgen.hex_Decode (dbgen.hex_Encode s) = Ok s).
    { induction s as [|c s IH]; [reflexivity|].
      cbn [dbgen.hex_Encode dbgen.hex_Decode].
      destruct (hex_byte_round_trip c) as (-> & -> & Hc).
      rewrite IH. cbn [bind]. now rewrite Hc. }
    now rewrite Hd.
  - induction s as [|c s IH]; [reflexivity|].
    cbn [dbgen.hex_Encode]. unfold len in *. cbn [List.length]. lia.
Qed.

(** ** The variable slots of a compile context *)

Lemma findIndexOf_found vs name : forall off i,
  dbgen.findIndexOf vs name off = i -> i <> -1 -> 0 <= off ->
  off <= i < off + len vs
  /\ exists v, nth_error vs (Z.to_nat (i - off)) = Some (name, v).
Proof.
  induction vs as [|[n v] vs IH]; intros off i Hi Hne Hoff; cbn [dbgen.findIndexOf] in Hi.
  - congruence.
  - cbn [fst] in Hi. destruct (gostring_eqb n name) eqn:En.
    + apply gostring_eqb_eq in En. subst n i. unfold len. cbn [List.length].
      split; [lia|]. exists v. now replace (Z.to_nat (off - off)) with 0%nat by lia.
    + destruct (IH (off + 1) i Hi Hne ltac:(lia)) as (Hr & w & Hw).
      unfold len in *. cbn [List.length]. split; [lia|]. exists w.
      replace (Z.to_nat (i - off)) with (S (Z.to_nat (i - (off + 1)))) by lia.
      exact Hw.
Qed.

Lemma findIndexOf_app_found vs ext name : forall off,
  0 <= off -> dbgen.findIndexOf vs name off <> -1 ->
  dbgen.findIndexOf (vs ++ ext) name off = dbgen.findIndexOf vs name off.
Proof.
  induction vs as [|[n v] vs IH]; intros off Hoff H; cbn [dbgen.findIndexOf app] in *.
  - congruence.
  - destruct (gostring_eqb (fst (n, v)) name); [reflexivity|]. apply IH; [lia|exact H].
Qed.

Lemma findIndexOf_app_new vs name v : forall off,
  0 <= off -> dbgen.findIndexOf vs name off = -1 ->
  dbgen.findIndexOf (vs ++ [(name, v)]) name off = off + len vs.
Proof.
  induction vs as [|[n w] vs IH]; intros off Hoff H; cbn [dbgen.findIndexOf app] in *.
  - cbn [fst]. replace (gostring_eqb name name) with true
      by (symmetry; now apply gostring_eqb_eq). unfold len. cbn. lia.
  - destruct (gostring_eqb (fst (n, w)) name); [lia|].
    rewrite (IH (off + 1)) by (lia || exact H). unfold len. cbn [List.length]. lia.
Qed.

(** [lookupVariable] gives a name the slot it already has, or a new last
    slot holding NULL; the slots that exist are kept as they are. *)
Lemma lookupVariable_spec ctx name :
  let i := fst (dbgen.lookupVariable ctx name) in
  let ctx' := snd (dbgen.lookupVariable ctx name) in
  0 <= i < len (dbgen.Variables ctx')
  /\ (exists v, nth_error (dbgen.Variables ctx') (Z.to_nat i) = Some (name, v))
  /\ (dbgen.Variables ctx' = dbgen.Variables ctx
      \/ dbgen.Variables ctx' = dbgen.Variables ctx ++ [(name, Null)])
  /\ dbgen.TimeZone ctx' = dbgen.TimeZone ctx
  /\ dbgen.CurrentTimestamp ctx' = dbgen.CurrentTimestamp ctx
  /\ dbgen.findIndexOf (dbgen.Variables ctx') name 0 = i.
Proof.
  unfold dbgen.lookupVariable.
  destruct (dbgen.findIndexOf (dbgen.Variables ctx) name 0 =? -1) eqn:E; cbn [fst snd].
  - apply Z.eqb_eq in E. cbn [dbgen.set_Variables dbgen.Variables dbgen.TimeZone
                               dbgen.CurrentTimestamp].
    pose proof (findIndexOf_app_new _ name Null 0 ltac:(lia) E) as Hn.
    unfold len in *. rewrite length_app. cbn [List.length].
    split; [lia|]. split.
    + exists Null. rewrite nth_error_app2 by lia.
      now replace (Z.to_nat (Z.of_nat (List.length (dbgen.Variables ctx)))
                   - List.length (dbgen.Variables ctx))%nat with 0%nat by lia.
    + repeat split; auto.
  - apply Z.eqb_neq in E.
    destruct (findIndexOf_found _ name 0 _ eq_refl E ltac:(lia)) as (Hr & v & Hv).
    split; [lia|]. split.
    + exists v. now rewrite Z.sub_0_r in Hv.
    + repeat split; auto.
Qed.

Section CompilerInvariants.

Variable Base64Encoding : dbgen.Encoding.
Variable time_ParseInLocation : gostring -> gostring -> dbgen.Location -> res Time.
Variable bytes_IndexFunc_IsLetter : gostring -> Z.
Variable strings_TrimSpace : gostring -> gostring.

Local Abbreviation CompileExpr :=
  (dbgen.CompileExpr Base64Encoding time_ParseInLocation bytes_IndexFunc_IsLetter
     strings_TrimSpace).
Local Abbreviation compileArgs :=
  (dbgen.compileArgs Base64Encoding time_ParseInLocation bytes_IndexFunc_IsLetter
     strings_TrimSpace).
Local Abbreviation compileRawFunction :=
  (dbgen.compileRawFunction Base64Encoding time_ParseInLocation bytes_IndexFunc_IsLetter
     strings_TrimSpace).
Local Abbreviation compileWhens :=
  (dbgen.compileWhens Base64Encoding time_ParseInLocation bytes_IndexFunc_IsLetter
     strings_TrimSpace).
Local Abbreviation compileCaseValueWhen :=
  (dbgen.compileCaseValueWhen Base64Encoding time_ParseInLocation
     bytes_IndexFunc_IsLetter strings_TrimSpace).
Local Abbreviation CompileRow_loop :=
  (dbgen.CompileRow_loop Base64Encoding time_ParseInLocation bytes_IndexFunc_IsLetter
     strings_TrimSpace).
Local Abbreviation CompileRow :=
  (dbgen.CompileRow Base64Encoding time_ParseInLocation bytes_IndexFunc_IsLetter
     strings_TrimSpace).
Local Abbreviation Function_Compile :=
  (dbgen.Function_Compile time_ParseInLocation bytes_IndexFunc_IsLetter
     strings_TrimSpace).
Local Abbreviation Eval :=
  (dbgen.Eval time_ParseInLocation bytes_IndexFunc_IsLetter strings_TrimSpace).
Local Abbreviation Row_Eval :=
  (dbgen.Row_Eval time_ParseInLocation bytes_IndexFunc_IsLetter strings_TrimSpace).

(** A name keeps the slot that its first compilation gave it: every later
    occurrence, read or assigned, compiles to the same index; the slot
    carries the name; another name never gets it; and the slots that existed
    before are still there. *)
Theorem variable_slot_is_stable f f' name e ctx i ctx' :
  CompileExpr (S f) (template.GetVariable name) ctx = Ok (dbgen.GetVariable i, ctx') ->
  0 <= i < len (dbgen.Variables ctx')
  /\ (exists v, nth_error (dbgen.Variables ctx') (Z.to_nat i) = Some (name, v))
  /\ (exists ext, dbgen.Variables ctx' = dbgen.Variables ctx ++ ext)
  /\ CompileExpr (S f') (template.GetVariable name) ctx' = Ok (dbgen.GetVariable i, ctx')
  /\ CompileExpr (S f') (template.SetVariable name e) ctx'
     = Ok (dbgen.SetVariable i dbgen.nilCompiled, ctx')
  /\ (forall name' i' ctx'',
        name' <> name ->
        CompileExpr (S f') (template.GetVariable name') ctx'
        = Ok (dbgen.GetVariable i', ctx'') ->
        i' <> i).
Proof.
  cbn [dbgen.CompileExpr]. intros H.
  pose proof (lookupVariable_spec ctx name) as Hs. cbv zeta in Hs.
  destruct (dbgen.lookupVariable ctx name) as [i0 c0] eqn:El. cbn [fst snd] in Hs.
  injection H as <- <-.
  destruct Hs as (Hr & (v & Hv) & Hext & _ & _ & Hfind).
  assert (Hl : dbgen.lookupVariable c0 name = (i0, c0)).
  { unfold dbgen.lookupVariable. rewrite Hfind.
    destruct (i0 =? -1) eqn:E; [lia | reflexivity]. }
  split; [exact Hr|]. split; [now exists v|]. split.
  { destruct Hext as [-> | ->]; [exists []; now rewrite app_nil_r | eexists; reflexivity]. }
  rewrite Hl. split; [reflexivity|]. split; [reflexivity|].
  intros name' i' ctx'' Hne H'.
  pose proof (lookupVariable_spec c0 name') as Hs'. cbv zeta in Hs'.
  destruct (dbgen.lookupVariable c0 name') as [i1 c1] eqn:El'. cbn [fst snd] in Hs'.
  injection H' as <- <-.
  destruct Hs' as (Hr' & (v' & Hv') & Hext' & _).
  intros ->.
  assert (Hsame : nth_error (dbgen.Variables c1) (Z.to_nat i0) = Some (name, v)).
  { destruct Hext' as [-> | ->]; [exact Hv|].
    rewrite nth_error_app1; [exact Hv|]. unfold len in Hr. lia. }
  congruence.
Qed.

(** What a compilation leaves of the context it started from: the slots, in
    place, and the time zone and the clock. *)
Definition keeps (ctx ctx' : dbgen.CompileContext) : Prop :=
  (exists ext, dbgen.Variables ctx' = dbgen.Variables ctx ++ ext)
  /\ dbgen.TimeZone ctx' = dbgen.TimeZone ctx
  /\ dbgen.CurrentTimestamp ctx' = dbgen.CurrentTimestamp ctx.

Lemma keeps_refl ctx : keeps ctx ctx.
Proof. split; [exists []; now rewrite app_nil_r | split; reflexivity]. Qed.

Lemma keeps_trans a b c : keeps a b -> keeps b c -> keeps a c.
Proof.
  intros ((e1 & H1) & T1 & C1) ((e2 & H2) & T2 & C2). split; [|split; congruence].
  exists (e1 ++ e2). now rewrite H2, H1, app_assoc.
Qed.

Lemma lookupVariable_keeps ctx name : keeps ctx (snd (dbgen.lookupVariable ctx name)).
Proof.
  pose proof (lookupVariable_spec ctx name) as Hs. cbv zeta in Hs.
  destruct Hs as (_ & _ & Hext & HT & HC & _). split; [|split; assumption].
  destruct Hext as [-> | ->]; [exists []; now rewrite app_nil_r | eexists; reflexivity].
Qed.

Ltac bind_inv H :=
  match type of H with
  | context [bind ?m _] =>
      let E := fresh "E" in
      destruct m eqn:E; cbn [bind] in H; try discriminate H
  end.

Tactic Notation "bind_as" hyp(H) "as" simple_intropattern(p) ident(E) :=
  match type of H with
  | context [bind ?m _] =>
      destruct m as [p| | |] eqn:E; cbn [bind] in H; try discriminate H
  end.

Lemma ParseTimeZone_keeps ctx tz loc ctx' :
  dbgen.ParseTimeZone ctx tz = Ok (loc, ctx') -> keeps ctx ctx'.
Proof.
  unfold dbgen.ParseTimeZone.
  destruct (find _ (dbgen.tzCache ctx)); intros H.
  - injection H as _ <-. apply keeps_refl.
  - bind_inv H. injection H as _ <-.
    split; [exists []; cbn; now rewrite app_nil_r | split; reflexivity].
Qed.

Lemma Function_Compile_keeps fuel fn ctx args c ctx' :
  Function_Compile fuel fn (Some ctx) args = Ok (c, ctx') ->
  exists ctx1, ctx' = Some ctx1 /\ keeps ctx ctx1.
Proof.
  assert (Hpure : forall r : res dbgen.Compiled,
             (c0 <- r ;; Ok (c0, Some ctx)) = Ok (c, ctx') ->
             exists ctx1, ctx' = Some ctx1 /\ keeps ctx ctx1).
  { intros r H. bind_inv H. injection H as _ <-. exists ctx. split; [reflexivity|].
    apply keeps_refl. }
  unfold dbgen.Function_Compile.
  destruct fn; try (apply Hpure); try discriminate.
  - unfold dbgen.TimestampFunc_Compile. intros H.
    do 3 bind_inv H. injection H as _ <-. exists ctx. split; [reflexivity|].
    apply keeps_refl.
  - unfold dbgen.TimestampWithTimeZoneFunc_Compile. intros H.
    do 2 bind_inv H.
    destruct (negb (bytes_IndexFunc_IsLetter a0 =? -1)).
    + bind_inv H.
      match type of H with context [let (_, _) := ?x in _] => destruct x as [[tz input] c1] end.
      bind_inv H. injection H as _ <-. exists c1. split; [reflexivity|].
      match goal with E1 : bind _ _ = Ok (tz, input, c1) |- _ =>
        bind_inv E1; bind_inv E1;
        match type of E1 with context [let (_, _) := ?x in _] =>
          destruct x as [loc c2] end;
        bind_inv E1; injection E1 as _ _ <-
      end.
      eapply ParseTimeZone_keeps; eassumption.
    + cbn [bind] in H. bind_inv H. injection H as _ <-. exists ctx.
      split; [reflexivity|]. apply keeps_refl.
Qed.

Lemma compile_keeps_all : forall f,
  (forall expr ctx c ctx', CompileExpr f expr ctx = Ok (c, ctx') -> keeps ctx ctx')
  /\ (forall args acc isC ctx r b ctx',
        compileArgs f args acc isC ctx = Ok (r, b, ctx') -> keeps ctx ctx')
  /\ (forall fn args ctx c ctx',
        compileRawFunction f fn args ctx = Ok (c, ctx') -> keeps ctx ctx')
  /\ (forall whens acc ctx r ctx',
        compileWhens f whens acc ctx = Ok (r, ctx') -> keeps ctx ctx')
  /\ (forall v whens e ctx c ctx',
        compileCaseValueWhen f v whens e ctx = Ok (c, ctx') -> keeps ctx ctx').
Proof.
  induction f as [|f (IH1 & IH2 & IH3 & IH4 & IH5)];
    [repeat split; intros; discriminate|].
  split; [|split; [|split; [|split]]].
  - intros expr ctx c ctx' H. destruct expr; cbn [dbgen.CompileExpr] in H.
    all: try (injection H as _ <-; apply keeps_refl).
    all: try discriminate H.
    all: try (match type of H with
              | context [dbgen.lookupVariable ?c0 ?n] =>
                  pose proof (lookupVariable_keeps c0 n) as Hk;
                  destruct (dbgen.lookupVariable c0 n); cbn [snd] in Hk;
                  injection H as _ <-; exact Hk
              end).
    all: try (eapply IH3; exact H).
    all: try (eapply IH1; exact H).
    all: try (eapply IH5; exact H).
    all: try (match type of H with
              | context [match ?x with Some _ => _ | None => _ end] =>
                  destruct x; [|discriminate H]
              end).
    all: try (eapply IH3; exact H).
    match type of H with
    | (if ?b then _ else _) = _ => destruct b; [discriminate H | eapply IH3; exact H]
    end.
  - intros args acc isC ctx r b ctx' H. destruct args as [|arg rest].
    + injection H as _ _ <-. apply keeps_refl.
    + assert (Hstep : forall compiled ctx1,
                 CompileExpr f arg ctx = Ok (compiled, ctx1) ->
                 compileArgs f rest (acc ++ [compiled]) (isC && dbgen.IsConstant compiled) ctx1
                 = Ok (r, b, ctx') -> keeps ctx ctx').
      { intros compiled ctx1 H1 H2.
        eapply keeps_trans; [eapply IH1; exact H1 | eapply IH2; exact H2]. }
      destruct arg; cbn [dbgen.compileArgs] in H;
        try (eapply IH2; exact H);
        (bind_as H as [compiled ctx1] E1; eapply Hstep; [exact E1 | exact H]).
  - intros fn args ctx c ctx' H. cbn [dbgen.compileRawFunction] in H.
    bind_as H as [[compiledArgs isConst] ctx1] Hk. apply IH2 in Hk.
    destruct isConst.
    + bind_as H as constArgs E1. bind_as H as [compiled ctx2] E2.
      apply Function_Compile_keeps in E2. destruct E2 as (ctx3 & -> & Hk2).
      injection H as _ <-. eapply keeps_trans; eassumption.
    + injection H as _ <-. exact Hk.
  - intros whens acc ctx r ctx' H. destruct whens as [|[cond then_] rest].
    + injection H as _ <-. apply keeps_refl.
    + cbn [dbgen.compileWhens] in H.
      bind_as H as [cond' ctx1] Hk1. apply IH1 in Hk1.
      bind_as H as [then' ctx2] Hk2. apply IH1 in Hk2.
      apply IH4 in H. eapply keeps_trans; [exact Hk1|].
      eapply keeps_trans; eassumption.
  - intros v whens e ctx c ctx' H. cbn [dbgen.compileCaseValueWhen] in H.
    bind_as H as [v' ctx1] H1.
    assert (Hk1 : keeps ctx ctx1).
    { destruct v; try (eapply IH1; exact H1).
      injection H1 as _ <-. apply keeps_refl. }
    bind_as H as [ws ctx2] Hk2. apply IH4 in Hk2.
    bind_as H as [e' ctx3] H3.
    assert (Hk3 : keeps ctx2 ctx3).
    { destruct e; try (eapply IH1; exact H3).
      injection H3 as _ <-. apply keeps_refl. }
    assert (Hk : keeps ctx ctx3)
      by (eapply keeps_trans; [exact Hk1 | eapply keeps_trans; eassumption]).
    destruct (dbgen.IsConstant v' && forallb dbgen.isConstWhen ws && dbgen.IsConstant e').
    + bind_as H as [value st] E4. injection H as _ <-. exact Hk.
    + injection H as _ <-. exact Hk.
Qed.

(** Every variable index in a compiled expression is a slot below [n]. *)
Fixpoint indicesBelow (n : Z) (c : dbgen.Compiled) : bool :=
  match c with
  | dbgen.GetVariable i => (0 <=? i) && (i <? n)
  | dbgen.SetVariable i child => (0 <=? i) && (i <? n) && indicesBelow n child
  | dbgen.RawFunction _ args => forallb (indicesBelow n) args
  | dbgen.CaseValueWhen v whens e =>
      indicesBelow n v
      && forallb (fun w => indicesBelow n (fst w) && indicesBelow n (snd w)) whens
      && indicesBelow n e
  | _ => true
  end.

Definition whenBelow (n : Z) (w : dbgen.When) : bool :=
  indicesBelow n (fst w) && indicesBelow n (snd w).

Lemma indicesBelow_mono n m :
  n <= m -> forall c, indicesBelow n c = true -> indicesBelow m c = true.
Proof.
  intros Hnm. fix IH 1. intros c. destruct c; cbn [indicesBelow]; try (intros; reflexivity).
  - induction Args as [|a l IHl]; cbn [forallb]; [reflexivity|].
    rewrite !andb_true_iff. intros (H1 & H2). split; [apply IH, H1 | apply IHl, H2].
  - rewrite !andb_true_iff. lia.
  - rewrite !andb_true_iff. intros ((H1 & H2) & H3). split; [lia | apply IH, H3].
  - rewrite !andb_true_iff. intros ((H1 & H2) & H3).
    split; [split; [apply IH, H1|] | apply IH, H3].
    induction Whens as [|[a b] l IHl]; cbn [forallb fst snd] in *; [reflexivity|].
    rewrite !andb_true_iff in *. destruct H2 as ((Ha & Hb) & Hl).
    split; [split; [apply IH, Ha | apply IH, Hb] | apply IHl, Hl].
Qed.

Lemma forallb_mono {A} (p q : A -> bool) l :
  (forall x, p x = true -> q x = true) -> forallb p l = true -> forallb q l = true.
Proof.
  intros Hpq. induction l as [|x l IH]; cbn [forallb]; [reflexivity|].
  rewrite !andb_true_iff. intros (H1 & H2). split; [apply Hpq, H1 | apply IH, H2].
Qed.

Lemma keeps_len ctx ctx' :
  keeps ctx ctx' -> len (dbgen.Variables ctx) <= len (dbgen.Variables ctx').
Proof. intros ((ext & ->) & _). unfold len. rewrite length_app. lia. Qed.

Ltac returns_constant H :=
  repeat first
    [ discriminate H
    | (injection H as <-; eexists; reflexivity)
    | (injection H as <- _; eexists; reflexivity)
    | bind_inv H
    | match type of H with
      | context [if ?b then _ else _] => destruct b
      | context [match ?x with Some _ => _ | None => _ end] => destruct x
      | context [let (_, _) := ?x in _] => destruct x
      end ].

Lemma Function_Compile_Constant fuel fn ctx args c ctx' :
  Function_Compile fuel fn ctx args = Ok (c, ctx') -> exists v, c = dbgen.Constant v.
Proof.
  assert (Hpure : forall r : res dbgen.Compiled,
             (forall a, r = Ok a -> exists v, a = dbgen.Constant v) ->
             (c0 <- r ;; Ok (c0, ctx)) = Ok (c, ctx') ->
             exists v, c = dbgen.Constant v).
  { intros r Hr H. bind_inv H. injection H as <- _. now apply Hr. }
  unfold dbgen.Function_Compile.
  destruct fn; try discriminate; try (apply Hpure; intros a H);
    try intros H;
    unfold dbgen.ArrayFunc_Compile, dbgen.SubscriptFunc_Compile,
      dbgen.GenerateSeriesFunc_Compile, dbgen.EncodeFunc_Compile,
      dbgen.DecodeFunc_Compile, dbgen.PanicFunc_Compile, dbgen.NegFunc_Compile,
      dbgen.CompareFunc_Compile, dbgen.BitwiseFunc_Compile, dbgen.ArithFunc_Compile,
      dbgen.TimestampFunc_Compile, dbgen.TimestampWithTimeZoneFunc_Compile in H;
    returns_constant H.
Qed.

Lemma forallb_snoc {A} (p : A -> bool) l x :
  forallb p (l ++ [x]) = forallb p l && p x.
Proof. rewrite forallb_app. cbn. now rewrite andb_true_r. Qed.

Lemma compile_indices_all : forall f,
  (forall expr ctx c ctx',
     CompileExpr f expr ctx = Ok (c, ctx') ->
     indicesBelow (len (dbgen.Variables ctx')) c = true)
  /\ (forall args acc isC ctx r b ctx',
        compileArgs f args acc isC ctx = Ok (r, b, ctx') ->
        forallb (indicesBelow (len (dbgen.Variables ctx))) acc = true ->
        forallb (indicesBelow (len (dbgen.Variables ctx'))) r = true)
  /\ (forall fn args ctx c ctx',
        compileRawFunction f fn args ctx = Ok (c, ctx') ->
        indicesBelow (len (dbgen.Variables ctx')) c = true)
  /\ (forall whens acc ctx r ctx',
        compileWhens f whens acc ctx = Ok (r, ctx') ->
        forallb (whenBelow (len (dbgen.Variables ctx))) acc = true ->
        forallb (whenBelow (len (dbgen.Variables ctx'))) r = true)
  /\ (forall v whens e ctx c ctx',
        compileCaseValueWhen f v whens e ctx = Ok (c, ctx') ->
        indicesBelow (len (dbgen.Variables ctx')) c = true).
Proof.
  induction f as [|f (IH1 & IH2 & IH3 & IH4 & IH5)];
    [repeat split; intros; discriminate|].
  destruct (compile_keeps_all f) as (K1 & K2 & K3 & K4 & K5).
  assert (Hmono : forall ctx ctx' c,
             keeps ctx ctx' -> indicesBelow (len (dbgen.Variables ctx)) c = true ->
             indicesBelow (len (dbgen.Variables ctx')) c = true).
  { intros ctx ctx' c Hk. apply indicesBelow_mono. now apply keeps_len. }
  split; [|split; [|split; [|split]]].
  - intros expr ctx c ctx' H. destruct expr; cbn [dbgen.CompileExpr] in H.
    all: try (injection H as <- _; reflexivity).
    all: try discriminate H.
    all: try (match type of H with
              | context [dbgen.lookupVariable ?c0 ?n] =>
                  pose proof (lookupVariable_spec c0 n) as Hs; cbv zeta in Hs;
                  destruct (dbgen.lookupVariable c0 n); cbn [fst snd] in Hs;
                  injection H as <- <-; cbn [indicesBelow]; destruct Hs as (Hr & _);
                  rewrite ?andb_true_r; lia
              end).
    all: try (eapply IH3; exact H).
    all: try (eapply IH1; exact H).
    all: try (eapply IH5; exact H).
    all: try (match type of H with
              | context [match ?x with Some _ => _ | None => _ end] =>
                  destruct x; [|discriminate H]
              end).
    all: try (eapply IH3; exact H).
    match type of H with
    | (if ?b then _ else _) = _ => destruct b; [discriminate H | eapply IH3; exact H]
    end.
  - intros args acc isC ctx r b ctx' H Hacc. destruct args as [|arg rest].
    + injection H as <- _ <-. exact Hacc.
    + assert (Hstep : forall compiled ctx1,
                 CompileExpr f arg ctx = Ok (compiled, ctx1) ->
                 compileArgs f rest (acc ++ [compiled]) (isC && dbgen.IsConstant compiled) ctx1
                 = Ok (r, b, ctx') ->
                 forallb (indicesBelow (len (dbgen.Variables ctx'))) r = true).
      { intros compiled ctx1 H1 H2. eapply IH2; [exact H2|].
        rewrite forallb_snoc. apply andb_true_iff. split; [|eapply IH1; exact H1].
        eapply forallb_mono; [|exact Hacc]. intros x. apply Hmono. eapply K1; exact H1. }
      destruct arg; cbn [dbgen.compileArgs] in H;
        try (bind_as H as [compiled ctx1] E1; eapply Hstep; [exact E1 | exact H]).
      eapply IH2; [exact H|]. rewrite forallb_snoc, Hacc. reflexivity.
  - intros fn args ctx c ctx' H. cbn [dbgen.compileRawFunction] in H.
    bind_as H as [[compiledArgs isConst] ctx1] Hk.
    apply IH2 in Hk; [|reflexivity].
    destruct isConst.
    + bind_as H as constArgs E1. bind_as H as [compiled ctx2] E2.
      apply Function_Compile_Constant in E2. destruct E2 as (v & ->).
      destruct ctx2; [|discriminate H]. injection H as <- _. reflexivity.
    + injection H as <- <-. exact Hk.
  - intros whens acc ctx r ctx' H Hacc. destruct whens as [|[cond then_] rest].
    + injection H as <- <-. exact Hacc.
    + cbn [dbgen.compileWhens] in H.
      bind_as H as [cond' ctx1] H1. bind_as H as [then' ctx2] H2.
      eapply IH4; [exact H|]. rewrite forallb_snoc. apply andb_true_iff. split.
      * eapply forallb_mono; [|exact Hacc]. intros [x y]. unfold whenBelow. cbn [fst snd].
        rewrite !andb_true_iff.
        assert (Hk : keeps ctx ctx2)
          by (eapply keeps_trans; [eapply K1; exact H1 | eapply K1; exact H2]).
        intros (Hx & Hy). split; eapply Hmono; eassumption.
      * unfold whenBelow. cbn [fst snd]. apply andb_true_iff. split.
        -- eapply Hmono; [eapply K1; exact H2 | eapply IH1; exact H1].
        -- eapply IH1; exact H2.
  - intros v whens e ctx c ctx' H. cbn [dbgen.compileCaseValueWhen] in H.
    bind_as H as [v' ctx1] H1.
    assert (Hv : indicesBelow (len (dbgen.Variables ctx1)) v' = true).
    { destruct v; try (eapply IH1; exact H1). injection H1 as <- _. reflexivity. }
    bind_as H as [ws ctx2] H2.
    pose proof (K4 _ _ _ _ _ H2) as Hk2.
    apply IH4 in H2; [|reflexivity].
    bind_as H as [e' ctx3] H3.
    assert (Hk3 : keeps ctx2 ctx3).
    { destruct e; try (eapply K1; exact H3). injection H3 as _ <-. apply keeps_refl. }
    assert (He : indicesBelow (len (dbgen.Variables ctx3)) e' = true).
    { destruct e; try (eapply IH1; exact H3). injection H3 as <- _. reflexivity. }
    destruct (dbgen.IsConstant v' && forallb dbgen.isConstWhen ws && dbgen.IsConstant e').
    + bind_as H as [value st] E4. injection H as <- _. reflexivity.
    + injection H as <- <-. cbn [indicesBelow]. rewrite He, andb_true_r.
      apply andb_true_iff. split.
      * eapply Hmono; [|exact Hv]. eapply keeps_trans; eassumption.
      * eapply forallb_mono; [|exact H2]. intros [x y]. unfold whenBelow. cbn [fst snd].
        rewrite !andb_true_iff. intros (Hx & Hy). split; eapply Hmono; eassumption.
Qed.

(** A compilation only adds slots to the context, after the existing ones,
    and every variable index of the compiled expression is a slot of the
    resulting context: evaluating it there never indexes [Variables] out of
    range. *)
Theorem CompileExpr_slots fuel expr ctx c ctx' :
  CompileExpr fuel expr ctx = Ok (c, ctx') ->
  (exists ext, dbgen.Variables ctx' = dbgen.Variables ctx ++ ext)
  /\ dbgen.TimeZone ctx' = dbgen.TimeZone ctx
  /\ dbgen.CurrentTimestamp ctx' = dbgen.CurrentTimestamp ctx
  /\ indicesBelow (len (dbgen.Variables ctx')) c = true.
Proof.
  intros H.
  destruct (proj1 (compile_keeps_all fuel) _ _ _ _ H) as (He & HT & HC).
  pose proof (proj1 (compile_indices_all fuel) _ _ _ _ H) as Hi.
  repeat split; assumption.
Qed.

Lemma CompileRow_loop_spec fuel : forall exprs row ctx row' ctx',
  CompileRow_loop fuel exprs row ctx = Ok (row', ctx') ->
  forallb (indicesBelow (len (dbgen.Variables ctx))) row = true ->
  keeps ctx ctx'
  /\ List.length row' = (List.length row + List.length exprs)%nat
  /\ forallb (indicesBelow (len (dbgen.Variables ctx'))) row' = true.
Proof.
  induction exprs as [|expr rest IH]; intros row ctx row' ctx' H Hrow.
  - injection H as <- <-. split; [apply keeps_refl|]. split; [cbn; lia | exact Hrow].
  - cbn [dbgen.CompileRow_loop] in H. bind_as H as [compiled ctx1] H1.
    pose proof (proj1 (compile_keeps_all fuel) _ _ _ _ H1) as Hk.
    pose proof (proj1 (compile_indices_all fuel) _ _ _ _ H1) as Hi.
    destruct (IH _ _ _ _ H) as (Hk' & Hl & Hb).
    + rewrite forallb_snoc, Hi, andb_true_r.
      eapply forallb_mono; [|exact Hrow]. intros x.
      apply indicesBelow_mono. now apply keeps_len.
    + split; [eapply keeps_trans; eassumption|]. split; [|exact Hb].
      rewrite Hl, length_app. cbn [List.length]. lia.
Qed.

(** [CompileRow] returns one compiled expression per expression, and all of
    them are closed in the context it leaves: their variable indices are
    slots of that context, whichever expression of the row introduced the
    variable. *)
Theorem CompileRow_slots fuel exprs ctx row ctx' :
  CompileRow fuel exprs ctx = Ok (row, ctx') ->
  List.length row = List.length exprs
  /\ (exists ext, dbgen.Variables ctx' = dbgen.Variables ctx ++ ext)
  /\ forallb (indicesBelow (len (dbgen.Variables ctx'))) row = true.
Proof.
  intros H. destruct (CompileRow_loop_spec fuel exprs [] ctx row ctx' H eq_refl)
    as ((He & _) & Hl & Hb).
  repeat split; assumption.
Qed.

(** ** Evaluation *)

Lemma nth_error_at {A} (s : list A) i x :
  0 <= i -> nth_error s (Z.to_nat i) = Some x -> at_ (E:=error) s i = Ok x.
Proof.
  intros Hi Hx. unfold at_. rewrite Hx.
  assert (Z.to_nat i < List.length s)%nat by (apply nth_error_Some; congruence).
  destruct ((0 <=? i) && (i <? len s)) eqn:E; [reflexivity|]. unfold len in E. lia.
Qed.

Lemma at_out_of_range {A} (s : list A) i :
  i < 0 \/ len s <= i -> at_ (E:=error) s i = Panic outOfRange.
Proof.
  intros Hi. unfold at_.
  destruct ((0 <=? i) && (i <? len s)) eqn:E; [lia | reflexivity].
Qed.

(** An assignment stores the value of its child in its slot, and only
    there: a later read of the slot returns that value, the other slots, the
    names and the row numbers are untouched.  An index that is no slot of
    the context makes the assignment panic. *)
Theorem SetVariable_then_GetVariable f index child state v s1 ctx1 :
  Eval f child state = Ok (v, Some s1) ->
  dbgen.CompileCtx s1 = Some ctx1 ->
  (0 <= index < len (dbgen.Variables ctx1) ->
   exists s2 ctx2,
     Eval (S f) (dbgen.SetVariable index child) state = Ok (v, Some s2)
     /\ dbgen.CompileCtx s2 = Some ctx2
     /\ (forall f', Eval (S f') (dbgen.GetVariable index) (Some s2) = Ok (v, Some s2))
     /\ (forall j, 0 <= j -> j <> index ->
           nth_error (dbgen.Variables ctx2) (Z.to_nat j)
           = nth_error (dbgen.Variables ctx1) (Z.to_nat j))
     /\ map fst (dbgen.Variables ctx2) = map fst (dbgen.Variables ctx1)
     /\ dbgen.State_RowNum s2 = dbgen.State_RowNum s1
     /\ dbgen.State_SubRowNum s2 = dbgen.State_SubRowNum s1)
  /\ (index < 0 \/ len (dbgen.Variables ctx1) <= index ->
      Eval (S f) (dbgen.SetVariable index child) state = Panic outOfRange).
Proof.
  intros Hc Hctx. cbn [dbgen.Eval]. rewrite Hc. cbn [bind dbgen.variables_of].
  rewrite Hctx. cbn [bind]. unfold dbgen.set_B. split.
  - intros Hr.
    assert (Hlt : (Z.to_nat index < List.length (dbgen.Variables ctx1))%nat)
      by (unfold len in Hr; lia).
    destruct (nth_error (dbgen.Variables ctx1) (Z.to_nat index)) as [[n w]|] eqn:En;
      [|apply nth_error_None in En; lia].
    rewrite (nth_error_at _ _ _ (proj1 Hr) En). cbn [bind fst].
    pose proof (firstn_skipn (Z.to_nat index) (dbgen.Variables ctx1)) as Hsplit.
    rewrite (skipn_nth_cons _ _ _ En) in Hsplit.
    set (pre := firstn (Z.to_nat index) (dbgen.Variables ctx1)) in *.
    set (post := skipn (S (Z.to_nat index)) (dbgen.Variables ctx1)) in *.
    assert (Hpre : List.length pre = Z.to_nat index)
      by (unfold pre; rewrite length_firstn; lia).
    do 2 eexists. split; [reflexivity|]. split; [reflexivity|].
    cbn [dbgen.set_Variables dbgen.Variables dbgen.set_CompileCtx dbgen.CompileCtx
         dbgen.State_RowNum dbgen.State_SubRowNum].
    split; [|split; [|split; [|split; reflexivity]]].
    + intros f'. cbn [bind dbgen.Variables dbgen.set_Variables].
      rewrite (nth_error_at _ index (n, v)); [reflexivity | lia |].
      rewrite nth_error_app2 by lia. now replace (Z.to_nat index - List.length pre)%nat
        with 0%nat by lia.
    + intros j Hj Hne. rewrite <- Hsplit.
      destruct (Z.lt_ge_cases j index) as [Hlt'|Hge].
      * rewrite !nth_error_app1 by lia. reflexivity.
      * rewrite !nth_error_app2 by lia.
        replace (Z.to_nat j - List.length pre)%nat
          with (S (Z.to_nat j - List.length pre - 1)) by lia. reflexivity.
    + rewrite <- Hsplit. rewrite !map_app. reflexivity.
  - intros Hr. now rewrite (at_out_of_range _ _ Hr).
Qed.

(** The accumulator of the argument loop only collects. *)
Lemma evalArgs_acc ev : forall args acc state,
  dbgen.evalArgs ev args acc state
  = ('(vals, state') <- dbgen.evalArgs ev args [] state ;; Ok (acc ++ vals, state')).
Proof.
  induction args as [|arg rest IH]; intros acc state; cbn [dbgen.evalArgs].
  - cbn [bind]. now rewrite app_nil_r.
  - destruct (ev arg state) as [[value st]| | |]; cbn [bind]; try reflexivity.
    rewrite (IH (acc ++ [value])), (IH ([] ++ [value])).
    destruct (dbgen.evalArgs ev rest [] st) as [[vals st']| | |]; cbn [bind];
      try reflexivity.
    now rewrite <- app_assoc.
Qed.

(** [Row.Eval] evaluates from left to right and hands the state on: the
    evaluation of two rows put end to end is the evaluation of the first
    followed by the evaluation of the second in the state the first left, and
    a row that evaluates gives one value per expression. *)
Theorem Row_Eval_app fuel r1 r2 state :
  Row_Eval fuel (r1 ++ r2) state
  = ('(v1, st) <- Row_Eval fuel r1 state ;;
     '(v2, st') <- Row_Eval fuel r2 st ;;
     Ok (v1 ++ v2, st'))
  /\ forall vals state',
       Row_Eval fuel r1 state = Ok (vals, state') ->
       List.length vals = List.length r1.
Proof.
  unfold dbgen.Row_Eval. split.
  - revert state. induction r1 as [|c r1 IH]; intros state.
    + cbn [app dbgen.evalArgs bind].
      destruct (dbgen.evalArgs _ r2 [] state) as [[v2 st']| | |]; reflexivity.
    + cbn [app dbgen.evalArgs].
      destruct (Eval fuel c state) as [[value st]| | |]; cbn [bind]; try reflexivity.
      rewrite (evalArgs_acc _ (r1 ++ r2)), (evalArgs_acc _ r1), IH.
      destruct (dbgen.evalArgs _ r1 [] st) as [[v1 st1]| | |]; cbn [bind];
        try reflexivity.
      destruct (dbgen.evalArgs _ r2 [] st1) as [[v2 st2]| | |]; cbn [bind];
        reflexivity.
  - revert state. induction r1 as [|c r1 IH]; intros state vals state' H.
    + injection H as <- _. reflexivity.
    + cbn [dbgen.evalArgs] in H.
      destruct (Eval fuel c state) as [[value st]| | |]; cbn [bind] in H;
        try discriminate.
      rewrite evalArgs_acc in H.
      destruct (dbgen.evalArgs _ r1 [] st) as [[v1 st1]| | |] eqn:E1; cbn [bind] in H;
        try discriminate.
      injection H as <- _. apply IH in E1. cbn [app List.length]. now rewrite E1.
Qed.

End CompilerInvariants.

(** Stand-ins for the library functions, and a context, for the examples
    below. *)
Definition no_ParseInLocation : gostring -> gostring -> dbgen.Location -> res Time :=
  fun _ _ _ => Err (errorString "no time zone data").
Definition no_IndexFunc : gostring -> Z := fun _ => -1.
Definition no_TrimSpace : gostring -> gostring := fun s => s.

Definition exampleContext : dbgen.CompileContext :=
  dbgen.NewCompileContext {| instant := 0; location := str "UTC" |}
    (fun _ => Err (errorString "unknown time zone")).

Definition exampleState (vs : list (gostring * Value)) : dbgen.State :=
  {| dbgen.State_RowNum := 1; dbgen.State_SubRowNum := 1; dbgen.Rng := 0;
     dbgen.CompileCtx := Some (dbgen.set_Variables exampleContext vs) |}.

Lemma variable_slot_is_stable_witness :
  dbgen.CompileExpr dbgen.HexEncoding no_ParseInLocation no_IndexFunc no_TrimSpace 1
    (template.SetVariable (str "x") template.nilExpr)
    (dbgen.set_Variables exampleContext [(str "x", Null)])
  = Ok (dbgen.SetVariable 0 dbgen.nilCompiled,
        dbgen.set_Variables exampleContext [(str "x", Null)]).
Proof.
  apply (variable_slot_is_stable dbgen.HexEncoding no_ParseInLocation no_IndexFunc
           no_TrimSpace 0%nat 0%nat (str "x") template.nilExpr exampleContext 0
           (dbgen.set_Variables exampleContext [(str "x", Null)])).
  reflexivity.
Defined.

Lemma CompileExpr_slots_witness :
  indicesBelow 1
    (dbgen.RawFunction (dbgen.ArithFunc Add) [dbgen.GetVariable 0; dbgen.RowNum]) = true.
Proof.
  apply (CompileExpr_slots dbgen.HexEncoding no_ParseInLocation no_IndexFunc
           no_TrimSpace 5%nat
           (template.BinaryExpr template.OpAdd (template.GetVariable (str "x"))
              template.RowNum)
           exampleContext
           (dbgen.RawFunction (dbgen.ArithFunc Add) [dbgen.GetVariable 0; dbgen.RowNum])
           (dbgen.set_Variables exampleContext [(str "x", Null)])).
  reflexivity.
Defined.

Lemma CompileRow_slots_witness :
  List.length [dbgen.GetVariable 0; dbgen.GetVariable 1; dbgen.GetVariable 0] = 3%nat
  /\ (exists ext,
        dbgen.Variables (dbgen.set_Variables exampleContext
                           [(str "x", Null); (str "y", Null)])
        = dbgen.Variables exampleContext ++ ext)
  /\ forallb (indicesBelow 2)
       [dbgen.GetVariable 0; dbgen.GetVariable 1; dbgen.GetVariable 0] = true.
Proof.
  apply (CompileRow_slots dbgen.HexEncoding no_ParseInLocation no_IndexFunc
           no_TrimSpace 2%nat
           [template.GetVariable (str "x"); template.GetVariable (str "y");
            template.GetVariable (str "x")]
           exampleContext
           [dbgen.GetVariable 0; dbgen.GetVariable 1; dbgen.GetVariable 0]
           (dbgen.set_Variables exampleContext [(str "x", Null); (str "y", Null)])).
  reflexivity.
Defined.

Lemma SetVariable_then_GetVariable_witness :
  exists s2 ctx2,
    dbgen.Eval no_ParseInLocation no_IndexFunc no_TrimSpace 2
      (dbgen.SetVariable 1 (dbgen.Constant (int64Val 7)))
      (Some (exampleState [(str "x", Null); (str "y", Null)]))
    = Ok (int64Val 7, Some s2)
    /\ dbgen.CompileCtx s2 = Some ctx2
    /\ dbgen.Variables ctx2 = [(str "x", Null); (str "y", int64Val 7)].
Proof.
  destruct (proj1 (SetVariable_then_GetVariable no_ParseInLocation no_IndexFunc
                     no_TrimSpace 1%nat 1 (dbgen.Constant (int64Val 7))
                     (Some (exampleState [(str "x", Null); (str "y", Null)]))
                     (int64Val 7)
                     (exampleState [(str "x", Null); (str "y", Null)])
                     (dbgen.set_Variables exampleContext [(str "x", Null); (str "y", Null)])
                     eq_refl eq_refl))
    as (s2 & ctx2 & H1 & H2 & _).
  - vm_compute. split; [discriminate | reflexivity].
  - exists s2, ctx2. split; [exact H1|]. split; [exact H2|].
    vm_compute in H1. injection H1 as <-. vm_compute in H2. injection H2 as <-.
    reflexivity.
Defined.

Lemma Row_Eval_app_witness :
  List.length [int64Val 5; int64Val 1] = List.length [dbgen.Constant (int64Val 5); dbgen.RowNum].
Proof.
  apply (proj2 (Row_Eval_app no_ParseInLocation no_IndexFunc no_TrimSpace 1%nat
                  [dbgen.Constant (int64Val 5); dbgen.RowNum] []
                  (Some (exampleState [])))
           [int64Val 5; int64Val 1] (Some (exampleState []))).
  reflexivity.
Defined.

(** ** Qualified names *)

Lemma Join_snoc (l : list gostring) (x sep : gostring) :
  l <> [] -> strings.Join (l ++ [x]) sep = strings.Join l sep ++ sep ++ x.
Proof.
  induction l as [|e l IH]; intros Hl; [congruence|].
  destruct l as [|e' l]; [reflexivity|].
  change (strings.Join ((e :: e' :: l) ++ [x]) sep)
    with (e ++ sep ++ strings.Join ((e' :: l) ++ [x]) sep).
  rewrite IH by discriminate.
  change (strings.Join (e :: e' :: l) sep) with (e ++ sep ++ strings.Join (e' :: l) sep).
  now rewrite <- !app_assoc.
Qed.

(** The parts of a qualified name: its string is the schema name, a period
    and the unqualified name when it has two parts or more; with one part the
    schema name is empty and the unqualified name is the whole string; with
    no part at all the unqualified name indexes out of range. *)
Theorem QName_String_parts q :
  (Parts q = [] ->
   QName_Name q false = Panic outOfRange /\ SchemaName q = [] /\ QName_String q = [])
  /\ (forall p, Parts q = [p] ->
        SchemaName q = [] /\ QName_Name q false = Ok (QName_String q))
  /\ (forall ps p, ps <> [] -> Parts q = ps ++ [p] ->
        QName_Name q false = Ok (Name_String p)
        /\ SchemaName q = strings.Join (map Name_String ps) (str ".")
        /\ QName_String q = SchemaName q ++ str "." ++ Name_String p).
Proof.
  unfold QName_Name, SchemaName, QName_String. split; [|split].
  - intros ->. repeat split.
  - intros p ->. repeat split.
  - intros ps p Hps ->.
    assert (Hlen : len (ps ++ [p]) = len ps + 1)
      by (unfold len; rewrite length_app; cbn [List.length]; lia).
    assert (Hpos : 0 < len ps) by (destruct ps; [congruence | unfold len; cbn; lia]).
    rewrite Hlen, removelast_last.
    replace (len ps + 1 <=? 1) with false by lia.
    split; [|split; [reflexivity|]].
    + replace (len ps + 1 - 1) with (len ps) by lia.
      rewrite (nth_error_at (ps ++ [p]) (len ps) p); [reflexivity | lia |].
      unfold len. rewrite Nat2Z.id, nth_error_app2, Nat.sub_diag by lia. reflexivity.
    + rewrite map_app. cbn [map]. apply Join_snoc. now destruct ps.
Qed.

Lemma QName_String_parts_witness :
  QName_String (NewQName [str "db"; str "`My.Schema`"; str "t"])
  = SchemaName (NewQName [str "db"; str "`My.Schema`"; str "t"]) ++ str "." ++ str "t".
Proof.
  apply (proj2 (proj2 (QName_String_parts (NewQName [str "db"; str "`My.Schema`"; str "t"])))
           [NewName (str "db"); NewName (str "`My.Schema`")] (NewName (str "t"))).
  - discriminate.
  - reflexivity.
Defined.

(** ** Merging block spans *)

Lemma merge_separated_id input spans : forall last,
  separated input (last :: spans) = true -> merge input last spans = last :: spans.
Proof.
  induction spans as [|[l2 r2] rest IH]; intros [l1 r1] Hs; [reflexivity|].
  cbn [separated] in Hs. apply andb_true_iff in Hs. destruct Hs as (H1 & H2).
  apply negb_true_iff in H1. cbn [merge fst snd]. rewrite H1. f_equal. now apply IH.
Qed.

Lemma merge_length input spans : forall last,
  (List.length (merge input last spans) <= S (List.length spans))%nat.
Proof.
  induction spans as [|span rest IH]; intros last; cbn [merge List.length]; [lia|].
  destruct (allIn isWhitespace input (snd last) (fst span)).
  - specialize (IH (fst last, snd span)). lia.
  - specialize (IH span). cbn [List.length]. lia.
Qed.

Lemma merge_covers input hi spans : forall last lo,
  ordered lo hi (last :: spans) = true ->
  forall s, In s (last :: spans) ->
    exists m, In m (merge input last spans) /\ fst m <= fst s /\ snd s <= snd m.
Proof.
  induction spans as [|[l2 r2] rest IH]; intros [l1 r1] lo Ho s Hs.
  - destruct Hs as [<- | []]. exists (l1, r1). cbn. split; [now left | lia].
  - pose proof (proj1 (ordered_cons _ _ _ _ _) Ho) as (Ha & Hb & Ho1).
    pose proof (proj1 (ordered_cons _ _ _ _ _) Ho1) as (Hc & Hd & Ho2).
    cbn [merge fst snd]. destruct (allIn isWhitespace input r1 l2).
    + assert (Ho' : ordered lo hi ((l1, r2) :: rest) = true)
        by (apply ordered_cons; repeat split; [lia | lia | exact Ho2]).
      destruct Hs as [<- | [<- | Hs]].
      * destruct (IH (l1, r2) lo Ho' (l1, r2) (or_introl eq_refl)) as (m & Hm & H1 & H2).
        exists m. cbn [fst snd] in *. split; [exact Hm | lia].
      * destruct (IH (l1, r2) lo Ho' (l1, r2) (or_introl eq_refl)) as (m & Hm & H1 & H2).
        exists m. cbn [fst snd] in *. split; [exact Hm | lia].
      * apply (IH (l1, r2) lo Ho' s). now right.
    + destruct Hs as [<- | Hs].
      * exists (l1, r1). split; [now left | lia].
      * destruct (IH (l2, r2) r1 Ho1 s Hs) as (m & Hm & H1 & H2).
        exists m. split; [now right | lia].
Qed.

(** [mergeBlockSpans] on spans that lie in order inside the input: it
    returns spans in order, no two of which are separated by whitespace only;
    every span given is inside one of them; there are no more of them than
    were given; and merging them again changes nothing. *)
Theorem mergeBlockSpans_spec (E : Type) input lo hi spans :
  0 <= lo -> hi <= len input -> ordered lo hi spans = true ->
  exists merged,
    mergeBlockSpans (E:=E) input spans = Ok merged
    /\ ordered lo hi merged = true
    /\ separated input merged = true
    /\ (List.length merged <= List.length spans)%nat
    /\ (forall s, In s spans ->
          exists m, In m merged /\ fst m <= fst s /\ snd s <= snd m)
    /\ mergeBlockSpans (E:=E) input merged = Ok merged.
Proof.
  intros H0 H1 Ho. destruct spans as [|first rest].
  - exists []. repeat split; try assumption; try reflexivity. intros s [].
  - exists (merge input first rest). cbn [mergeBlockSpans].
    rewrite (mergeBlockSpans_loop_spec input hi rest [] first lo) by assumption.
    pose proof (merge_ordered input hi rest first lo Ho) as Hmo.
    pose proof (merge_separated input rest first) as Hms.
    split; [reflexivity|]. split; [exact Hmo|]. split; [exact Hms|].
    split; [apply merge_length|]. split; [now apply (merge_covers input hi rest first lo)|].
    destruct (merge input first rest) as [|m ms] eqn:Em; [reflexivity|].
    cbn [mergeBlockSpans].
    rewrite (mergeBlockSpans_loop_spec input hi ms [] m lo) by assumption.
    now rewrite (merge_separated_id input ms m Hms).
Qed.

Lemma mergeBlockSpans_spec_witness :
  exists merged,
    mergeBlockSpans (E:=unit) (str "a {{1}} {{2}} b {{3}}") [(2, 7); (8, 13); (16, 21)]
      = Ok merged
    /\ ordered 0 21 merged = true
    /\ separated (str "a {{1}} {{2}} b {{3}}") merged = true
    /\ (List.length merged <= 3)%nat
    /\ (forall s, In s [(2, 7); (8, 13); (16, 21)] ->
          exists m, In m merged /\ fst m <= fst s /\ snd s <= snd m)
    /\ mergeBlockSpans (E:=unit) (str "a {{1}} {{2}} b {{3}}") merged = Ok merged.
Proof.
  apply (mergeBlockSpans_spec unit (str "a {{1}} {{2}} b {{3}}") 0 21
           [(2, 7); (8, 13); (16, 21)]).
  - lia.
  - vm_compute. discriminate.
  - reflexivity.
Defined.

(** ** Quoted strings and names *)

(** [singleQuote] and [backQuote], with which the expressions are printed. *)
Definition singleQuote (s : gostring) : gostring :=
  str "'" ++ strings.ReplaceAll s (str "'") (str "''") ++ str "'".

Definition backQuote (s : gostring) : gostring :=
  str "`" ++ strings.ReplaceAll s (str "`") (str "``") ++ str "`".

Lemma chr_inj a b : chr a = chr b -> a = b.
Proof.
  unfold chr. intros H. apply N2Z.inj in H.
  rewrite <- (ascii_N_embedding a), <- (ascii_N_embedding b). now rewrite H.
Qed.

Lemma chr_nonneg a : 0 <= chr a.
Proof. unfold chr. lia. Qed.

Lemma skipn_cons_lt {A} (s : list A) p c t :
  skipn p s = c :: t -> (p < List.length s)%nat /\ nth_error s p = Some c /\ skipn (S p) s = t.
Proof.
  intros H. assert (Hlt : (p < List.length s)%nat).
  { destruct (Nat.lt_ge_cases p (List.length s)) as [Hl|Hg]; [exact Hl|].
    rewrite skipn_all2 in H by lia. discriminate. }
  split; [exact Hlt|]. split.
  - rewrite <- (Nat.add_0_r p), <- nth_error_skipn_add, H. reflexivity.
  - change (S p) with (1 + p)%nat. rewrite <- skipn_skipn, H. reflexivity.
Qed.

(** What [next] does in front of a byte [c]. *)
Lemma next_at l c t :
  0 <= lpos l -> skipn (Z.to_nat (lpos l)) (in_ l) = c :: t ->
  fst (next l) = chr c
  /\ lpos (snd (next l)) = lpos l + 1
  /\ skipn (Z.to_nat (lpos (snd (next l)))) (in_ (snd (next l))) = t
  /\ in_ (snd (next l)) = in_ l /\ start (snd (next l)) = start l
  /\ startLine (snd (next l)) = startLine l /\ startCol (snd (next l)) = startCol l
  /\ insideBlock (snd (next l)) = insideBlock l.
Proof.
  intros Hp Hs. destruct (skipn_cons_lt _ _ _ _ Hs) as (Hlt & Hn & Ht).
  destruct (next_fields l) as (N1 & N2 & N3 & N4 & N5 & N6).
  assert (Hpk : peek l = chr c).
  { apply (peekN_at l 0 c); [exact Hp | lia |]. now rewrite Hs. }
  replace (lpos l <? len (in_ l)) with true in N1 by (unfold len; lia).
  split; [exact Hpk|]. split; [exact N1|]. split.
  - rewrite N1, N2. replace (Z.to_nat (lpos l + 1)) with (S (Z.to_nat (lpos l))) by lia.
    exact Ht.
  - repeat split; assumption.
Qed.

Lemma peek_at l c t :
  0 <= lpos l -> skipn (Z.to_nat (lpos l)) (in_ l) = c :: t -> peek l = chr c.
Proof. intros Hp Hs. now destruct (next_at l c t Hp Hs) as (H & _). Qed.

Lemma peek_at_end l :
  0 <= lpos l -> skipn (Z.to_nat (lpos l)) (in_ l) = [] -> peek l = eof.
Proof.
  intros Hp Hs. unfold peek, peekN. rewrite Z.add_0_r.
  destruct (lpos l >=? len (in_ l)) eqn:E; [reflexivity|].
  assert (Hlt : (Z.to_nat (lpos l) < List.length (in_ l))%nat) by (unfold len in E; lia).
  apply (f_equal (@List.length ascii)) in Hs. rewrite length_skipn in Hs.
  cbn [List.length] in Hs. lia.
Qed.

Definition isQuote (q : ascii) : Prop := q = "'"%char \/ q = "`"%char \/ q = dquote.

(** The token type of a quoted text: a string in single quotes, an
    identifier in back quotes or double quotes. *)
Definition quotedType (q : ascii) : tokenType :=
  if Ascii.eqb q "'" then tokenString else tokenIdent.

Section QuotedTokens.

Context {E : Type}.
Variable q : ascii.
Hypothesis Hq : isQuote q.
Variable after : gostring.
Hypothesis Hafter : hd_error after <> Some q.

Lemma lexQuote_loop_spec : forall s l fuel,
  0 <= lpos l ->
  skipn (Z.to_nat (lpos l)) (in_ l) = strings.ReplaceAll s [q] [q; q] ++ q :: after ->
  (List.length (strings.ReplaceAll s [q] [q; q]) < fuel)%nat ->
  exists l',
    lexQuote_loop (E:=E) fuel (chr q) l = emit (quotedType q) l'
    /\ in_ l' = in_ l
    /\ lpos l' = lpos l + len (strings.ReplaceAll s [q] [q; q]) + 1
    /\ start l' = start l /\ startLine l' = startLine l /\ startCol l' = startCol l
    /\ insideBlock l' = insideBlock l.
Proof.
  induction s as [|c s IH]; intros l fuel Hp Hs Hf.
  - change (strings.ReplaceAll [] [q] [q; q]) with (@nil ascii) in *.
    cbn [app] in Hs. destruct fuel as [|f]; [cbn in Hf; lia|].
    destruct (next_at l q after Hp Hs) as (N0 & N1 & N2 & N3 & N4 & N5 & N6 & N7).
    cbn [lexQuote_loop]. rewrite (surjective_pairing (next l)), N0.
    replace (chr q =? eof) with false by (pose proof (chr_nonneg q); unfold eof; lia).
    rewrite Z.eqb_refl.
    assert (Hpk : (peek (snd (next l)) =? chr q) = false).
    { destruct after as [|a after'].
      - rewrite (peek_at_end (snd (next l))) by (lia || exact N2).
        pose proof (chr_nonneg q). unfold eof. lia.
      - rewrite (peek_at (snd (next l)) a after') by (lia || exact N2).
        apply Z.eqb_neq. intros H. apply chr_inj in H. subst a. now apply Hafter. }
    rewrite Hpk. exists (snd (next l)). split.
    + unfold quotedType, squote. destruct Hq as [-> | [-> | ->]]; reflexivity.
    + unfold len. cbn [List.length]. repeat split; try assumption. lia.
  - rewrite ReplaceAll_double_cons in *. destruct fuel as [|f]; [lia|].
    destruct (Ascii.eqb c q) eqn:Ec.
    + apply Ascii.eqb_eq in Ec. subst c. cbn [app] in Hs.
      destruct (next_at l q _ Hp Hs) as (N0 & N1 & N2 & N3 & N4 & N5 & N6 & N7).
      pose proof (next_at (snd (next l)) q _ ltac:(lia) N2)
        as (M0 & M1 & M2 & M3 & M4 & M5 & M6 & M7).
      cbn [lexQuote_loop]. rewrite (surjective_pairing (next l)), N0.
      replace (chr q =? eof) with false by (pose proof (chr_nonneg q); unfold eof; lia).
      rewrite Z.eqb_refl.
      rewrite (peek_at (snd (next l)) q _ ltac:(lia) N2), Z.eqb_refl.
      destruct (IH (snd (next (snd (next l)))) f ltac:(lia) M2) as (l' & H1 & H2 & H3 & H4).
      { cbn [app List.length] in Hf. lia. }
      exists l'. split; [exact H1|]. split; [congruence|]. split.
      * rewrite H3, M1, N1. unfold len. cbn [app List.length]. lia.
      * destruct H4 as (H4 & H5 & H6 & H7). repeat split; congruence.
    + cbn [app] in Hs.
      destruct (next_at l c _ Hp Hs) as (N0 & N1 & N2 & N3 & N4 & N5 & N6 & N7).
      cbn [lexQuote_loop]. rewrite (surjective_pairing (next l)), N0.
      replace (chr c =? eof) with false by (pose proof (chr_nonneg c); unfold eof; lia).
      replace (chr c =? chr q) with false.
      2:{ symmetry. apply Z.eqb_neq. intros H. apply chr_inj in H. subst c.
          now rewrite Ascii.eqb_refl in Ec. }
      destruct (IH (snd (next l)) f ltac:(lia) N2) as (l' & H1 & H2 & H3 & H4).
      { cbn [app List.length] in Hf. lia. }
      exists l'. split; [exact H1|]. split; [congruence|]. split.
      * rewrite H3, N1. unfold len. cbn [app List.length]. lia.
      * destruct H4 as (H4 & H5 & H6 & H7). repeat split; congruence.
Qed.

End QuotedTokens.

Lemma skipWhitespace_none l : isWhitespace (peek l) = false -> skipWhitespace l = l.
Proof.
  intros H. unfold skipWhitespace, accept, bound. cbn [accept_loop]. now rewrite H.
Qed.

(** At the end of the input [lex] gives [EOF] and stays there. *)
Lemma lex_at_end {E} l :
  0 <= lpos l -> lpos l = len (in_ l) ->
  lex (E:=E) l
  = Ok ({| typ := tokenEOF; pos := lpos l; val := [];
           line := lline l; col := lpos l - linePos l |}, mark_start l).
Proof.
  intros Hp He.
  assert (Hpk : peek l = eof).
  { apply peek_at_end; [exact Hp|]. apply skipn_all2. unfold len in He. lia. }
  unfold lex. rewrite (skipWhitespace_none l) by (rewrite Hpk; reflexivity).
  change (peek (mark_start l)) with (peek l). rewrite Hpk.
  change (eof =? eof) with true. cbv iota. unfold emit.
  cbn [in_ start lpos mark_start startLine startCol].
  rewrite slice_ok by lia. cbn [bind]. rewrite Z.sub_diag. reflexivity.
Qed.

(** A quoted text is one token: its whole text, doubled quotes included. *)
Lemma lex_quoted {E} q s after l :
  isQuote q -> hd_error after <> Some q -> 0 <= lpos l ->
  skipn (Z.to_nat (lpos l)) (in_ l) = quoteWith q s ++ after ->
  exists l',
    lex (E:=E) l
    = Ok ({| typ := quotedType q; pos := lpos l; val := quoteWith q s;
             line := lline l; col := lpos l - linePos l |}, l')
    /\ in_ l' = in_ l /\ lpos l' = lpos l + len (quoteWith q s)
    /\ insideBlock l' = insideBlock l.
Proof.
  intros Hq Hafter Hp Hs. unfold quoteWith in Hs. cbn [app] in Hs.
  rewrite <- app_assoc in Hs. cbn [app] in Hs.
  assert (Hpk : peek l = chr q) by (eapply peek_at; eassumption).
  assert (Hws : isWhitespace (chr q) = false)
    by (destruct Hq as [-> | [-> | ->]]; reflexivity).
  unfold lex. rewrite (skipWhitespace_none l) by (now rewrite Hpk).
  set (l0 := mark_start l).
  assert (Hs0 : skipn (Z.to_nat (lpos l0)) (in_ l0)
                = q :: strings.ReplaceAll s [q] [q; q] ++ q :: after) by exact Hs.
  change (peek l0) with (peek l). rewrite Hpk.
  assert (Hlex : (if chr q =? eof then emit (E:=E) tokenEOF l0
                  else if chr q =? chr "-"
                       then if peekN l0 1 =? chr "-" then lexComment l0 else lexChar l0
                  else if chr q =? chr "/"
                       then if insideBlock l0 || negb (peekN l0 1 =? chr "*")
                            then lexChar l0 else lexComment l0
                  else if (chr q =? chr "`") || (chr q =? chr dquote) || (chr q =? squote)
                       then lexQuote l0
                  else lexChar l0) = lexQuote l0)
    by (destruct Hq as [-> | [-> | ->]]; reflexivity).
  destruct (next_at l0 q _ Hp Hs0) as (N0 & N1 & N2 & N3 & N4 & N5 & N6 & N7).
  assert (Hfuel : (List.length (strings.ReplaceAll s [q] [q; q]) < bound l0)%nat).
  { unfold bound. apply (f_equal (@List.length ascii)) in Hs0.
    rewrite length_skipn in Hs0. cbn [List.length] in Hs0. rewrite length_app in Hs0. lia. }
  assert (Hp1 : 0 <= lpos (snd (next l0)))
    by (rewrite N1; change (lpos l0) with (lpos l); lia).
  destruct (lexQuote_loop_spec (E:=E) q Hq after Hafter s (snd (next l0)) (bound l0)
              Hp1 N2 Hfuel) as (l' & H1 & H2 & H3 & H4 & H5 & H6 & H7).
  exists (mark_start l').
  assert (Hq' : lexQuote (E:=E) l0
                = Ok ({| typ := quotedType q; pos := lpos l; val := quoteWith q s;
                         line := lline l; col := lpos l - linePos l |}, mark_start l')).
  { unfold lexQuote. rewrite (surjective_pairing (next l0)), N0, H1. unfold emit.
    rewrite H2, H4, H5, H6, N3, N4, N5, N6. cbn [in_ start startLine startCol mark_start l0 lpos].
    rewrite H3, N1. cbn [lpos mark_start l0].
    assert (Hlen : len (quoteWith q s) = len (strings.ReplaceAll s [q] [q; q]) + 2).
    { unfold quoteWith, len. cbn [app List.length]. rewrite length_app. cbn [List.length]. lia. }
    assert (Hin : len (quoteWith q s) <= len (in_ l) - lpos l).
    { apply (f_equal (@List.length ascii)) in Hs. rewrite length_skipn in Hs.
      cbn [List.length] in Hs. rewrite length_app in Hs. cbn [List.length] in Hs.
      rewrite Hlen. unfold len. lia. }
    assert (Hnn : 0 <= len (strings.ReplaceAll s [q] [q; q])) by (unfold len; lia).
    rewrite slice_ok by lia. cbn [bind].
    replace (lpos l + 1 + len (strings.ReplaceAll s [q] [q; q]) + 1 - lpos l)
      with (len (quoteWith q s)) by lia.
    replace (skipn (Z.to_nat (lpos l)) (in_ l)) with (quoteWith q s ++ after).
    2:{ rewrite Hs. unfold quoteWith. cbn [app]. now rewrite <- app_assoc. }
    now rewrite firstn_prefix. }
  split.
  - destruct Hq as [-> | [-> | ->]]; exact Hq'.
  - cbn [in_ lpos insideBlock mark_start].
    split; [rewrite H2, N3; reflexivity|]. split; [|rewrite H7, N7; reflexivity].
    rewrite H3, N1. cbn [lpos mark_start l0]. unfold quoteWith, len.
    cbn [app List.length]. rewrite length_app. cbn [List.length]. lia.
Qed.

(** ** Parsing what is printed *)

Lemma pnext_token p t l :
  lex (E:=perror) (lex_ p) = Ok (t, l) -> tokenType_beq (typ t) tokenComment = false ->
  pnext p = Ok {| lex_ := l; input := input p; tok := tok1 p; tok1 := t |}.
Proof.
  intros Hl Ht. unfold pnext. rewrite Hl. cbn [bind].
  unfold bound. cbn [skipComments]. rewrite Ht. reflexivity.
Qed.

Lemma parsePrimaryExpr_string f p :
  typ (tok p) = tokenString ->
  parsePrimaryExpr (S f) p
  = (p' <- pnext p ;; Ok (Constant (MakeBytes (unescape (val (tok p)))), p')).
Proof.
  destruct p as [l i [ty ps v ln cl] t1]. cbn [tok typ]. intros ->. reflexivity.
Qed.

Lemma parsePrimaryExpr_variable f p :
  typ (tok p) = tokenAt ->
  parsePrimaryExpr (S f) p
  = (p <- pnext p ;;
     if negb (isIdent (tok p)) then errorExpected (expectedText "identifier") p
     else
       let name := unescape (val (tok p)) in
       p <- pnext p ;;
       Ok (GetVariable (unescape name), p)).
Proof.
  destruct p as [l i [ty ps v ln cl] t1]. cbn [tok typ]. intros ->. reflexivity.
Qed.

Lemma parseUnaryExpr_primary f p :
  token_Op (tok p) = OpInvalid ->
  parseUnaryExpr (S f) p
  = ('(expr, p) <- parsePrimaryExpr f p ;;
     if negb (tokenType_beq (typ (tok p)) tokenLeftBrack) then Ok (expr, p)
     else
       p <- pnext p ;;
       '(index, p) <- parseExpr f p ;;
       p <- expect tokenRightBrack p ;;
       Ok (Subscript expr index, p)).
Proof.
  intros H. cbn [parseUnaryExpr]. rewrite H. reflexivity.
Qed.

Lemma parseBinaryExpr_loop_stop f prec lhs p :
  IsBinary (token_Op (tok p)) = false ->
  parseBinaryExpr_loop (S f) prec lhs p = Ok (lhs, p).
Proof.
  intros H. cbn [parseBinaryExpr_loop]. unfold parseOp.
  destruct (Op_beq (token_Op (tok p)) OpIs && Op_beq (token_Op (tok1 p)) OpNot) eqn:E.
  - apply andb_true_iff in E. destruct E as (E & _).
    destruct (token_Op (tok p)); discriminate.
  - rewrite H. reflexivity.
Qed.

(** An expression that is one primary expression followed by the end of the
    input. *)
Lemma parseExpr_primary f p e p' :
  token_Op (tok p) = OpInvalid ->
  parsePrimaryExpr f p = Ok (e, p') ->
  typ (tok p') = tokenEOF ->
  parseExpr (S (S (S f))) p = Ok (e, p').
Proof.
  intros Hop Hprim Heof.
  change (parseExpr (S (S (S f))) p)
    with ('(lhs, p0) <- parseUnaryExpr (S f) p ;;
          parseBinaryExpr_loop (S f) (Prec OpSemicolon) lhs p0).
  rewrite (parseUnaryExpr_primary f p Hop), Hprim. cbn [bind]. rewrite Heof.
  cbn [tokenType_beq negb bind].
  apply parseBinaryExpr_loop_stop. unfold token_Op. now rewrite Heof.
Qed.

Lemma quotedType_not_comment q : tokenType_beq (quotedType q) tokenComment = false.
Proof. unfold quotedType. destruct (Ascii.eqb q "'"); reflexivity. Qed.

(** Three tokens at the end of the input: the parser state after the last
    token of an input has been made the current one, and after it has been
    consumed. *)
Lemma pnext_at_end p :
  0 <= lpos (lex_ p) -> lpos (lex_ p) = len (in_ (lex_ p)) ->
  exists p',
    pnext p = Ok p' /\ tok p' = tok1 p /\ typ (tok1 p') = tokenEOF
    /\ input p' = input p
    /\ 0 <= lpos (lex_ p') /\ lpos (lex_ p') = len (in_ (lex_ p')).
Proof.
  intros Hp He. eexists. split.
  - apply pnext_token; [apply lex_at_end; assumption | reflexivity].
  - cbn [tok tok1 typ input lex_ mark_start lpos in_]. repeat split; assumption.
Qed.

(** A string constant is printed by [singleQuote]; the parser reads what
    [singleQuote] writes as the constant of the same bytes, whatever they
    are: quotes, delimiters, line ends. *)
Theorem ParseExpr_singleQuote s n :
  ParseExpr (4 + n) (singleQuote s) = Ok (Constant (bytesVal s)).
Proof.
  unfold ParseExpr, init.
  set (inp := singleQuote s).
  set (p0 := {| lex_ := newLexer inp; input := inp; tok := zeroToken; tok1 := zeroToken |}).
  destruct (lex_quoted (E:=perror) "'" s [] (newLexer inp)) as (l1 & L1 & I1 & P1 & _).
  { now left. }
  { discriminate. }
  { cbn. lia. }
  { cbn [lpos newLexer in_ Z.to_nat skipn]. now rewrite app_nil_r. }
  rewrite (pnext_token p0 _ l1 L1 (quotedType_not_comment _)). cbn [bind].
  cbn [lpos newLexer in_] in P1, I1.
  match goal with |- context [pnext ?p] => set (p1 := p) end.
  destruct (pnext_at_end p1) as (p2 & N2 & T2 & E2 & _ & Hp2 & He2).
  { cbn [p1 lex_]. rewrite P1. unfold len. lia. }
  { cbn [p1 lex_]. rewrite P1, I1. reflexivity. }
  rewrite N2. cbn [bind].
  destruct (pnext_at_end p2 Hp2 He2) as (p3 & N3 & T3 & E3 & _).
  assert (Hprim : parsePrimaryExpr (S n) p2 = Ok (Constant (bytesVal s), p3)).
  { rewrite parsePrimaryExpr_string by (rewrite T2; reflexivity).
    rewrite N3. cbn [bind]. rewrite T2. cbn [p1 tok1 val MakeBytes].
    now rewrite unescape_quoteWith by (right; right; reflexivity). }
  change (4 + n)%nat with (S (S (S (S n)))).
  rewrite (parseExpr_primary (S n) p2 (Constant (bytesVal s)) p3);
    [reflexivity | | exact Hprim |].
  - rewrite T2. reflexivity.
  - rewrite T3. exact E2.
Qed.

Lemma lex_at_sign {E} l rest :
  0 <= lpos l -> skipn (Z.to_nat (lpos l)) (in_ l) = "@"%char :: rest ->
  exists l',
    lex (E:=E) l
    = Ok ({| typ := tokenAt; pos := lpos l; val := str "@";
             line := lline l; col := lpos l - linePos l |}, l')
    /\ in_ l' = in_ l /\ lpos l' = lpos l + 1.
Proof.
  intros Hp Hs.
  assert (Hpk : peek l = chr "@") by (eapply peek_at; eassumption).
  unfold lex. rewrite (skipWhitespace_none l) by (now rewrite Hpk).
  set (l0 := mark_start l).
  change (peek l0) with (peek l). rewrite Hpk.
  assert (Hs0 : skipn (Z.to_nat (lpos l0)) (in_ l0) = "@"%char :: rest) by exact Hs.
  destruct (next_at l0 "@" rest Hp Hs0) as (N0 & N1 & N2 & N3 & N4 & N5 & N6 & N7).
  exists (mark_start (snd (next l0))).
  assert (Hc : lexChar (E:=E) l0
               = Ok ({| typ := tokenAt; pos := lpos l; val := str "@";
                        line := lline l; col := lpos l - linePos l |},
                     mark_start (snd (next l0)))).
  { unfold lexChar. rewrite (surjective_pairing (next l0)), N0.
    change (specialChars (chr "@")) with (Some tokenAt). unfold emit.
    rewrite N3, N4, N5, N6, N1. cbn [in_ start startLine startCol lpos mark_start l0].
    assert (Hlt : lpos l + 1 <= len (in_ l)).
    { destruct (skipn_cons_lt _ _ _ _ Hs) as (Hlt & _). unfold len. lia. }
    rewrite slice_ok by lia. cbn [bind].
    replace (Z.to_nat (lpos l + 1 - lpos l)) with 1%nat by lia.
    rewrite Hs. reflexivity. }
  split; [exact Hc|].
  cbn [in_ lpos mark_start]. split; [rewrite N3; reflexivity | rewrite N1; reflexivity].
Qed.

(** [GetVariable.String]: [@] and the name in back quotes. *)
Definition GetVariable_String (name : gostring) : gostring :=
  str "@" ++ backQuote name.

Lemma ReplaceAll_undouble_length q : forall s k,
  (List.length (strings.ReplaceAll_go k s [q; q] [q]) <= List.length s)%nat.
Proof.
  induction s as [|c s IH]; intros k; [cbn; lia|].
  cbn [strings.ReplaceAll_go]. destruct k as [|k].
  - destruct (strings.HasPrefix (c :: s) [q; q]).
    + cbn [List.length app]. specialize (IH (2 - 1)%nat). cbn [List.length]. lia.
    + cbn [List.length]. specialize (IH O). lia.
  - specialize (IH k). cbn [List.length]. lia.
Qed.

(** [unescape] leaves a name as it is exactly when the name does not begin
    like a quoted one; otherwise the result is shorter. *)
Lemma unescape_fixed name : unescape name = name <-> bare_ok name.
Proof.
  split; [|apply unescape_bare].
  destruct name as [|c [|d t]]; try (intros _; exact I).
  unfold unescape, bare_ok.
  replace (len (c :: d :: t) <? 2) with false
    by (symmetry; apply Z.ltb_ge; unfold len; cbn [List.length]; lia).
  assert (Hrl : List.length (removelast (d :: t)) = List.length t).
  { clear. revert d. induction t as [|x t IH]; intros d; [reflexivity|].
    change (removelast (d :: x :: t)) with (d :: removelast (x :: t)).
    cbn [List.length]. now rewrite IH. }
  destruct (Ascii.eqb c dquote) eqn:E1; cbn [orb].
  { intros H. apply (f_equal (@List.length ascii)) in H.
    pose proof (ReplaceAll_undouble_length c (removelast (d :: t)) O) as L.
    unfold strings.ReplaceAll in H. cbn [List.length] in H. lia. }
  destruct (Ascii.eqb c "`") eqn:E2; cbn [orb].
  { intros H. apply (f_equal (@List.length ascii)) in H.
    pose proof (ReplaceAll_undouble_length c (removelast (d :: t)) O) as L.
    unfold strings.ReplaceAll in H. cbn [List.length] in H. lia. }
  destruct (Ascii.eqb c "'") eqn:E3.
  { intros H. apply (f_equal (@List.length ascii)) in H.
    pose proof (ReplaceAll_undouble_length c (removelast (d :: t)) O) as L.
    unfold strings.ReplaceAll in H. cbn [List.length] in H. lia. }
  destruct (Ascii.eqb c "[") eqn:E4.
  { intros H. apply (f_equal (@List.length ascii)) in H.
    cbn [List.length] in H. lia. }
  intros _. apply Ascii.eqb_neq in E1, E2, E3, E4. repeat split; assumption.
Qed.

(** The parser unescapes the name of a variable twice.  What
    [GetVariable.String] prints is read back as the variable named
    [unescape name]: that is the variable printed exactly when its name does
    not begin like a quoted name. *)
Theorem ParseExpr_GetVariable_String name n :
  ParseExpr (4 + n) (GetVariable_String name) = Ok (GetVariable (unescape name))
  /\ (ParseExpr (4 + n) (GetVariable_String name) = Ok (GetVariable name)
      <-> bare_ok name).
Proof.
  assert (Hmain : ParseExpr (4 + n) (GetVariable_String name)
                  = Ok (GetVariable (unescape name))).
  { unfold ParseExpr, init.
    set (inp := GetVariable_String name).
    set (p0 := {| lex_ := newLexer inp; input := inp; tok := zeroToken; tok1 := zeroToken |}).
    destruct (lex_at_sign (E:=perror) (newLexer inp) (backQuote name))
      as (l1 & L1 & I1 & P1); [cbn; lia | reflexivity |].
    rewrite (pnext_token p0 _ l1 L1 eq_refl). cbn [bind].
    cbn [lpos newLexer in_] in P1, I1.
    destruct (lex_quoted (E:=perror) "`" name [] l1) as (l2 & L2 & I2 & P2 & _).
    { right. now left. }
    { discriminate. }
    { lia. }
    { rewrite P1, I1, app_nil_r. reflexivity. }
    match goal with |- context [pnext ?p] => set (p1 := p) end.
    rewrite (pnext_token p1 _ l2 L2 (quotedType_not_comment _)). cbn [bind].
    match goal with |- context [parseExpr _ ?p] => set (p2 := p) end.
    assert (Hlen : len inp = 1 + len (quoteWith "`" name))
      by (unfold inp, GetVariable_String; change (backQuote name) with (quoteWith "`" name);
          unfold len; cbn [str list_ascii_of_string app List.length]; lia).
    destruct (pnext_at_end p2) as (p3 & N3 & T3 & E3 & _ & Hp3 & He3).
    { cbn [p2 lex_]. rewrite P2, P1. unfold len. lia. }
    { cbn [p2 lex_]. rewrite P2, P1, I2, I1, Hlen. lia. }
    destruct (pnext_at_end p3 Hp3 He3) as (p4 & N4 & T4 & E4 & _).
    assert (Hprim : parsePrimaryExpr (S n) p2 = Ok (GetVariable (unescape name), p4)).
    { rewrite parsePrimaryExpr_variable by reflexivity.
      rewrite N3. cbn [bind]. rewrite T3. cbn [p2 tok1].
      assert (Hid : forall t, typ t = tokenIdent -> isIdent t = true).
      { intros t Ht. unfold isIdent. rewrite Ht. now destruct (keywords _). }
      rewrite Hid by reflexivity. cbn [negb val]. cbv zeta. rewrite N4. cbn [bind].
      now rewrite (unescape_quoteWith "`" name) by (right; left; reflexivity). }
    change (4 + n)%nat with (S (S (S (S n)))).
    rewrite (parseExpr_primary (S n) p2 (GetVariable (unescape name)) p4);
      [reflexivity | reflexivity | exact Hprim |].
    rewrite T4. exact E3. }
  split; [exact Hmain|]. rewrite Hmain. split.
  - intros H. apply unescape_fixed. now injection H.
  - intros Hb. now rewrite unescape_bare.
Qed.

Lemma ParseExpr_GetVariable_String_witness :
  ParseExpr 4 (GetVariable_String (str "a b")) = Ok (GetVariable (str "a b")).
Proof.
  apply (proj2 (proj2 (ParseExpr_GetVariable_String (str "a b") 0))).
  cbn. repeat split; discriminate.
Defined.

(** A name that is itself written like a quoted name comes back without its
    quotes. *)
Remark GetVariable_String_of_quoted_name :
  ParseExpr 4 (GetVariable_String (str "'x'")) = Ok (GetVariable (str "x")).
Proof. vm_compute. reflexivity. Qed.

(** ** Arrays *)

(** The element loop of [Cmp] on two arrays of lengths [la] and [lb]. *)
Definition cmpElements (la lb : Z) : list Value -> list Value -> res (Z * bool) :=
  fix loop (xs ys : list Value) {struct xs} : res (Z * bool) :=
    match xs, ys with
    | x :: xs', y :: ys' =>
        match Cmp x y with
        | Ok (r, isNull) =>
            if isNull then Ok (0, isNull)
            else if negb (r =? 0) then Ok (r, false)
            else loop xs' ys'
        | Err e => Err e
        | Panic msg => Panic msg
        | OutOfFuel => OutOfFuel
        end
    | _, _ => Ok (numberCmp la lb, false)
    end.

Lemma Cmp_arrayVal a b :
  Cmp (arrayVal a) (arrayVal b)
  = deferCmp (arrayVal a) (arrayVal b) (cmpElements (len a) (len b) a b).
Proof. reflexivity. Qed.

(** The lexicographic order of two lists of integers. *)
Fixpoint lexCompare (xs ys : list Z) : Z :=
  match xs, ys with
  | x :: xs', y :: ys' => if x =? y then lexCompare xs' ys' else Z.sgn (x - y)
  | [], [] => 0
  | [], _ :: _ => -1
  | _ :: _, [] => 1
  end.

Lemma cmpElements_int la lb : forall xs ys,
  Forall wfInt xs -> Forall wfInt ys ->
  la - lb = len xs - len ys ->
  cmpElements la lb xs ys = Ok (lexCompare (map intOf xs) (map intOf ys), false).
Proof.
  induction xs as [|x xs IH]; intros ys Hx Hy Hl.
  - destruct ys as [|y ys]; cbn [cmpElements map lexCompare]; rewrite numberCmp_sgn;
      unfold len in Hl; cbn [List.length] in Hl; do 2 f_equal; lia.
  - destruct ys as [|y ys].
    + cbn [cmpElements map lexCompare]. rewrite numberCmp_sgn.
      unfold len in Hl. cbn [List.length] in Hl. do 2 f_equal. lia.
    + inversion Hx as [|? ? Wx Hx']; subst. inversion Hy as [|? ? Wy Hy']; subst.
      cbn [cmpElements map lexCompare]. rewrite (Cmp_int x y Wx Wy).
      destruct (intOf x =? intOf y) eqn:E.
      * replace (Z.sgn (intOf x - intOf y)) with 0 by lia. cbn [negb Z.eqb].
        apply IH; try assumption. unfold len in *. cbn [List.length] in Hl. lia.
      * replace (negb (Z.sgn (intOf x - intOf y) =? 0)) with true by lia. reflexivity.
Qed.

(** [Cmp] orders arrays of integers lexicographically, a proper prefix
    before the longer array.  The array that [MakeArray] makes of no element
    holds the nil interface, and comparing it with an array that begins with
    an integer panics. *)
Theorem Cmp_of_integer_arrays xs ys :
  Forall wfInt xs -> Forall wfInt ys ->
  Cmp (arrayVal xs) (arrayVal ys) = Ok (lexCompare (map intOf xs) (map intOf ys), false)
  /\ (forall x xs', xs = x :: xs' -> Cmp (arrayVal xs) (MakeArray []) = Panic nilDeref).
Proof.
  intros Hx Hy. split.
  - rewrite Cmp_arrayVal, cmpElements_int by (assumption || lia). reflexivity.
  - intros x xs' ->. inversion Hx as [|? ? Wx _]; subst.
    change (MakeArray []) with (arrayVal [nilValue]). rewrite Cmp_arrayVal.
    cbn [cmpElements].
    destruct x; cbn [wfInt] in Wx; try contradiction; reflexivity.
Qed.

Lemma Cmp_of_integer_arrays_witness :
  Cmp (arrayVal [int64Val 1; intVal 2]) (arrayVal [intVal 1; int64Val 2; int64Val 0])
  = Ok (-1, false).
Proof.
  apply (Cmp_of_integer_arrays [int64Val 1; intVal 2] [intVal 1; int64Val 2; int64Val 0]).
  - repeat constructor; cbn; unfold in_int64, MinInt64, MaxInt64; lia.
  - repeat constructor; cbn; unfold in_int64, MinInt64, MaxInt64; lia.
Defined.

(** ** Errors of the arithmetic *)

(** Whatever the operands, an error of [Add], [Sub], [Mul], [Div], [Mod] or
    [FloatDiv] is a [BinaryOpError] that names the operation and the two
    operands of the call; its cause, when it has one, is the error met
    inside. *)
Theorem arithmetic_errors a b e :
  (Add a b = Err e -> exists cause, e = BinaryOpError "add" a b cause)
  /\ (Sub a b = Err e -> exists cause, e = BinaryOpError "sub" a b cause)
  /\ (Mul a b = Err e -> exists cause, e = BinaryOpError "mul" a b cause)
  /\ (Div a b = Err e -> exists cause, e = BinaryOpError "div" a b cause)
  /\ (Mod a b = Err e -> exists cause, e = BinaryOpError "mod" a b cause)
  /\ (FloatDiv a b = Err e -> exists cause, e = BinaryOpError "float_div" a b cause).
Proof.
  assert (Hd : forall op (r : res Value),
             (forall e', r = Err e' ->
                (exists cause, e' = BinaryOpError op a b cause)
                \/ (forall o l r' c, e' <> BinaryOpError o l r' c)) ->
             deferBinaryOp op a b r = Err e ->
             exists cause, e = BinaryOpError op a b cause).
  { intros op r Hr H. destruct r as [v|e'| |]; cbn in H; try discriminate.
    destruct (Hr e' eq_refl) as [(cause & ->) | Hn].
    - injection H as <-. now exists cause.
    - destruct e'; try (injection H as <-; eexists; reflexivity).
      exfalso. eapply Hn. reflexivity. }
  assert (Hnull : forall op (r : res Value),
             (if isNull a || isNull b then Ok Null else deferBinaryOp op a b r) = Err e ->
             deferBinaryOp op a b r = Err e)
    by (intros op r; destruct (isNull a || isNull b); [discriminate | auto]).
  repeat split; intros H; apply Hnull in H; eapply Hd; try exact H;
    intros e' He';
    destruct a as [| | | | | | | | |]; destruct b as [| | | | | | | | |];
    cbn in He';
    repeat match type of He' with
           | context [if ?c then _ else _] => destruct c; cbn in He'
           end;
    try discriminate He';
    try (injection He' as <-);
    first [ left; eexists; reflexivity | right; intros; discriminate ].
Qed.

Lemma arithmetic_errors_witness :
  exists cause,
    BinaryOpError "add" (boolVal true) (int64Val 1) None
    = BinaryOpError "add" (boolVal true) (int64Val 1) cause.
Proof.
  apply (proj1 (arithmetic_errors (boolVal true) (int64Val 1)
                  (BinaryOpError "add" (boolVal true) (int64Val 1) None))).
  reflexivity.
Defined.

(** ** The time zone cache *)

Definition with_LoadLocation (ctx : dbgen.CompileContext)
    (load : gostring -> res dbgen.Location) : dbgen.CompileContext :=
  {| dbgen.TimeZone := dbgen.TimeZone ctx;
     dbgen.CurrentTimestamp := dbgen.CurrentTimestamp ctx;
     dbgen.LoadLocation := load;
     dbgen.Variables := dbgen.Variables ctx;
     dbgen.tzCache := dbgen.tzCache ctx |}.

Lemma find_tz_cons tz loc cache :
  find (fun kv : gostring * dbgen.Location => gostring_eqb (fst kv) tz) ((tz, loc) :: cache)
  = Some (tz, loc).
Proof.
  cbn [find fst]. replace (gostring_eqb tz tz) with true; [reflexivity|].
  symmetry. now apply gostring_eqb_eq.
Qed.

(** [ParseTimeZone] loads a location once: after a successful call the
    answer for that name is the cached one, whatever [LoadLocation] would say
    now, and the context is left as it is; the answers cached for other names
    are kept. *)
Theorem ParseTimeZone_caches ctx tz loc ctx' :
  dbgen.ParseTimeZone ctx tz = Ok (loc, ctx') ->
  (forall load,
     dbgen.ParseTimeZone (with_LoadLocation ctx' load) tz
     = Ok (loc, with_LoadLocation ctx' load))
  /\ dbgen.Variables ctx' = dbgen.Variables ctx
  /\ (forall tz' loc',
        tz' <> tz ->
        dbgen.ParseTimeZone ctx tz' = Ok (loc', ctx) ->
        dbgen.ParseTimeZone ctx' tz' = Ok (loc', ctx')).
Proof.
  unfold dbgen.ParseTimeZone.
  destruct (find _ (dbgen.tzCache ctx)) as [[k v]|] eqn:Ef; intros H.
  - injection H as <- <-. cbn [snd]. split; [|split; [reflexivity|]].
    + intros load. cbn [with_LoadLocation dbgen.tzCache]. now rewrite Ef.
    + intros tz' loc' _ H'. exact H'.
  - destruct (dbgen.LoadLocation ctx tz) as [l| | |] eqn:El; cbn [bind] in H;
      try discriminate.
    injection H as <- <-. split; [|split; [reflexivity|]].
    + intros load. cbn [with_LoadLocation dbgen.tzCache dbgen.set_tzCache].
      now rewrite find_tz_cons.
    + intros tz' loc' Hne. cbn [dbgen.set_tzCache dbgen.tzCache find fst].
      replace (gostring_eqb tz tz') with false.
      2:{ symmetry. destruct (gostring_eqb tz tz') eqn:E; [|reflexivity].
          apply gostring_eqb_eq in E. congruence. }
      destruct (find (fun kv : gostring * dbgen.Location => gostring_eqb (fst kv) tz')
                  (dbgen.tzCache ctx)) as [[k' v']|] eqn:Ef'; intros H'.
      * injection H' as <-. reflexivity.
      * destruct (dbgen.LoadLocation ctx tz'); cbn [bind] in H'; try discriminate.
        injection H' as _ Hc. exfalso.
        apply (f_equal dbgen.tzCache) in Hc. cbn [dbgen.set_tzCache dbgen.tzCache] in Hc.
        apply (f_equal (@List.length _)) in Hc. cbn [List.length] in Hc. lia.
Qed.

Lemma ParseTimeZone_caches_witness :
  dbgen.ParseTimeZone
    (with_LoadLocation
       (dbgen.set_tzCache
          (with_LoadLocation exampleContext (fun name => Ok name))
          [(str "Asia/Tokyo", str "Asia/Tokyo")])
       (fun _ => Err (errorString "offline")))
    (str "Asia/Tokyo")
  = Ok (str "Asia/Tokyo",
        with_LoadLocation
          (dbgen.set_tzCache
             (with_LoadLocation exampleContext (fun name => Ok name))
             [(str "Asia/Tokyo", str "Asia/Tokyo")])
          (fun _ => Err (errorString "offline"))).
Proof.
  exact (proj1 (ParseTimeZone_caches
                  (with_LoadLocation exampleContext (fun name => Ok name))
                  (str "Asia/Tokyo") (str "Asia/Tokyo")
                  (dbgen.set_tzCache
                     (with_LoadLocation exampleContext (fun name => Ok name))
                     [(str "Asia/Tokyo", str "Asia/Tokyo")])
                  eq_refl)
           (fun _ => Err (errorString "offline"))).
Defined.

(** ** [generate_series] and NULL *)

(** A NULL among the arguments of [generate_series] is no error.  With a
    NULL start or stop the loop ends at once and the result is the array
    that [MakeArray] makes of no element; with a NULL step the series is its
    first value alone. *)
Theorem generate_series_with_null fuel :
  (forall stop step, Sign step <> 0 ->
     dbgen.GenerateSeriesFunc_Compile (S fuel) [Null; stop; step]
     = Ok (dbgen.Constant (arrayVal [nilValue])))
  /\ (forall start step, Sign step <> 0 ->
        dbgen.GenerateSeriesFunc_Compile (S fuel) [start; Null; step]
        = Ok (dbgen.Constant (arrayVal [nilValue])))
  /\ (forall start stop,
        wfInt start -> wfInt stop -> intOf start <= intOf stop ->
        dbgen.GenerateSeriesFunc_Compile (S (S fuel)) [start; stop; Null]
        = Ok (dbgen.Constant (arrayVal [start]))).
Proof.
  split; [|split].
  - intros stop step Hs. rewrite GenerateSeriesFunc_Compile_3.
    replace (Sign step =? 0) with false by lia. reflexivity.
  - intros start step Hs. rewrite GenerateSeriesFunc_Compile_3.
    replace (Sign step =? 0) with false by lia. cbn [bind].
    assert (Hc : Cmp start Null = Ok (0, true))
      by (destruct start; reflexivity).
    cbn [dbgen.GenerateSeries_loop]. rewrite Hc. reflexivity.
  - intros start stop Ha Hb Hle. rewrite GenerateSeriesFunc_Compile_3.
    change (Sign Null =? 0) with false. cbn [bind dbgen.GenerateSeries_loop].
    rewrite (Cmp_int start stop Ha Hb). cbn [bind].
    replace (Z.sgn (intOf start - intOf stop) =? Sign Null) with false
      by (change (Sign Null) with 1; lia).
    cbn [orb app].
    assert (Hadd : Add start Null = Ok Null) by (destruct start; reflexivity).
    rewrite Hadd. cbn [bind]. reflexivity.
Qed.

Lemma generate_series_with_null_witness :
  dbgen.GenerateSeriesFunc_Compile 2 [int64Val 1; int64Val 5; Null]
  = Ok (dbgen.Constant (arrayVal [int64Val 1])).
Proof.
  apply (proj2 (proj2 (generate_series_with_null 0)) (int64Val 1) (int64Val 5)).
  - cbn. unfold in_int64, MinInt64, MaxInt64. lia.
  - cbn. unfold in_int64, MinInt64, MaxInt64. lia.
  - cbn. lia.
Defined.

(** ** What the content of a table keeps *)

(** The bytes of a text that are not whitespace. *)
Definition visible (s : gostring) : gostring :=
  filter (fun c => negb (isWhitespace (chr c))) s.

(** The text of [input[lo:hi]] outside the spans. *)
Fixpoint outside (input : gostring) (lo hi : Z) (spans : list (Z * Z)) : gostring :=
  match spans with
  | [] => sub input lo hi
  | (l, r) :: rest => sub input lo l ++ outside input r hi rest
  end.

Lemma visible_app a b : visible (a ++ b) = visible a ++ visible b.
Proof. apply filter_app. Qed.

Lemma sub_split (s : gostring) a b c :
  0 <= a -> a <= b -> b <= c -> sub s a c = sub s a b ++ sub s b c.
Proof.
  intros H0 H1 H2. unfold sub.
  replace (Z.to_nat (c - a)) with (Z.to_nat (b - a) + Z.to_nat (c - b))%nat by lia.
  rewrite <- (firstn_skipn (Z.to_nat (b - a)) (firstn _ (skipn (Z.to_nat a) s))).
  rewrite firstn_firstn, skipn_firstn_comm, skipn_skipn.
  replace (Nat.min (Z.to_nat (b - a)) (Z.to_nat (b - a) + Z.to_nat (c - b)))
    with (Z.to_nat (b - a)) by lia.
  replace (Z.to_nat (b - a) + Z.to_nat (c - b) - Z.to_nat (b - a))%nat
    with (Z.to_nat (c - b)) by lia.
  replace (Z.to_nat (b - a) + Z.to_nat a)%nat with (Z.to_nat b) by lia.
  reflexivity.
Qed.

Lemma visible_whitespace input a b :
  allIn isWhitespace input a b = true -> visible (sub input a b) = [].
Proof.
  unfold allIn, visible. generalize (sub input a b) as s.
  induction s as [|x s IH]; [reflexivity|]. cbn [forallb filter]. intros H.
  apply andb_true_iff in H. destruct H as (H1 & H2). rewrite H1. cbn [negb]. now apply IH.
Qed.

Lemma allIn_join p input a b c :
  0 <= a -> a <= b -> b <= c ->
  allIn p input a b = true -> allIn p input b c = true -> allIn p input a c = true.
Proof.
  intros H0 H1 H2 Ha Hb. unfold allIn in *.
  rewrite (sub_split input a b c) by assumption. rewrite forallb_app. now rewrite Ha, Hb.
Qed.

Lemma sub_single (s : gostring) i c :
  0 <= i -> nth_error s (Z.to_nat i) = Some c -> sub s i (i + 1) = [c].
Proof.
  intros Hi Hn. unfold sub. rewrite (skipn_nth_cons _ _ _ Hn).
  now replace (Z.to_nat (i + 1 - i)) with 1%nat by lia.
Qed.

Lemma allIn_single (p : Z -> bool) input i c :
  0 <= i -> nth_error input (Z.to_nat i) = Some c -> p (chr c) = true ->
  allIn p input i (i + 1) = true.
Proof.
  intros Hi Hn Hp. unfold allIn. rewrite (sub_single input i c Hi Hn). cbn. now rewrite Hp.
Qed.

Lemma nth_error_sub (s : gostring) lo hi k c :
  nth_error (sub s lo hi) k = Some c -> nth_error s (Z.to_nat lo + k) = Some c.
Proof.
  unfold sub. intros H.
  assert (Hk : (k < Z.to_nat (hi - lo))%nat).
  { destruct (Nat.lt_ge_cases k (Z.to_nat (hi - lo))) as [Hl|Hg]; [exact Hl|].
    assert (Hnone : nth_error (firstn (Z.to_nat (hi - lo)) (skipn (Z.to_nat lo) s)) k = None).
    { apply nth_error_None. rewrite length_firstn. lia. }
    congruence. }
  rewrite nth_error_firstn in H.
  replace (k <? Z.to_nat (hi - lo))%nat with true in H by (symmetry; now apply Nat.ltb_lt).
  now rewrite nth_error_skipn_add in H.
Qed.

Lemma IndexByte_from_char s c : forall off i,
  strings.IndexByte_from off s c = i -> i <> -1 -> 0 <= off ->
  off <= i /\ nth_error s (Z.to_nat (i - off)) = Some c.
Proof.
  induction s as [|x s IH]; intros off i Hi Hne Hoff; cbn [strings.IndexByte_from] in Hi.
  - congruence.
  - destruct (Ascii.eqb x c) eqn:Ex.
    + apply Ascii.eqb_eq in Ex. subst x i. split; [lia|].
      now replace (Z.to_nat (off - off)) with 0%nat by lia.
    + destruct (IH (off + 1) i Hi Hne ltac:(lia)) as (Hr & Hn). split; [lia|].
      replace (Z.to_nat (i - off)) with (S (Z.to_nat (i - (off + 1)))) by lia. exact Hn.
Qed.

Lemma LastIndexByte_from_char s c : forall off i,
  strings.LastIndexByte_from off s c = i -> i <> -1 -> 0 <= off ->
  off <= i /\ nth_error s (Z.to_nat (i - off)) = Some c.
Proof.
  induction s as [|x s IH]; intros off i Hi Hne Hoff; cbn [strings.LastIndexByte_from] in Hi.
  - congruence.
  - cbv zeta in Hi.
    destruct (0 <=? strings.LastIndexByte_from (off + 1) s c) eqn:Er.
    + destruct (IH (off + 1) i Hi Hne ltac:(lia)) as (Hr & Hn). split; [lia|].
      replace (Z.to_nat (i - off)) with (S (Z.to_nat (i - (off + 1)))) by lia. exact Hn.
    + destruct (Ascii.eqb x c) eqn:Ex; [|congruence].
      apply Ascii.eqb_eq in Ex. subst x i. split; [lia|].
      now replace (Z.to_nat (off - off)) with 0%nat by lia.
Qed.

Lemma outside_advance input hi r r' rest :
  0 <= r -> r <= r' -> ordered r' hi rest = true ->
  allIn isWhitespace input r r' = true ->
  visible (outside input r hi rest) = visible (outside input r' hi rest).
Proof.
  intros H0 H1 Ho Hw.
  destruct rest as [|[l2 r2] t]; cbn [outside ordered] in *.
  - rewrite (sub_split input r r' hi) by lia.
    now rewrite visible_app, (visible_whitespace _ _ _ Hw).
  - rewrite (sub_split input r r' l2) by lia.
    now rewrite !visible_app, (visible_whitespace _ _ _ Hw).
Qed.

Lemma merge_outside input hi spans : forall last lo,
  0 <= lo -> ordered lo hi (last :: spans) = true ->
  visible (outside input lo hi (merge input last spans))
  = visible (outside input lo hi (last :: spans)).
Proof.
  induction spans as [|[l2 r2] rest IH]; intros [l1 r1] lo H0 Ho; [reflexivity|].
  pose proof (proj1 (ordered_cons _ _ _ _ _) Ho) as (Ha & Hb & Ho1).
  pose proof (proj1 (ordered_cons _ _ _ _ _) Ho1) as (Hc & Hd & Ho2).
  cbn [merge fst snd]. destruct (allIn isWhitespace input r1 l2) eqn:Ew.
  - rewrite IH; [| lia | apply ordered_cons; repeat split; [lia | lia | exact Ho2]].
    cbn [outside]. now rewrite !visible_app, (visible_whitespace _ _ _ Ew).
  - change (outside input lo hi ((l1, r1) :: merge input (l2, r2) rest))
      with (sub input lo l1 ++ outside input r1 hi (merge input (l2, r2) rest)).
    change (outside input lo hi ((l1, r1) :: (l2, r2) :: rest))
      with (sub input lo l1 ++ outside input r1 hi ((l2, r2) :: rest)).
    rewrite 2 visible_app. f_equal.
    apply (IH (l2, r2) r1); [lia | exact Ho1].
Qed.

Lemma extractTableContent_loop_visible {E} input hi :
  hi <= len input ->
  forall spans buf start,
    0 <= start ->
    ordered start hi spans = true ->
    separated input spans = true ->
    exists content,
      extractTableContent_loop (E:=E) input buf start hi spans = Ok content
      /\ visible content = visible buf ++ visible (outside input start hi spans).
Proof.
  intros Hhi.
  induction spans as [|[l r] rest IH]; intros buf start H0 Ho Hs.
  - cbn [extractTableContent_loop ordered outside] in *.
    rewrite slice_sub by lia. cbn [bind]. eexists; split; [reflexivity|].
    apply visible_app.
  - apply ordered_cons in Ho. destruct Ho as (Ha & Hlr & Ho).
    pose proof (ordered_le _ _ _ Ho) as Hrh.
    cbn [separated] in Hs. apply andb_true_iff in Hs. destruct Hs as (Hs1 & Hs2).
    assert (Hnext : forall m, allIn isSpace input r m = true ->
                     forall l2 r2 t, rest = (l2, r2) :: t -> m + 1 <= l2).
    { intros m Hm l2 r2 t ->. apply negb_true_iff in Hs1.
      pose proof (next_span_after _ _ _ _ Hm Hs1). lia. }
    assert (Hfin : forall l' r' x,
               start <= l' -> l' <= l -> r <= r' -> r' <= hi ->
               isWhitespace (chr x) = true ->
               allIn isWhitespace input l' l = true ->
               allIn isWhitespace input r r' = true ->
               (forall l2 r2 t, rest = (l2, r2) :: t -> r' <= l2) ->
               exists content,
                 (piece <- slice (E:=E) input start l' ;;
                  extractTableContent_loop input (buf ++ piece ++ [x]) r' hi rest)
                 = Ok content
                 /\ visible content
                    = visible buf ++ visible (outside input start hi ((l, r) :: rest))).
    { intros l' r' x H1 H2 H3 H4 Hx Hwl Hwr Hn.
      rewrite slice_sub by lia. cbn [bind].
      assert (Ho' : ordered r' hi rest = true)
        by (apply (ordered_advance hi r r'); assumption || lia).
      destruct (IH (buf ++ sub input start l' ++ [x]) r' ltac:(lia) Ho' Hs2)
        as (content & Hc & Hv).
      exists content. split; [exact Hc|]. rewrite Hv.
      cbn [outside]. rewrite !visible_app.
      rewrite (sub_split input start l' l) by lia. rewrite visible_app.
      rewrite (visible_whitespace _ _ _ Hwl), app_nil_r.
      rewrite (outside_advance input hi r r' rest) by (assumption || lia).
      unfold visible at 3. cbn [filter]. rewrite Hx. cbn [negb app].
      now rewrite <- !app_assoc. }
    cbn [extractTableContent_loop].
    rewrite (slice_sub input start l) by lia.
    rewrite (slice_sub input r hi) by lia. cbn [bind].
    pose proof (LastIndexByte_from_range (sub input start l) nl 0) as Hln.
    pose proof (IndexByte_from_range (sub input r hi) nl 0) as Hrn.
    pose proof (LastIndexByte_from_char (sub input start l) nl 0 _ eq_refl) as Hlc.
    pose proof (IndexByte_from_char (sub input r hi) nl 0 _ eq_refl) as Hrc.
    fold (strings.LastIndexByte (sub input start l) nl) in Hln, Hlc.
    fold (strings.IndexByte (sub input r hi) nl) in Hrn, Hrc.
    rewrite len_sub in Hln, Hrn by lia.
    set (ln := strings.LastIndexByte (sub input start l) nl) in *.
    set (rn := strings.IndexByte (sub input r hi) nl) in *.
    assert (Hl' : exists l',
               (if l >? start
                then c0 <- at_ (E:=E) input (l - 1) ;;
                     Ok (if isSpace (chr c0) then l - 1 else l)
                else Ok l) = Ok l' /\ start <= l' /\ l' <= l
               /\ allIn isWhitespace input l' l = true).
    { destruct (l >? start) eqn:El;
        [|exists l; repeat split; try lia; now apply allIn_empty].
      assert (Hlt : (Z.to_nat (l - 1) < List.length input)%nat) by (unfold len in Hhi; lia).
      destruct (nth_error input (Z.to_nat (l - 1))) as [c0|] eqn:En;
        [|apply nth_error_None in En; lia].
      unfold at_. rewrite En.
      replace ((0 <=? l - 1) && (l - 1 <? len input)) with true by (unfold len in *; lia).
      cbn [bind].
      destruct (isSpace (chr c0)) eqn:Ec; eexists; (split; [reflexivity|]);
        repeat split; try lia; [|now apply allIn_empty].
      replace l with (l - 1 + 1) at 2 by lia.
      apply (allIn_single _ _ _ c0); [lia | exact En | now apply isSpace_isWhitespace]. }
    assert (Hr' : exists r',
               (if r <? hi
                then c0 <- at_ (E:=E) input r ;;
                     Ok (if isSpace (chr c0) then r + 1 else r)
                else Ok r) = Ok r' /\ r <= r' /\ r' <= r + 1 /\ r' <= hi
               /\ allIn isWhitespace input r r' = true).
    { destruct (r <? hi) eqn:Er;
        [|exists r; repeat split; try lia; now apply allIn_empty].
      assert (Hlt : (Z.to_nat r < List.length input)%nat) by (unfold len in Hhi; lia).
      destruct (nth_error input (Z.to_nat r)) as [c0|] eqn:En;
        [|apply nth_error_None in En; lia].
      unfold at_. rewrite En.
      replace ((0 <=? r) && (r <? len input)) with true by (unfold len in *; lia).
      cbn [bind].
      destruct (isSpace (chr c0)) eqn:Ec; eexists; (split; [reflexivity|]);
        repeat split; try lia; [|now apply allIn_empty].
      apply (allIn_single _ _ _ c0); [lia | exact En | now apply isSpace_isWhitespace]. }
    destruct Hl' as (l' & El' & Hl1 & Hl2 & Hl3).
    destruct Hr' as (r' & Er' & Hr1 & Hr2 & Hr3 & Hr4).
    assert (Hplain : forall l2 r2 t, rest = (l2, r2) :: t -> r' <= l2).
    { intros l2 r2 t Et.
      pose proof (Hnext r (allIn_empty _ _ _ _ (Z.le_refl r)) l2 r2 t Et). lia. }
    assert (Hsp : isWhitespace (chr " ") = true) by reflexivity.
    assert (Hnlw : isWhitespace (chr nl) = true) by reflexivity.
    destruct (negb (ln =? -1) && negb (rn =? -1)) eqn:Ec.
    + apply andb_true_iff in Ec. destruct Ec as (Ec1 & Ec2).
      apply negb_true_iff, Z.eqb_neq in Ec1, Ec2.
      rewrite allBetween_ok by lia. cbn [bind].
      destruct (allIn isSpace input (start + ln + 1) l) eqn:E1.
      * rewrite allBetween_ok by lia. cbn [bind].
        destruct (allIn isSpace input r (r + rn)) eqn:E2; cbn [bind].
        -- destruct (Hlc Ec1 ltac:(lia)) as (_ & Hlch).
           destruct (Hrc Ec2 ltac:(lia)) as (_ & Hrch).
           rewrite Z.sub_0_r in Hlch, Hrch.
           apply nth_error_sub in Hlch, Hrch.
           apply Hfin; try lia; try exact Hnlw.
           ++ apply (allIn_join _ _ _ (start + ln + 1)); try lia.
              ** apply (allIn_single _ _ _ nl); [lia | | exact Hnlw].
                 now replace (Z.to_nat (start + ln)) with (Z.to_nat start + Z.to_nat ln)%nat by lia.
              ** exact (allIn_weaken _ _ _ _ _ isSpace_isWhitespace E1).
           ++ apply (allIn_join _ _ _ (r + rn)); try lia.
              ** exact (allIn_weaken _ _ _ _ _ isSpace_isWhitespace E2).
              ** apply (allIn_single _ _ _ nl); [lia | | exact Hnlw].
                 now replace (Z.to_nat (r + rn)) with (Z.to_nat r + Z.to_nat rn)%nat by lia.
           ++ intros l2 r2 t Et. exact (Hnext _ E2 l2 r2 t Et).
        -- rewrite El'. cbn [bind]. rewrite Er'. cbn [bind].
           apply Hfin; try lia; assumption.
      * cbn [bind]. rewrite El'. cbn [bind]. rewrite Er'. cbn [bind].
        apply Hfin; try lia; assumption.
    + cbn [bind]. rewrite El'. cbn [bind]. rewrite Er'. cbn [bind].
      apply Hfin; try lia; assumption.
Qed.

(** [extractTableContent] removes blocks and whitespace around them, and
    nothing else: the bytes of the content that are not whitespace are those
    of the statement outside the block spans, in order.  It returns for all
    spans that lie in order inside the statement. *)
Theorem extractTableContent_keeps_text (E : Type) input start end_ blockSpans :
  0 <= start -> end_ <= len input ->
  ordered start end_ blockSpans = true ->
  exists content,
    extractTableContent (E:=E) input start end_ blockSpans = Ok content
    /\ visible content = visible (outside input start end_ blockSpans)
    /\ (blockSpans = [] -> content = sub input start end_).
Proof.
  intros H0 H1 Ho. unfold extractTableContent.
  destruct blockSpans as [|first rest].
  - cbn [mergeBlockSpans bind extractTableContent_loop].
    pose proof (ordered_le _ _ _ Ho). rewrite slice_sub by lia. cbn [bind app].
    eexists. repeat split.
  - cbn [mergeBlockSpans].
    rewrite (mergeBlockSpans_loop_spec input end_ rest [] first start) by assumption.
    cbn [bind app].
    destruct (extractTableContent_loop_visible (E:=E) input end_ H1
                (merge input first rest) [] start H0
                (merge_ordered input end_ rest first start Ho)
                (merge_separated input rest first)) as (content & Hc & Hv).
    exists content. split; [exact Hc|]. split; [|discriminate].
    rewrite Hv. cbn [visible filter app]. now apply merge_outside.
Qed.

Lemma extractTableContent_keeps_text_witness :
  exists content,
    extractTableContent (E:=unit) (str "CREATE TABLE t (a INT {{ rownum }});") 0 36 [(22, 34)]
      = Ok content
    /\ visible content
       = visible (outside (str "CREATE TABLE t (a INT {{ rownum }});") 0 36 [(22, 34)])
    /\ ([(22, 34)] = [] -> content = sub (str "CREATE TABLE t (a INT {{ rownum }});") 0 36).
Proof.
  apply (extractTableContent_keeps_text unit
           (str "CREATE TABLE t (a INT {{ rownum }});") 0 36 [(22, 34)]).
  - lia.
  - vm_compute. discriminate.
  - reflexivity.
Defined.
